(** * TahlilchiAI retrieval core: a shallow embedding and its properties

    The development follows the layout of [tahlilchi-rag/app]:

    - [Py]: the fragment of the Python runtime the services rely on
      (exceptions, [str] as a sequence of code points, the [re] patterns that
      occur in the sources, insertion-ordered dictionaries, slices and the
      stable [sorted]);
    - [Tokenizer]: [services/tokenizer.py];
    - [Store]: the tables the services read and write through the session;
    - [BM25]: [services/bm25_service.py];
    - [GraphBuilder], [GraphService]: [services/graph];
    - [Router]: [services/router] and [schemas/router.py];
    - [Retrieval]: [services/retrieval] and [schemas/retrieval.py].

    The embedding comes first, the properties after it.  Scores are Python
    floats in the sources; they are rationals here, so comparisons are exact
    and rounding is not modelled. *)

From Stdlib Require Import ZArith QArith Qpower Lia Lqa Ascii String.
From stdpp Require Import base option list strings gmap relations sorting.

Open Scope Z_scope.

(* ===================================================================== *)
(** * The Python runtime                                                  *)
(* ===================================================================== *)

Module Py.

(** ** Exceptions *)

(** The exception classes that the modelled code raises or catches.
    [RetrievalError], [RouterError] and the BM25 errors are built from the
    message of the exception they replace; the replaced exception is kept
    as their argument. *)
Inductive exn : Type :=
| ZeroDivisionError
| IndexError
| ValueError
| MultipleResultsFound
| LangDetectException
| ExternalFailure (what : string)
| OperationalError
| BM25IndexNotFoundError
| NoAtomicUnits
| BM25BuildError (cause : exn)
| BM25Error (cause : exn)
| GraphNotFoundError
| InvalidRetrievalModeError
| RetrievalError (cause : exn)
| RouterError (cause : exn).

Inductive except (A : Type) : Type :=
| Ok (a : A)
| Raise (e : exn).
Arguments Ok {A} a.
Arguments Raise {A} e.

#[export] Instance except_ret : MRet except := fun A a => Ok a.
#[export] Instance except_bind : MBind except := fun A B f m =>
  match m with
  | Ok a => f a
  | Raise e => Raise e
  end.

(** [try: body except Exception as e: handler e]. *)
Definition try_except {A} (body : except A) (handler : exn -> except A) : except A :=
  match body with
  | Ok a => Ok a
  | Raise e => handler e
  end.

(** ** Text *)

(** A [str] is a sequence of Unicode code points. *)
Definition char : Type := N.
Definition str : Type := list char.

(** UTF-8 decoding, used to write literals: [py "modda"] is the [str] whose
    UTF-8 encoding is the given byte string. *)
Fixpoint utf8_decode (need : nat) (acc : N) (bytes : list N) : str :=
  match bytes with
  | [] => []
  | b :: rest =>
    match need with
    | O =>
      if (b <? 128)%N then b :: utf8_decode 0 0%N rest
      else if (b <? 224)%N then utf8_decode 1 (N.land b 31) rest
      else if (b <? 240)%N then utf8_decode 2 (N.land b 15) rest
      else utf8_decode 3 (N.land b 7) rest
    | S n =>
      let acc' := (acc * 64 + N.land b 63)%N in
      match n with
      | O => acc' :: utf8_decode 0 0%N rest
      | S _ => utf8_decode n acc' rest
      end
    end
  end.

Definition py (s : string) : str :=
  utf8_decode 0 0%N (N_of_ascii <$> list_ascii_of_string s).

(** The character database behind [str.lower], [str.isspace], [str.isdigit],
    [str.isupper] and the classes [\w], [\s], [\d] of [re].  [to_lower] is
    the lower-case mapping of one code point (one code point may map to
    several); the context rule for the final sigma is not modelled. *)
Class Unicode : Type := {
  to_lower : char -> str;
  is_alnum : char -> bool;
  is_space : char -> bool;
  is_decimal : char -> bool;
  is_digit : char -> bool;
  is_upper : char -> bool;
  is_lower : char -> bool;
  is_title : char -> bool
}.

(** Facts of the character database that the properties below rely on:
    lower-casing is stable on its own output, the space is white space,
    is its own lower case and is no word character, and no word character
    is white space. *)
Class UnicodeLaws (U : Unicode) : Prop := {
  to_lower_stable : forall c c', c' ∈ to_lower c -> to_lower c' = [c'];
  to_lower_space : to_lower 32%N = [32%N];
  is_alnum_space : is_alnum 32%N = false;
  is_space_alnum : forall c, is_alnum c = true -> is_space c = false;
  is_space_underscore : is_space 95%N = false
}.

Section Text.
Context {U : Unicode}.

(** [s.lower()] *)
Definition lower (s : str) : str := s ≫= to_lower.

(** [\w]: alphanumeric or the underscore. *)
Definition is_word (c : char) : bool := is_alnum c || (c =? 95)%N.

(** [needle in haystack] on strings. *)
Fixpoint starts_with (needle haystack : str) : bool :=
  match needle, haystack with
  | [], _ => true
  | _ :: _, [] => false
  | a :: needle', b :: haystack' => (a =? b)%N && starts_with needle' haystack'
  end.

Fixpoint contains (needle haystack : str) : bool :=
  starts_with needle haystack ||
  match haystack with
  | [] => false
  | _ :: haystack' => contains needle haystack'
  end.

(** [s.strip()] is empty: every character is white space. *)
Definition strip_is_empty (s : str) : bool := forallb is_space s.

(** [s.split()]: the maximal runs of characters that are not white space. *)
Fixpoint split_go (cur : str) (s : str) : list str :=
  match s with
  | [] => match cur with [] => [] | _ => [cur] end
  | c :: s' =>
    if is_space c
    then match cur with [] => split_go [] s' | _ => cur :: split_go [] s' end
    else split_go (cur ++ [c]) s'
  end.
Definition split (s : str) : list str := split_go [] s.

(** [sep.join(parts)] *)
Fixpoint join (sep : str) (parts : list str) : str :=
  match parts with
  | [] => []
  | [p] => p
  | p :: rest => p ++ sep ++ join sep rest
  end.

(** [s.isdigit()]: non-empty and every character is a digit. *)
Definition isdigit (s : str) : bool :=
  match s with [] => false | _ => forallb is_digit s end.

(** [s.isupper()]: no lower-case or title-case character and at least one
    upper-case character. *)
Definition isupper (s : str) : bool :=
  forallb (fun c => negb (is_lower c || is_title c)) s && existsb is_upper s.

(** ** Regular expressions *)

(** The patterns of the sources are sequences of these atoms: one
    character of a class, an optional character, a greedy run [class+],
    and the word boundary [\b]. *)
Inductive atom : Type :=
| One (cls : char -> bool)
| Opt (cls : char -> bool)
| Plus (cls : char -> bool)
| Boundary.

Definition regex : Type := list atom.

(** [\b] between [prev] and the first character of [s]: exactly one side
    is a word character (the ends of the string count as non-word). *)
Definition at_boundary (prev : option char) (s : str) : bool :=
  xorb (from_option is_word false prev) (from_option is_word false (head s)).

(** Backtracking match of [re] at the start of [s], where [prev] is the
    character before [s].  Returns what is left of [s] after the match.
    [Plus] and [Opt] are greedy: the longer alternative is tried first. *)
Fixpoint re_match (re : regex) (prev : option char) (s : str) : option str :=
  match re with
  | [] => Some s
  | Boundary :: re' =>
    if at_boundary prev s then re_match re' prev s else None
  | One cls :: re' =>
    match s with
    | c :: s' => if cls c then re_match re' (Some c) s' else None
    | [] => None
    end
  | Opt cls :: re' =>
    match s with
    | c :: s' =>
      if cls c
      then match re_match re' (Some c) s' with
           | Some rest => Some rest
           | None => re_match re' prev s
           end
      else re_match re' prev s
    | [] => re_match re' prev s
    end
  | Plus cls :: re' =>
    (fix plus (s : str) : option str :=
       match s with
       | c :: s' =>
         if cls c
         then match plus s' with
              | Some rest => Some rest
              | None => re_match re' (Some c) s'
              end
         else None
       | [] => None
       end) s
  end.

(** [re.match(re, s)] succeeds. *)
Definition re_matches (re : regex) (s : str) : bool :=
  bool_decide (is_Some (re_match re None s)).

(** [re.search(re, s)] succeeds: some position of [s] starts a match. *)
Fixpoint re_search_from (re : regex) (prev : option char) (s : str) : bool :=
  match re_match re prev s with
  | Some _ => true
  | None =>
    match s with
    | [] => false
    | c :: s' => re_search_from re (Some c) s'
    end
  end.
Definition re_search (re : regex) (s : str) : bool := re_search_from re None s.

(** [re.findall(re, s)] for a pattern without groups: the matches from
    left to right, each search starting where the previous match ended.
    The patterns used here never match the empty string; an empty match
    makes the scan advance by one character.  Every step consumes a
    character, so [length s] steps are enough. *)
Fixpoint findall_from (fuel : nat) (re : regex) (prev : option char) (s : str)
  : list str :=
  match fuel with
  | O => []
  | S fuel' =>
    match s with
    | [] => []
    | c :: s' =>
      match re_match re prev s with
      | Some rest =>
        let tok := take (length s - length rest) s in
        match tok with
        | [] => findall_from fuel' re (Some c) s'
        | _ => tok :: findall_from fuel' re (last tok) rest
        end
      | None => findall_from fuel' re (Some c) s'
      end
    end
  end.
Definition findall (re : regex) (s : str) : list str :=
  findall_from (length s) re None s.

(** [re.finditer(re_1|re_2|..., s)]: at every position the alternatives
    are tried in their order and the first that matches is taken; the
    next search starts where the match ended.  The result lists, for
    every match, the matched text ([match.group(0)]). *)
Fixpoint re_match_any (res : list regex) (prev : option char) (s : str)
  : option str :=
  match res with
  | [] => None
  | re :: res' =>
    match re_match re prev s with
    | Some rest => Some rest
    | None => re_match_any res' prev s
    end
  end.

Fixpoint finditer_from (fuel : nat) (res : list regex) (prev : option char)
    (s : str) : list str :=
  match fuel with
  | O => []
  | S fuel' =>
    match s with
    | [] => []
    | c :: s' =>
      match re_match_any res prev s with
      | Some rest =>
        let tok := take (length s - length rest) s in
        match tok with
        | [] => finditer_from fuel' res (Some c) s'
        | _ => tok :: finditer_from fuel' res (last tok) rest
        end
      | None => finditer_from fuel' res (Some c) s'
      end
    end
  end.
Definition finditer (res : list regex) (s : str) : list str :=
  finditer_from (length s) res None s.

(** Character classes and literals. *)
Definition chr (c : char) : char -> bool := fun x => (x =? c)%N.
Definition one_of (cs : str) : char -> bool := fun x => existsb (N.eqb x) cs.
Definition lit (s : str) : regex := (fun c => One (chr c)) <$> s.
End Text.

(** ** Containers *)

(** A [dict] keeps its keys in insertion order; assigning to a key that is
    present keeps the key's position. *)
Section Dict.
Context {K V : Type} `{EqDecision K}.

Definition dict : Type := list (K * V).

Fixpoint dict_get (d : dict) (k : K) : option V :=
  match d with
  | [] => None
  | (k', v) :: d' => if decide (k' = k) then Some v else dict_get d' k
  end.

Fixpoint dict_set (d : dict) (k : K) (v : V) : dict :=
  match d with
  | [] => [(k, v)]
  | (k', v') :: d' =>
    if decide (k' = k) then (k, v) :: d' else (k', v') :: dict_set d' k v
  end.

(** The keys of a dictionary that is filled in the order [keys]: every
    key stands where it was first inserted. *)
Definition insertion_order (keys : list K) : list K :=
  foldl (fun seen key => if decide (key ∈ seen) then seen else seen ++ [key]) [] keys.
End Dict.
Arguments dict : clear implicits.

(** [l[:k]] for an integer [k]: the first [k] items, and all but the last
    [-k] when [k] is negative. *)
Definition slice_to {A} (k : Z) (l : list A) : list A :=
  if 0 <=? k then take (Z.to_nat k) l
  else take (length l - Z.to_nat (- k)) l.

(** [sorted(l, key=key, reverse=True)] and [l.sort(key=key, reverse=True)].
    Python's sort is stable, also with [reverse=True]: items with equal
    keys keep their order.  The stable arrangement of a list by a total
    preorder is unique, and is computed here by insertion. *)
Section Sorted.
Context {A : Type} (key : A -> Q).

Fixpoint insert_desc (x : A) (l : list A) : list A :=
  match l with
  | [] => [x]
  | y :: l' =>
    if Qle_bool (key y) (key x) then x :: l else y :: insert_desc x l'
  end.

Definition sorted_desc (l : list A) : list A := foldr insert_desc [] l.
End Sorted.

(** [range(n)] *)
Definition range (n : nat) : list nat := seq 0 n.

(** [enumerate(l, start=1)] *)
Definition enumerate1 {A} (l : list A) : list (Z * A) :=
  zip (Z.of_nat <$> seq 1 (length l)) l.


(** ** A character database *)

(** The instance used to evaluate the services on concrete text.  It covers
    Basic Latin, Latin-1, the Cyrillic block U+0400..U+04FF and the Unicode
    white space; any other code point is taken as a caseless symbol. *)
Definition within (lo hi : N) (c : char) : bool := ((lo <=? c) && (c <=? hi))%N.

Definition basic_is_upper (c : char) : bool :=
  within 65 90 c || within 192 214 c || within 216 222 c
  || within 1024 1071 c
  || ((within 1120 1152 c || within 1162 1214 c || within 1232 1278 c) && N.even c)
  || (c =? 1216)%N || (within 1217 1229 c && N.odd c).

Definition basic_is_lower (c : char) : bool :=
  within 97 122 c || (c =? 170)%N || (c =? 181)%N || (c =? 186)%N
  || within 223 246 c || within 248 255 c
  || within 1072 1119 c
  || ((within 1121 1153 c || within 1163 1215 c || within 1233 1279 c) && N.odd c)
  || (within 1218 1230 c && N.even c) || (c =? 1231)%N.

Definition basic_to_lower (c : char) : str :=
  if within 65 90 c || within 192 214 c || within 216 222 c || within 1040 1071 c
  then [(c + 32)%N]
  else if within 1024 1039 c then [(c + 80)%N]
  else if (c =? 1216)%N then [1231%N]
  else if basic_is_upper c then [(c + 1)%N]
  else [c].

Definition basic_is_digit (c : char) : bool :=
  within 48 57 c || (c =? 178)%N || (c =? 179)%N || (c =? 185)%N.

Definition basic_is_alnum (c : char) : bool :=
  basic_is_upper c || basic_is_lower c || basic_is_digit c || within 188 190 c.

Definition basic_is_space (c : char) : bool :=
  within 9 13 c || within 28 32 c || (c =? 133)%N || (c =? 160)%N
  || (c =? 5760)%N || within 8192 8202 c || within 8232 8233 c
  || (c =? 8239)%N || (c =? 8287)%N || (c =? 12288)%N.

#[export] Instance basic_unicode : Unicode := {|
  to_lower := basic_to_lower;
  is_alnum := basic_is_alnum;
  is_space := basic_is_space;
  is_decimal := within 48 57;
  is_digit := basic_is_digit;
  is_upper := basic_is_upper;
  is_lower := basic_is_lower;
  is_title := fun _ => false
|}.

End Py.
Import Py.

(* ===================================================================== *)
(** * External collaborators                                              *)
(* ===================================================================== *)

(** Libraries and services the core calls and does not implement: the NLTK
    stop-word corpus, [langdetect.detect], [rank_bm25.BM25Okapi] (building
    the ranking object from a tokenized corpus and scoring a query against
    it: one score per document, or an exception), and the dense search
    (embedding the query and searching the vector store of a chat with a
    tenant filter). *)
Class Externals : Type := {
  nltk_stopwords : string -> list str;
  detect : str -> except string;
  okapi_scores : list (list str) -> list str -> except (list Q);
  vector_search :
    forall (chat_id tenant_id : string) (query : str) (limit : Z) (score_threshold : Q),
      except (list (string * Q * gmap string string))
}.

(* ===================================================================== *)
(** * services/tokenizer.py                                               *)
(* ===================================================================== *)

Module Tokenizer.
Section Tokenizer.
Context {U : Unicode} {E : Externals}.

Record MultilingualTokenizer : Type := {
  remove_stopwords : bool;
  stopwords : list str
}.

Definition _get_uzbek_stopwords : list str :=
  py <$> [ "va"; "yoki"; "lekin"; "uchun"; "bilan"; "dan"; "ga"; "ni"; "bu";
           "shu"; "o"; "u"; "ham"; "yoxud"; "yo"; "esa"; "edi"; "ekan";
           "kerak"; "mumkin"; "sifatida"; "haqida"; "agar" ]%string.

(** [MultilingualTokenizer(remove_stopwords)], with the NLTK corpus
    installed. *)
Definition init (remove : bool) : MultilingualTokenizer :=
  {| remove_stopwords := remove;
     stopwords :=
       if remove
       then nltk_stopwords "english" ++ nltk_stopwords "russian"
            ++ _get_uzbek_stopwords
       else [] |}.

(** [r"\b[\w-]+\b"] *)
Definition token_class (c : char) : bool := is_word c || chr 45%N c.
Definition token_re : regex := [Boundary; Plus token_class; Boundary].

Definition tokenize (self : MultilingualTokenizer) (text : str) : list str :=
  if bool_decide (text = []) || strip_is_empty text then []
  else
    let text := lower text in
    let tokens := findall token_re text in
    let tokens :=
      if remove_stopwords self
      then filter (fun t => t ∉ stopwords self) tokens
      else tokens in
    filter (fun t => (2 <= length t)%nat \/ isdigit t = true) tokens.
End Tokenizer.
End Tokenizer.

(* ===================================================================== *)
(** * The stored data                                                     *)
(* ===================================================================== *)

(** Identifiers (primary keys, tenant and chat ids) are UUIDs, kept as
    their string form. *)
Abbreviation UUID := string (only parsing).

(** [models/atomic_unit.py], as the services read it. *)
Module AtomicUnit.
Record t : Type := {
  id : UUID;
  tenant_id : UUID;
  document_id : UUID;
  chat_id : UUID;
  unit_type : string;
  text : str;
  sequence : Z;
  level : Z;
  page_number : option Z;
  section_title : option string
}.
End AtomicUnit.

(** The per-document entry of [BM25Index.doc_metadata]. *)
Module DocMetadata.
Record t : Type := {
  document_id : UUID;
  unit_type : string;
  sequence : Z;
  page_number : option Z;
  section_title : option string
}.
End DocMetadata.

(** [models/bm25_index.py]: three parallel arrays and two counters. *)
Module BM25Index.
Record t : Type := {
  tenant_id : UUID;
  chat_id : UUID;
  corpus_tokens : list (list str);
  doc_ids : list UUID;
  doc_metadata : list DocMetadata.t;
  document_count : Z;
  total_tokens : Z
}.
End BM25Index.

(** [services/graph/node.py] *)
Module EdgeType.
Definition CONTAINS : string := "CONTAINS".
Definition NEXT : string := "NEXT".
Definition REFERS_TO : string := "REFERS_TO".
Definition PART_OF : string := "PART_OF".
End EdgeType.

Module GraphNode.
Record t : Type := {
  node_id : UUID;
  node_type : string;
  text : str;
  level : Z;
  sequence : Z;
  document_id : UUID;
  page_number : option Z;
  section_title : option string
}.
End GraphNode.

Module GraphEdge.
Inductive edge_metadata : Type :=
| Hierarchy
| SequenceGap (gap : Z)
| Reference (reference_text reference_number : str).

Record t : Type := {
  source_id : UUID;
  target_id : UUID;
  edge_type : string;
  metadata : edge_metadata
}.
End GraphEdge.

(** [models/document_graph.py]: the nodes by node id and the edge list. *)
Module DocumentGraph.
Record t : Type := {
  tenant_id : UUID;
  chat_id : UUID;
  nodes : gmap string GraphNode.t;
  edges : list GraphEdge.t
}.
End DocumentGraph.

(** [models/chat.py], the columns the router reads. *)
Module Chat.
Record t : Type := {
  id : UUID;
  tenant_id : UUID;
  strictness : string;
  purpose : string
}.
End Chat.

Module Store.

(** The database as one session sees it: the rows of each table, whether
    the server can be reached, and how many times the session was rolled
    back. *)
Record DB : Type := {
  atomic_units : list AtomicUnit.t;
  bm25_indexes : list BM25Index.t;
  document_graphs : list DocumentGraph.t;
  chats : list Chat.t;
  available : bool;
  rollbacks : nat
}.

(** A service method: it runs against the session's database, returns or
    raises, and leaves a database behind. *)
Definition session (A : Type) : Type := DB -> except A * DB.

Definition ret {A} (a : A) : session A := fun db => (Ok a, db).
Definition raise {A} (e : exn) : session A := fun db => (Raise e, db).
Definition bind {A B} (m : session A) (f : A -> session B) : session B :=
  fun db =>
    match m db with
    | (Ok a, db') => f a db'
    | (Raise e, db') => (Raise e, db')
    end.
Definition lift {A} (r : except A) : session A := fun db => (r, db).

(** [try: body except Exception as e: handler e] *)
Definition try_ {A} (body : session A) (handler : exn -> session A) : session A :=
  fun db =>
    match body db with
    | (Ok a, db') => (Ok a, db')
    | (Raise e, db') => handler e db'
    end.

(** [await self.db.rollback()] *)
Definition rollback : session unit := fun db =>
  (Ok tt,
   {| atomic_units := atomic_units db; bm25_indexes := bm25_indexes db;
      document_graphs := document_graphs db; chats := chats db;
      available := available db; rollbacks := S (rollbacks db) |}).

(** [await self.db.execute(select(Model).where(...))], then
    [result.scalars().all()]: the rows of the table that satisfy the
    condition, in table order; [OperationalError] when the server cannot
    be reached. *)
Definition select {A} (table : DB -> list A) (where_ : A -> Prop)
    `{forall row, Decision (where_ row)} : session (list A) :=
  fun db =>
    if available db then (Ok (filter where_ (table db)), db)
    else (Raise OperationalError, db).

(** [result.scalar_one_or_none()] *)
Definition scalar_one_or_none {A} (rows : list A) : except (option A) :=
  match rows with
  | [] => Ok None
  | [row] => Ok (Some row)
  | _ => Raise MultipleResultsFound
  end.

(** [seq[i]] on a list: [IndexError] out of range. *)
Definition item {A} (l : list A) (i : nat) : except A :=
  match l !! i with
  | Some a => Ok a
  | None => Raise IndexError
  end.

(** [ORDER BY] of the database server: the rows arranged by a column.
    The order of rows with equal keys is the server's choice. *)
Class OrderBy : Type :=
  order_by : forall {A : Type}, (A -> Z) -> list A -> list A.

Class OrderByLaws (O : OrderBy) : Prop := {
  order_by_Permutation : forall {A} (key : A -> Z) (rows : list A),
    order_by key rows ≡ₚ rows;
  order_by_sorted : forall {A} (key : A -> Z) (rows : list A),
    StronglySorted (fun a b => key a <= key b) (order_by key rows)
}.

(** [select(Model).where(...).order_by(column)] *)
Definition select_ordered {O : OrderBy} {A} (table : DB -> list A)
    (where_ : A -> Prop) `{forall row, Decision (where_ row)} (key : A -> Z)
  : session (list A) :=
  fun db =>
    if available db then (Ok (order_by key (filter where_ (table db))), db)
    else (Raise OperationalError, db).

(** Writes.  A row that is added, changed or deleted through the session
    is what the later queries of the session read. *)
Definition with_bm25_indexes (rows : list BM25Index.t) (db : DB) : DB :=
  {| atomic_units := atomic_units db; bm25_indexes := rows;
     document_graphs := document_graphs db; chats := chats db;
     available := available db; rollbacks := rollbacks db |}.

Definition with_document_graphs (rows : list DocumentGraph.t) (db : DB) : DB :=
  {| atomic_units := atomic_units db; bm25_indexes := bm25_indexes db;
     document_graphs := rows; chats := chats db;
     available := available db; rollbacks := rollbacks db |}.

(** [self.db.add(row)] *)
Definition add_bm25_index (row : BM25Index.t) : session unit :=
  fun db => (Ok tt, with_bm25_indexes (bm25_indexes db ++ [row]) db).

Definition add_document_graph (row : DocumentGraph.t) : session unit :=
  fun db => (Ok tt, with_document_graphs (document_graphs db ++ [row]) db).

(** Assignments to the attributes of the row a query has loaded with
    [scalar_one_or_none]: the one row that satisfies the condition of the
    query is changed where it stands. *)
Definition update_bm25_index (where_ : BM25Index.t -> Prop)
    `{forall row, Decision (where_ row)} (change : BM25Index.t -> BM25Index.t)
  : session unit :=
  fun db =>
    (Ok tt,
     with_bm25_indexes
       ((fun row => if decide (where_ row) then change row else row)
          <$> bm25_indexes db) db).

Definition update_document_graph (where_ : DocumentGraph.t -> Prop)
    `{forall row, Decision (where_ row)}
    (change : DocumentGraph.t -> DocumentGraph.t) : session unit :=
  fun db =>
    (Ok tt,
     with_document_graphs
       ((fun row => if decide (where_ row) then change row else row)
          <$> document_graphs db) db).

(** [await self.db.delete(row)], for the row a query has loaded. *)
Definition delete_bm25_index (where_ : BM25Index.t -> Prop)
    `{forall row, Decision (where_ row)} : session unit :=
  fun db =>
    (Ok tt, with_bm25_indexes (filter (fun row => ~ where_ row) (bm25_indexes db)) db).

(** [await self.db.commit()] *)
Definition commit : session unit :=
  fun db => if available db then (Ok tt, db) else (Raise OperationalError, db).

End Store.
Import Store.

Declare Scope session_scope.
Delimit Scope session_scope with session.
Notation "x <- m ;; k" := (bind m (fun x => k))
  (at level 100, m at next level, right associativity) : session_scope.

(* ===================================================================== *)
(** * services/bm25_service.py                                            *)
(* ===================================================================== *)

Module BM25.
Section BM25Service.
Context {U : Unicode} {E : Externals}.

(** One entry of the list [search] returns. *)
Record hit : Type := {
  atomic_unit_id : UUID;
  score : Q;
  metadata : DocMetadata.t
}.

Definition _load_index (chat_id tenant_id : UUID) : session (option BM25Index.t) :=
  (rows <- select bm25_indexes
             (fun index => BM25Index.chat_id index = chat_id
                           /\ BM25Index.tenant_id index = tenant_id) ;;
   lift (scalar_one_or_none rows))%session.

(** [scores[i]] for an index of [range(len(scores))]. *)
Definition score_at (scores : list Q) (i : nat) : Q := default 0%Q (scores !! i).

(** [score > 0] *)
Definition positive (q : Q) : bool := negb (Qle_bool q 0).

(** Step 6 of [search]: the loop over [top_indices]. *)
Fixpoint format_results (index_data : BM25Index.t) (scores : list Q)
    (top_indices : list nat) : except (list hit) :=
  match top_indices with
  | [] => Ok []
  | idx :: rest =>
    let score := score_at scores idx in
    if positive score then
      match item (BM25Index.doc_ids index_data) idx,
            item (BM25Index.doc_metadata index_data) idx with
      | Ok unit_id, Ok meta =>
        match format_results index_data scores rest with
        | Ok results =>
          Ok ({| atomic_unit_id := unit_id; score := score; metadata := meta |}
                :: results)
        | Raise e => Raise e
        end
      | Raise e, _ => Raise e
      | _, Raise e => Raise e
      end
    else format_results index_data scores rest
  end.

(** Step 5 of [search]:
    [sorted(range(len(scores)), key=lambda i: scores[i], reverse=True)[:top_k]] *)
Definition top_indices (scores : list Q) (top_k : Z) : list nat :=
  slice_to top_k (sorted_desc (score_at scores) (range (length scores))).

Definition search (tokenizer : Tokenizer.MultilingualTokenizer)
    (chat_id tenant_id : UUID) (query : str) (top_k : Z) : session (list hit) :=
  try_
    (index_data <- _load_index chat_id tenant_id ;;
     match index_data with
     | None => raise BM25IndexNotFoundError
     | Some index_data =>
       scores <- lift (okapi_scores (BM25Index.corpus_tokens index_data)
                                    (Tokenizer.tokenize tokenizer query)) ;;
       lift (format_results index_data scores (top_indices scores top_k))
     end)%session
    (fun e =>
       match e with
       | BM25IndexNotFoundError => raise BM25IndexNotFoundError
       | _ => raise (BM25Error e)
       end).

(** ** Building and deleting the index *)

Section Build.
Context {O : OrderBy}.

Definition _load_atomic_units (chat_id tenant_id : UUID)
  : session (list AtomicUnit.t) :=
  select_ordered atomic_units
                 (fun unit => AtomicUnit.chat_id unit = chat_id
                              /\ AtomicUnit.tenant_id unit = tenant_id)
                 AtomicUnit.sequence.

(** The dictionary [build_index] appends to [doc_metadata]. *)
Definition metadata_of (unit : AtomicUnit.t) : DocMetadata.t :=
  {| DocMetadata.document_id := AtomicUnit.document_id unit;
     DocMetadata.unit_type := AtomicUnit.unit_type unit;
     DocMetadata.sequence := AtomicUnit.sequence unit;
     DocMetadata.page_number := AtomicUnit.page_number unit;
     DocMetadata.section_title := AtomicUnit.section_title unit |}.

(** The time stamps of the row are not modelled. *)
Definition _save_index (chat_id tenant_id : UUID)
    (corpus_tokens : list (list str)) (doc_ids : list UUID)
    (doc_metadata : list DocMetadata.t) (document_count total_tokens : Z)
  : session unit :=
  (rows <- select bm25_indexes (fun index => BM25Index.chat_id index = chat_id) ;;
   existing_index <- lift (scalar_one_or_none rows) ;;
   _ <- match existing_index with
        | Some _ =>
          update_bm25_index
            (fun index => BM25Index.chat_id index = chat_id)
            (fun index =>
               {| BM25Index.tenant_id := BM25Index.tenant_id index;
                  BM25Index.chat_id := BM25Index.chat_id index;
                  BM25Index.corpus_tokens := corpus_tokens;
                  BM25Index.doc_ids := doc_ids;
                  BM25Index.doc_metadata := doc_metadata;
                  BM25Index.document_count := document_count;
                  BM25Index.total_tokens := total_tokens |})
        | None =>
          add_bm25_index
            {| BM25Index.tenant_id := tenant_id;
               BM25Index.chat_id := chat_id;
               BM25Index.corpus_tokens := corpus_tokens;
               BM25Index.doc_ids := doc_ids;
               BM25Index.doc_metadata := doc_metadata;
               BM25Index.document_count := document_count;
               BM25Index.total_tokens := total_tokens |}
        end ;;
   commit)%session.

(** The dictionary [build_index] returns. *)
Record build_statistics : Type := {
  stats_chat_id : UUID;
  stats_document_count : Z;
  stats_total_tokens : Z;
  stats_status : string
}.

Definition build_index (tokenizer : Tokenizer.MultilingualTokenizer)
    (chat_id tenant_id : UUID) : session build_statistics :=
  try_
    (atomic_units <- _load_atomic_units chat_id tenant_id ;;
     match atomic_units with
     | [] => raise NoAtomicUnits
     | _ =>
       let corpus_tokens :=
         (fun unit => Tokenizer.tokenize tokenizer (AtomicUnit.text unit))
           <$> atomic_units in
       let doc_ids := AtomicUnit.id <$> atomic_units in
       let doc_metadata := metadata_of <$> atomic_units in
       let total_tokens :=
         foldl Z.add 0 ((fun tokens => Z.of_nat (length tokens)) <$> corpus_tokens) in
       _ <- _save_index chat_id tenant_id corpus_tokens doc_ids doc_metadata
                        (Z.of_nat (length atomic_units)) total_tokens ;;
       ret {| stats_chat_id := chat_id;
              stats_document_count := Z.of_nat (length atomic_units);
              stats_total_tokens := total_tokens;
              stats_status := "success" |}
     end)%session
    (fun e => raise (BM25BuildError e)).

Definition delete_index (chat_id tenant_id : UUID) : session bool :=
  (rows <- select bm25_indexes
             (fun index => BM25Index.chat_id index = chat_id
                           /\ BM25Index.tenant_id index = tenant_id) ;;
   index <- lift (scalar_one_or_none rows) ;;
   match index with
   | Some _ =>
     _ <- delete_bm25_index
            (fun index => BM25Index.chat_id index = chat_id
                          /\ BM25Index.tenant_id index = tenant_id) ;;
     _ <- commit ;;
     ret true
   | None => ret false
   end)%session.
End Build.
End BM25Service.
End BM25.

(* ===================================================================== *)
(** * services/graph/graph_builder.py                                     *)
(* ===================================================================== *)

Module GraphBuilder.

Definition _create_nodes (atomic_units : list AtomicUnit.t)
  : gmap string GraphNode.t :=
  foldl
    (fun nodes unit =>
       <[ AtomicUnit.id unit :=
            {| GraphNode.node_id := AtomicUnit.id unit;
               GraphNode.node_type := AtomicUnit.unit_type unit;
               GraphNode.text := AtomicUnit.text unit;
               GraphNode.level := AtomicUnit.level unit;
               GraphNode.sequence := AtomicUnit.sequence unit;
               GraphNode.document_id := AtomicUnit.document_id unit;
               GraphNode.page_number := AtomicUnit.page_number unit;
               GraphNode.section_title := AtomicUnit.section_title unit |} ]> nodes)
    ∅ atomic_units.

(** [parent_stack] holds [(level, unit_id)] pairs; the list is kept with
    the top of the stack ([parent_stack[-1]]) first. *)
Definition parent_stack : Type := list (Z * UUID).

(** [while parent_stack and parent_stack[-1][0] >= unit.level:
       parent_stack.pop()] *)
Fixpoint pop_parents (level : Z) (stack : parent_stack) : parent_stack :=
  match stack with
  | [] => []
  | (parent_level, parent_id) :: below =>
    if parent_level >=? level then pop_parents level below else stack
  end.

Definition contains_edge (parent_id unit_id : UUID) : GraphEdge.t :=
  {| GraphEdge.source_id := parent_id;
     GraphEdge.target_id := unit_id;
     GraphEdge.edge_type := EdgeType.CONTAINS;
     GraphEdge.metadata := GraphEdge.Hierarchy |}.

(** One iteration of the loop over the units. *)
Definition hierarchy_step (state : list GraphEdge.t * parent_stack)
    (unit : AtomicUnit.t) : list GraphEdge.t * parent_stack :=
  let '(edges, stack) := state in
  let stack := pop_parents (AtomicUnit.level unit) stack in
  let edges :=
    match stack with
    | (_, parent_id) :: _ => edges ++ [contains_edge parent_id (AtomicUnit.id unit)]
    | [] => edges
    end in
  (edges, (AtomicUnit.level unit, AtomicUnit.id unit) :: stack).

Definition _create_hierarchy_edges (atomic_units : list AtomicUnit.t)
  : list GraphEdge.t :=
  fst (foldl hierarchy_step ([], []) atomic_units).

(** [for i in range(len(atomic_units) - 1)]: one NEXT edge per adjacent
    pair. *)
Fixpoint _create_sequence_edges (atomic_units : list AtomicUnit.t)
  : list GraphEdge.t :=
  match atomic_units with
  | unit :: (next :: _) as rest =>
    {| GraphEdge.source_id := AtomicUnit.id unit;
       GraphEdge.target_id := AtomicUnit.id next;
       GraphEdge.edge_type := EdgeType.NEXT;
       GraphEdge.metadata := GraphEdge.SequenceGap 1 |}
      :: _create_sequence_edges rest
  | _ => []
  end.


Section References.
Context {U : Unicode}.

(** [nodes.values()] for the dictionary [nodes] that [_create_nodes] made
    of [atomic_units]: the values come in the order in which their keys
    were first inserted. *)
Definition values (atomic_units : list AtomicUnit.t)
    (nodes : gmap string GraphNode.t) : list GraphNode.t :=
  omap (fun node_id => nodes !! node_id)
       (insertion_order (AtomicUnit.id <$> atomic_units)).

(** [heading_lookup]: the first number of the text of a heading or
    section, mapped to the node; a later node with the same number
    replaces an earlier one. *)
Definition heading_lookup (nodes : list GraphNode.t) : dict str UUID :=
  foldl
    (fun lookup node =>
       if bool_decide (GraphNode.node_type node ∈ ["heading"; "section"]%string)
       then match findall [Plus is_decimal] (GraphNode.text node) with
            | number :: _ => dict_set lookup number (GraphNode.node_id node)
            | [] => lookup
            end
       else lookup)
    [] nodes.

(** [[Xx]rest\s+(\d+)] *)
Definition reference (initials rest : string) : regex :=
  [One (one_of (py initials))] ++ lit (py rest) ++ [Plus is_space; Plus is_decimal].

Definition patterns : list regex :=
  [ reference "Aa" "rticle";
    reference "Ss" "ection";
    reference "Cc" "lause";
    reference "Mm" "odda";
    [One (one_of (py "Бб"))] ++ lit (py "о") ++ [One (one_of (py "лъ"))]
      ++ lit (py "им") ++ [Plus is_space; Plus is_decimal];
    reference "Сс" "татья" ].

(** The body of the loop over the matches of a unit.  The number of a
    match is the first run of digits of the matched text: the group of
    the alternative that matched is the matched text, and it has no digit
    before its number. *)
Definition reference_edge (unit : AtomicUnit.t) (lookup : dict str UUID)
    (edges : list GraphEdge.t) (reference_text : str) : list GraphEdge.t :=
  match findall [Plus is_decimal] reference_text with
  | number :: _ =>
    match dict_get lookup number with
    | Some target_id =>
      if bool_decide (AtomicUnit.id unit = target_id) then edges
      else edges ++ [{| GraphEdge.source_id := AtomicUnit.id unit;
                        GraphEdge.target_id := target_id;
                        GraphEdge.edge_type := EdgeType.REFERS_TO;
                        GraphEdge.metadata :=
                          GraphEdge.Reference reference_text number |}]
    | None => edges
    end
  | [] => edges
  end.

Definition _create_reference_edges (atomic_units : list AtomicUnit.t)
    (nodes : gmap string GraphNode.t) : list GraphEdge.t :=
  let lookup := heading_lookup (values atomic_units nodes) in
  foldl
    (fun edges unit =>
       foldl (reference_edge unit lookup) edges
             (finditer patterns (AtomicUnit.text unit)))
    [] atomic_units.

Definition build_graph (atomic_units : list AtomicUnit.t)
  : gmap string GraphNode.t * list GraphEdge.t :=
  match atomic_units with
  | [] => (∅, [])
  | _ =>
    let nodes := _create_nodes atomic_units in
    (nodes,
     _create_hierarchy_edges atomic_units
       ++ _create_sequence_edges atomic_units
       ++ _create_reference_edges atomic_units nodes)
  end.
End References.

End GraphBuilder.

(* ===================================================================== *)
(** * services/graph/graph_service.py                                     *)
(* ===================================================================== *)

Module GraphService.

(** One entry of the list [get_neighbors] returns. *)
Record neighbor : Type := {
  node : GraphNode.t;
  edge : GraphEdge.t;
  distance : Z
}.

Definition _load_graph (chat_id tenant_id : UUID)
  : session (option DocumentGraph.t) :=
  (rows <- select document_graphs
             (fun graph => DocumentGraph.chat_id graph = chat_id
                           /\ DocumentGraph.tenant_id graph = tenant_id) ;;
   lift (scalar_one_or_none rows))%session.

(** The variables the traversal updates: [visited], [next_layer] and
    [neighbors]. *)
Record traversal : Type := {
  visited : gset string;
  next_layer : list UUID;
  neighbors : list neighbor
}.

(** [edge_type is None or edge["edge_type"] == edge_type] *)
Definition type_matches (edge_type : option string) (e : GraphEdge.t) : bool :=
  match edge_type with
  | None => true
  | Some wanted => bool_decide (GraphEdge.edge_type e = wanted)
  end.

(** The body of [for edge in graph["edges"]], for the node [current_id] of
    the current layer in round [hop]. *)
Definition visit_edge (graph : DocumentGraph.t) (edge_type : option string)
    (hop : Z) (current_id : UUID) (t : traversal) (e : GraphEdge.t) : traversal :=
  if bool_decide (GraphEdge.source_id e = current_id) && type_matches edge_type e
  then
    let target_id := GraphEdge.target_id e in
    if bool_decide (target_id ∈ visited t) then t
    else
      {| visited := visited t ∪ {[ target_id ]};
         next_layer := next_layer t ++ [target_id];
         neighbors :=
           match DocumentGraph.nodes graph !! target_id with
           | Some n =>
             neighbors t ++ [{| node := n; edge := e; distance := hop + 1 |}]
           | None => neighbors t
           end |}
  else t.

(** [for current_id in current_layer: for edge in graph["edges"]: ...] *)
Definition visit_layer (graph : DocumentGraph.t) (edge_type : option string)
    (hop : Z) (t : traversal) (current_layer : list UUID) : traversal :=
  foldl
    (fun t current_id =>
       foldl (visit_edge graph edge_type hop current_id) t
             (DocumentGraph.edges graph))
    t current_layer.

(** [for hop in range(hops)], with [rounds] iterations left. *)
Fixpoint hop_loop (graph : DocumentGraph.t) (edge_type : option string)
    (rounds : nat) (hop : Z) (visited : gset string)
    (current_layer : list UUID) (neighbors : list neighbor) : list neighbor :=
  match rounds with
  | O => neighbors
  | S rounds' =>
    let t := visit_layer graph edge_type hop
               {| visited := visited; next_layer := []; neighbors := neighbors |}
               current_layer in
    hop_loop graph edge_type rounds' (hop + 1)
             (GraphService.visited t) (next_layer t) (GraphService.neighbors t)
  end.

Definition get_neighbors (chat_id tenant_id : UUID) (node_id : UUID)
    (edge_type : option string) (hops : Z) : session (list neighbor) :=
  (graph <- _load_graph chat_id tenant_id ;;
   match graph with
   | None => raise GraphNotFoundError
   | Some graph =>
     ret (hop_loop graph edge_type (Z.to_nat hops) 0 {[ node_id ]} [node_id] [])
   end)%session.


(** ** Building the graph *)

Section Build.
Context {U : Unicode} {O : OrderBy}.

Definition _load_atomic_units (chat_id tenant_id : UUID)
  : session (list AtomicUnit.t) :=
  select_ordered atomic_units
                 (fun unit => AtomicUnit.chat_id unit = chat_id
                              /\ AtomicUnit.tenant_id unit = tenant_id)
                 AtomicUnit.sequence.

(** The dictionary [_calculate_metadata] returns; the order of the keys
    of the two dictionaries of counts is not kept. *)
Record graph_metadata : Type := {
  edge_type_counts : gmap string Z;
  node_type_counts : gmap string Z;
  avg_node_degree : Q
}.

(** [counts[key] = counts.get(key, 0) + 1] *)
Definition count (counts : gmap string Z) (key : string) : gmap string Z :=
  <[ key := default 0 (counts !! key) + 1 ]> counts.

Definition _calculate_metadata (nodes : gmap string GraphNode.t)
    (edges : list GraphEdge.t) : graph_metadata :=
  {| edge_type_counts :=
       foldl (fun counts e => count counts (GraphEdge.edge_type e)) ∅ edges;
     node_type_counts :=
       map_fold (fun _ n counts => count counts (GraphNode.node_type n)) ∅ nodes;
     avg_node_degree :=
       if decide (nodes = ∅) then 0%Q
       else (inject_Z (Z.of_nat (length edges)) / inject_Z (Z.of_nat (size nodes)))%Q |}.

(** The row keeps the nodes and the edges.  Its counters and its metadata
    are computed from them at every write ([len(nodes)], [len(edges)],
    [_calculate_metadata]) and no query of the services reads them; they
    and the time stamps are not modelled. *)
Definition _save_graph (chat_id tenant_id : UUID)
    (nodes : gmap string GraphNode.t) (edges : list GraphEdge.t)
    (metadata : graph_metadata) : session unit :=
  (rows <- select document_graphs (fun g => DocumentGraph.chat_id g = chat_id) ;;
   existing_graph <- lift (scalar_one_or_none rows) ;;
   _ <- match existing_graph with
        | Some _ =>
          update_document_graph
            (fun g => DocumentGraph.chat_id g = chat_id)
            (fun g =>
               {| DocumentGraph.tenant_id := DocumentGraph.tenant_id g;
                  DocumentGraph.chat_id := DocumentGraph.chat_id g;
                  DocumentGraph.nodes := nodes;
                  DocumentGraph.edges := edges |})
        | None =>
          add_document_graph
            {| DocumentGraph.tenant_id := tenant_id;
               DocumentGraph.chat_id := chat_id;
               DocumentGraph.nodes := nodes;
               DocumentGraph.edges := edges |}
        end ;;
   commit)%session.

(** The dictionary [build_graph] returns. *)
Record build_statistics : Type := {
  stats_chat_id : UUID;
  stats_node_count : Z;
  stats_edge_count : Z;
  stats_metadata : graph_metadata;
  stats_status : string
}.

(** [GraphBuildError], which [build_graph] alone raises: it is made from
    the message of the exception it replaces, kept here as its argument.
    The error for a chat without units ([NoAtomicUnits]) is raised inside
    the [try] of [build_graph] and replaced like any other. *)
Inductive GraphBuildError : Type :=
| FailedToBuildGraph (cause : exn).

Definition build_graph (chat_id tenant_id : UUID)
  : DB -> (build_statistics + GraphBuildError) * DB :=
  fun db =>
    match _load_atomic_units chat_id tenant_id db with
    | (Raise e, db) => (inr (FailedToBuildGraph e), db)
    | (Ok [], db) => (inr (FailedToBuildGraph NoAtomicUnits), db)
    | (Ok atomic_units, db) =>
      let '(nodes, edges) := GraphBuilder.build_graph atomic_units in
      let graph_metadata := _calculate_metadata nodes edges in
      match _save_graph chat_id tenant_id nodes edges graph_metadata db with
      | (Raise e, db) => (inr (FailedToBuildGraph e), db)
      | (Ok _, db) =>
        (inl {| stats_chat_id := chat_id;
                stats_node_count := Z.of_nat (size nodes);
                stats_edge_count := Z.of_nat (length edges);
                stats_metadata := graph_metadata;
                stats_status := "success" |}, db)
      end
    end.
End Build.

End GraphService.

(* ===================================================================== *)
(** * schemas/retrieval.py                                                *)
(* ===================================================================== *)

(** [RetrievalMode] is a [str] enumeration: a member equals its value. *)
Module RetrievalMode.
Definition DENSE_ONLY : string := "dense_only".
Definition SPARSE_ONLY : string := "sparse_only".
Definition HYBRID : string := "hybrid".
Definition GRAPH_ENHANCED : string := "graph_enhanced".
End RetrievalMode.

(* ===================================================================== *)
(** * schemas/router.py and services/router                               *)
(* ===================================================================== *)

Module Router.

Inductive QueryType : Type :=
| EXACT_REFERENCE
| KEYWORD_SEARCH
| SEMANTIC_QUESTION
| HYBRID_QUERY
| UNCLEAR.

Inductive QueryLanguage : Type :=
| UZBEK
| RUSSIAN
| ENGLISH
| MIXED
| UNKNOWN.

Record QueryCharacteristics : Type := {
  query_type : QueryType;
  language : QueryLanguage;
  has_numbers : bool;
  has_exact_phrases : bool;
  has_question_words : bool;
  word_count : Z;
  contains_technical_terms : bool;
  confidence : Q
}.

Record RoutingDecision : Type := {
  selected_mode : string;
  top_k : Z;
  score_threshold : Q;
  expand_with_neighbors : bool;
  neighbor_hops : Z;
  reasoning : string;
  query_characteristics : QueryCharacteristics;
  chat_strictness : string;
  chat_purpose : string
}.

Record RouterRequest : Type := {
  query : str;
  chat_id : string;
  force_mode : option string;
  force_top_k : option Z
}.

Section QueryAnalyzer.
Context {U : Unicode} {E : Externals}.

(** [self.question_words], in the order of the dictionary. *)
Definition question_words : dict string (list str) :=
  [ ("en", py <$> ["what"; "who"; "where"; "when"; "why"; "how"; "which"; "whose"]);
    ("ru", py <$> ["что"; "кто"; "где"; "когда"; "почему"; "как"; "какой"; "чей"]);
    ("uz", py <$> ["nima"; "kim"; "qayer"; "qachon"; "nega"; "qanday"; "qaysi"]) ]%string.

(** [\b[Xx]rest\s+\d+] *)
Definition reference_pattern (initials rest : string) (optional : string) : regex :=
  [Boundary; One (one_of (py initials))] ++ lit (py rest)
    ++ ((fun c => Opt (chr c)) <$> py optional)
    ++ [Plus is_space; Plus is_decimal].

Definition reference_patterns : list regex :=
  [ reference_pattern "Aa" "rticle" "";
    reference_pattern "Ss" "ection" "";
    reference_pattern "Cc" "lause" "";
    reference_pattern "Mm" "odda" "";
    reference_pattern "Бб" "анд" "л";
    reference_pattern "Сс" "татья" "" ]%string.

Definition _detect_language (query : str) : except QueryLanguage :=
  try_except
    (lang_code ← detect query;
     Ok (if bool_decide (lang_code = "uz") then UZBEK
         else if bool_decide (lang_code = "ru") then RUSSIAN
         else if bool_decide (lang_code = "en") then ENGLISH
         else UNKNOWN))
    (fun e =>
       match e with
       | LangDetectException => Ok UNKNOWN
       | _ => Raise e
       end).

Definition _has_question_words (query : str) (language : QueryLanguage) : bool :=
  let query_lower := lower query in
  existsb (fun entry => existsb (fun word => contains word query_lower) entry.2)
          question_words
  || contains (py "?") query.

Definition _has_references (query : str) : bool :=
  existsb (fun pattern => re_search pattern query) reference_patterns.

Definition _has_technical_terms (query : str) : bool :=
  existsb
    (fun word =>
       re_matches [Plus (within 97 122); One (within 65 90)] word
       || (isupper word && bool_decide (1 < length word)%nat)
       || (contains (py "_") word || contains (py "-") word))
    (split query).

Definition _classify_query_type (query : str)
    (has_references has_question_words has_numbers : bool) (word_count : Z)
  : QueryType * Q :=
  if has_references then (EXACT_REFERENCE, 0.9%Q)
  else if has_question_words && (3 <? word_count) then (SEMANTIC_QUESTION, 0.85%Q)
  else if (word_count <=? 3) && (has_numbers || isupper query)
  then (KEYWORD_SEARCH, 0.75%Q)
  else if 3 <? word_count then (HYBRID_QUERY, 0.6%Q)
  else (UNCLEAR, 0.3%Q).

Definition analyze (query : str) : QueryCharacteristics :=
  let attempt : except QueryCharacteristics :=
    let word_count := Z.of_nat (length (split query)) in
    let has_numbers := re_search [Plus is_decimal] query in
    let has_exact_phrases := contains [34%N] query || contains (py "'") query in
    language ← _detect_language query;
    let has_question_words := _has_question_words query language in
    let has_references := _has_references query in
    let contains_technical_terms := _has_technical_terms query in
    let '(query_type, confidence) :=
      _classify_query_type query has_references has_question_words
                           has_numbers word_count in
    Ok {| query_type := query_type;
          language := language;
          has_numbers := has_numbers;
          has_exact_phrases := has_exact_phrases;
          has_question_words := has_question_words;
          word_count := word_count;
          contains_technical_terms := contains_technical_terms;
          confidence := confidence |} in
  match attempt with
  | Ok characteristics => characteristics
  | Raise _ =>
    {| query_type := UNCLEAR;
       language := UNKNOWN;
       has_numbers := false;
       has_exact_phrases := false;
       has_question_words := false;
       word_count := Z.of_nat (length (split query));
       contains_technical_terms := false;
       confidence := 0%Q |}
  end.
End QueryAnalyzer.

(** ** routing_strategy.py *)

Definition _handle_exact_reference (query_chars : QueryCharacteristics)
    (strictness purpose : string) : RoutingDecision :=
  {| selected_mode := RetrievalMode.GRAPH_ENHANCED;
     top_k := 10;
     score_threshold := 0.2%Q;
     expand_with_neighbors := true;
     neighbor_hops := 2;
     reasoning :=
       "Detected exact reference (article/section number). " +:+
       "Using graph-enhanced mode to find the reference and surrounding context.";
     query_characteristics := query_chars;
     chat_strictness := strictness;
     chat_purpose := purpose |}.

Definition _handle_keyword_search (query_chars : QueryCharacteristics)
    (strictness purpose : string) : RoutingDecision :=
  {| selected_mode := RetrievalMode.SPARSE_ONLY;
     top_k := 15;
     score_threshold := 0.0%Q;
     expand_with_neighbors := false;
     neighbor_hops := 0;
     reasoning :=
       "Detected keyword search (short query with technical terms). " +:+
       "Using BM25 sparse search for exact keyword matching.";
     query_characteristics := query_chars;
     chat_strictness := strictness;
     chat_purpose := purpose |}.

Definition _handle_semantic_question (query_chars : QueryCharacteristics)
    (strictness purpose : string) : RoutingDecision :=
  let '(top_k, threshold) :=
    if bool_decide (strictness = "strict_docs_only")
    then (8, 0.4%Q) else (12, 0.3%Q) in
  {| selected_mode := RetrievalMode.HYBRID;
     top_k := top_k;
     score_threshold := threshold;
     expand_with_neighbors := true;
     neighbor_hops := 1;
     reasoning :=
       "Detected semantic question. " +:+
       "Using hybrid mode (dense + sparse) for best semantic understanding.";
     query_characteristics := query_chars;
     chat_strictness := strictness;
     chat_purpose := purpose |}.

Definition _handle_hybrid_query (query_chars : QueryCharacteristics)
    (strictness purpose : string) : RoutingDecision :=
  {| selected_mode := RetrievalMode.HYBRID;
     top_k := 10;
     score_threshold := 0.35%Q;
     expand_with_neighbors := false;
     neighbor_hops := 0;
     reasoning :=
       "General query with mixed characteristics. " +:+
       "Using hybrid mode (dense + sparse fusion) for balanced results.";
     query_characteristics := query_chars;
     chat_strictness := strictness;
     chat_purpose := purpose |}.

Definition _handle_unclear (query_chars : QueryCharacteristics)
    (strictness purpose : string) : RoutingDecision :=
  {| selected_mode := RetrievalMode.HYBRID;
     top_k := 10;
     score_threshold := 0.3%Q;
     expand_with_neighbors := false;
     neighbor_hops := 0;
     reasoning :=
       "Query type unclear. " +:+ "Using hybrid mode as default safe strategy.";
     query_characteristics := query_chars;
     chat_strictness := strictness;
     chat_purpose := purpose |}.

(** [chat_config] is a dictionary; [decide] reads two of its keys. *)
Definition decide (query_chars : QueryCharacteristics)
    (chat_config : gmap string string) : RoutingDecision :=
  let strictness := default "strict_docs_only" (chat_config !! "strictness") in
  let purpose := default "general" (chat_config !! "purpose") in
  match query_type query_chars with
  | EXACT_REFERENCE => _handle_exact_reference query_chars strictness purpose
  | KEYWORD_SEARCH => _handle_keyword_search query_chars strictness purpose
  | SEMANTIC_QUESTION => _handle_semantic_question query_chars strictness purpose
  | HYBRID_QUERY => _handle_hybrid_query query_chars strictness purpose
  | UNCLEAR => _handle_unclear query_chars strictness purpose
  end.

(** ** adaptive_router.py *)

Section AdaptiveRouter.
Context {U : Unicode} {E : Externals}.

(** The query of [_load_chat_config] can raise [OperationalError] or
    [MultipleResultsFound]; neither message names a failed transaction, so
    the handler of the source re-raises. *)
Definition _load_chat_config (chat_id tenant_id : UUID)
  : session (gmap string string) :=
  (rows <- select chats
             (fun chat => Chat.id chat = chat_id /\ Chat.tenant_id chat = tenant_id) ;;
   chat <- lift (scalar_one_or_none rows) ;;
   match chat with
   | None => raise ValueError
   | Some chat =>
     ret (<[ "strictness" := Chat.strictness chat ]>
            (<[ "purpose" := Chat.purpose chat ]> ∅))
   end)%session.

(** [if request.force_mode:] and [if request.force_top_k:] test the
    truth value: [None], the empty string and [0] are false. *)
Definition truthy_str (v : option string) : option string :=
  match v with
  | Some s => if bool_decide (s = "") then None else Some s
  | None => None
  end.

Definition truthy_int (v : option Z) : option Z :=
  match v with
  | Some n => if n =? 0 then None else Some n
  | None => None
  end.

Definition set_mode (decision : RoutingDecision) (mode : string) : RoutingDecision :=
  {| selected_mode := mode;
     top_k := top_k decision;
     score_threshold := score_threshold decision;
     expand_with_neighbors := expand_with_neighbors decision;
     neighbor_hops := neighbor_hops decision;
     reasoning := reasoning decision +:+ " (Manually overridden)";
     query_characteristics := query_characteristics decision;
     chat_strictness := chat_strictness decision;
     chat_purpose := chat_purpose decision |}.

Definition set_top_k (decision : RoutingDecision) (k : Z) : RoutingDecision :=
  {| selected_mode := selected_mode decision;
     top_k := k;
     score_threshold := score_threshold decision;
     expand_with_neighbors := expand_with_neighbors decision;
     neighbor_hops := neighbor_hops decision;
     reasoning := reasoning decision;
     query_characteristics := query_characteristics decision;
     chat_strictness := chat_strictness decision;
     chat_purpose := chat_purpose decision |}.

(** [request.chat_id] is the string form of the chat's UUID. *)
Definition route (request : RouterRequest) (tenant_id : UUID)
  : session RoutingDecision :=
  try_
    (let query_chars := analyze (query request) in
     chat_config <- _load_chat_config (chat_id request) tenant_id ;;
     let decision := decide query_chars chat_config in
     let decision :=
       match truthy_str (force_mode request) with
       | Some mode => set_mode decision mode
       | None => decision
       end in
     let decision :=
       match truthy_int (force_top_k request) with
       | Some k => set_top_k decision k
       | None => decision
       end in
     ret decision)%session
    (fun e => raise (RouterError e)).
End AdaptiveRouter.

End Router.

(* ===================================================================== *)
(** * services/retrieval                                                  *)
(* ===================================================================== *)

Module Retrieval.

Record RetrievalRequest : Type := {
  query : str;
  mode : string;
  top_k : Z;
  score_threshold : Q;
  expand_with_neighbors : bool;
  neighbor_hops : Z
}.

Record RetrievedContext : Type := {
  ctx_atomic_unit_id : UUID;
  ctx_text : str;
  ctx_score : Q;
  ctx_source : string;
  ctx_document_id : UUID;
  ctx_unit_type : string;
  ctx_sequence : Z;
  ctx_page_number : option Z;
  ctx_section_title : option string;
  ctx_dense_score : option Q;
  ctx_sparse_score : option Q;
  ctx_graph_distance : option Z
}.

(** The value under ["metadata"] of a result: the index entry (sparse),
    the payload of the vector store (dense) or the graph node (graph). *)
Inductive result_metadata : Type :=
| IndexEntry (entry : DocMetadata.t)
| Payload (payload : gmap string string)
| Node (n : GraphNode.t).

(** The dictionaries the retrievers exchange.  No retriever sets the
    keys ["dense_score"] and ["sparse_score"]. *)
Record result : Type := {
  atomic_unit_id : UUID;
  score : Q;
  source : string;
  metadata : result_metadata;
  graph_distance : option Z
}.

(** ** fusion.py *)

Record ReciprocalRankFusion : Type := { k : Z }.

(** [ReciprocalRankFusion()] *)
Definition default_fusion : ReciprocalRankFusion := {| k := 60 |}.

(** [a / b] on floats. *)
Definition divide (a b : Q) : except Q :=
  if Qeq_bool b 0 then Raise ZeroDivisionError else Ok (a / b)%Q.

(** [sum(weights)] *)
Definition sum (weights : list Q) : Q := foldl Qplus 0%Q weights.

(** The state of the two dictionaries [rrf_scores] and [item_data]. *)
Definition fusion_state : Type := dict UUID Q * dict UUID result.

(** The body of the inner loop of [fuse]. *)
Definition fuse_item (self : ReciprocalRankFusion) (weight : Q)
    (state : fusion_state) (entry : Z * result) : except fusion_state :=
  let '(rrf_scores, item_data) := state in
  let '(rank, item) := entry in
  let item_id := atomic_unit_id item in
  rrf_score ← divide weight (inject_Z (k self + rank));
  let rrf_scores :=
    dict_set rrf_scores item_id
             (default 0%Q (dict_get rrf_scores item_id) + rrf_score)%Q in
  let item_data :=
    match dict_get item_data item_id with
    | Some _ => item_data
    | None => dict_set item_data item_id item
    end in
  Ok (rrf_scores, item_data).

(** A [for] loop whose body may raise. *)
Fixpoint for_each {S A} (body : S -> A -> except S) (state : S) (items : list A)
  : except S :=
  match items with
  | [] => Ok state
  | x :: rest => state' ← body state x; for_each body state' rest
  end.

(** The body of the outer loop of [fuse]. *)
Definition fuse_list (self : ReciprocalRankFusion) (weights : list Q)
    (state : fusion_state) (entry : nat * list result) : except fusion_state :=
  let '(list_idx, ranked_list) := entry in
  weight ← item weights list_idx;
  for_each (fuse_item self weight) state (enumerate1 ranked_list).

Definition fused_result (item_data : dict UUID result) (entry : UUID * Q)
  : except result :=
  match dict_get item_data entry.1 with
  | Some item =>
    Ok {| atomic_unit_id := atomic_unit_id item;
          score := entry.2;
          source := "fusion";
          metadata := metadata item;
          graph_distance := graph_distance item |}
  | None => Raise IndexError
  end.

Definition fuse (self : ReciprocalRankFusion) (ranked_lists : list (list result))
    (weights : option (list Q)) : except (list result) :=
  match ranked_lists with
  | [] => Ok []
  | _ =>
    let weights := default (replicate (length ranked_lists) 1%Q) weights in
    let weight_sum := sum weights in
    weights ← mapM (fun w => divide w weight_sum) weights;
    '(rrf_scores, item_data) ←
      for_each (fuse_list self weights) ([], [])
               (zip (range (length ranked_lists)) ranked_lists);
    mapM (fused_result item_data) (sorted_desc snd rrf_scores)
  end.

Section Retrievers.
Context {U : Unicode} {E : Externals}.

(** ** dense_retriever.py *)

Definition dense_retrieve (chat_id tenant_id : UUID) (query : str) (top_k : Z)
    (score_threshold : Q) : session (list result) :=
  try_
    (results <- lift (vector_search chat_id tenant_id query top_k score_threshold) ;;
     ret ((fun r : string * Q * gmap string string =>
             {| atomic_unit_id := r.1.1;
                score := r.1.2;
                source := "dense";
                metadata := Payload r.2;
                graph_distance := None |}) <$> results))%session
    (fun _ => ret []).

(** ** sparse_retriever.py *)

Definition sparse_retrieve (tokenizer : Tokenizer.MultilingualTokenizer)
    (chat_id tenant_id : UUID) (query : str) (top_k : Z) : session (list result) :=
  try_
    (results <- BM25.search tokenizer chat_id tenant_id query top_k ;;
     ret ((fun r : BM25.hit =>
             {| atomic_unit_id := BM25.atomic_unit_id r;
                score := BM25.score r;
                source := "sparse";
                metadata := IndexEntry (BM25.metadata r);
                graph_distance := None |}) <$> results))%session
    (fun _ => ret []).

(** ** hybrid_retriever.py *)

Definition _dense_only := dense_retrieve.

Definition _sparse_only := sparse_retrieve.

Definition _hybrid (tokenizer : Tokenizer.MultilingualTokenizer)
    (chat_id tenant_id : UUID) (query : str) (top_k : Z) (score_threshold : Q)
  : session (list result) :=
  (dense_results <- dense_retrieve chat_id tenant_id query (top_k * 2) score_threshold ;;
   sparse_results <- sparse_retrieve tokenizer chat_id tenant_id query (top_k * 2) ;;
   fused <- lift (fuse default_fusion [dense_results; sparse_results]
                       (Some [0.6%Q; 0.4%Q])) ;;
   ret (slice_to top_k fused))%session.

(** The variables [_expand_with_neighbors] updates. *)
Definition expansion : Type := list result * gset string.

(** The loop over the neighbours of one result. *)
Definition add_neighbors (parent : result) (state : expansion)
    (found : list GraphService.neighbor) : expansion :=
  foldl
    (fun (state : expansion) (nb : GraphService.neighbor) =>
       let '(expanded, seen_ids) := state in
       let neighbor_id := GraphNode.node_id (GraphService.node nb) in
       if bool_decide (neighbor_id ∈ seen_ids) then state
       else
         let distance_penalty := (0.8 ^ GraphService.distance nb)%Q in
         let neighbor_score := (score parent * distance_penalty)%Q in
         (expanded ++ [{| atomic_unit_id := neighbor_id;
                          score := neighbor_score;
                          source := "graph";
                          metadata := Node (GraphService.node nb);
                          graph_distance := Some (GraphService.distance nb) |}],
          seen_ids ∪ {[ neighbor_id ]}))
    state found.

(** The loop over the results. *)
Fixpoint expand_results (chat_id tenant_id : UUID) (hops : Z)
    (state : expansion) (results : list result) : session expansion :=
  match results with
  | [] => ret state
  | r :: rest =>
    let '(expanded, seen_ids) := state in
    let node_id := atomic_unit_id r in
    let state :=
      if bool_decide (node_id ∈ seen_ids) then state
      else (expanded ++ [r], seen_ids ∪ {[ node_id ]}) in
    (state <- try_
                (found <- GraphService.get_neighbors chat_id tenant_id node_id
                                                     None hops ;;
                 ret (add_neighbors r state found))
                (fun _ => ret state) ;;
     expand_results chat_id tenant_id hops state rest)%session
  end.

Definition _expand_with_neighbors (chat_id tenant_id : UUID)
    (results : list result) (hops : Z) : session (list result) :=
  (state <- expand_results chat_id tenant_id hops ([], ∅) results ;;
   ret (sorted_desc score state.1))%session.

Definition _graph_enhanced (tokenizer : Tokenizer.MultilingualTokenizer)
    (chat_id tenant_id : UUID) (request : RetrievalRequest) (score_threshold : Q)
  : session (list result) :=
  (hybrid_results <- _hybrid tokenizer chat_id tenant_id (query request)
                             (top_k request) score_threshold ;;
   _expand_with_neighbors chat_id tenant_id hybrid_results
                          (neighbor_hops request))%session.

(** [{str(u.id): u for u in db_results.scalars().all()}] *)
Definition units_by_id (rows : list AtomicUnit.t) : gmap string AtomicUnit.t :=
  foldl (fun units u => <[ AtomicUnit.id u := u ]> units) ∅ rows.

Definition context_of (r : result) (unit : AtomicUnit.t) : RetrievedContext :=
  {| ctx_atomic_unit_id := atomic_unit_id r;
     ctx_text := AtomicUnit.text unit;
     ctx_score := score r;
     ctx_source := source r;
     ctx_document_id := AtomicUnit.document_id unit;
     ctx_unit_type := AtomicUnit.unit_type unit;
     ctx_sequence := AtomicUnit.sequence unit;
     ctx_page_number := AtomicUnit.page_number unit;
     ctx_section_title := AtomicUnit.section_title unit;
     ctx_dense_score := None;
     ctx_sparse_score := None;
     ctx_graph_distance := graph_distance r |}.

Definition _enrich_results (results : list result) : session (list RetrievedContext) :=
  match results with
  | [] => ret []
  | _ =>
    try_
      (let unit_ids := atomic_unit_id <$> results in
       rows <- select atomic_units (fun u => AtomicUnit.id u ∈ unit_ids) ;;
       let units := units_by_id rows in
       ret (omap (fun r => context_of r <$> units !! atomic_unit_id r) results))%session
      (fun _ => ret [])
  end.

Definition retrieve (tokenizer : Tokenizer.MultilingualTokenizer)
    (chat_id tenant_id : UUID) (request : RetrievalRequest)
  : session (list RetrievedContext) :=
  try_
    (results <-
       (if bool_decide (mode request = RetrievalMode.DENSE_ONLY) then
          _dense_only chat_id tenant_id (query request) (top_k request)
                      (score_threshold request)
        else if bool_decide (mode request = RetrievalMode.SPARSE_ONLY) then
          _sparse_only tokenizer chat_id tenant_id (query request) (top_k request)
        else if bool_decide (mode request = RetrievalMode.HYBRID) then
          _hybrid tokenizer chat_id tenant_id (query request) (top_k request)
                  (score_threshold request)
        else if bool_decide (mode request = RetrievalMode.GRAPH_ENHANCED) then
          _graph_enhanced tokenizer chat_id tenant_id request
                          (score_threshold request)
        else raise InvalidRetrievalModeError) ;;
     results <-
       (if expand_with_neighbors request
           && negb (bool_decide (mode request = RetrievalMode.GRAPH_ENHANCED))
        then _expand_with_neighbors chat_id tenant_id results
                                    (neighbor_hops request)
        else ret results) ;;
     contexts <- _enrich_results results ;;
     let contexts :=
       filter (fun c => Qle_bool (score_threshold request) (ctx_score c) = true)
              contexts in
     ret (slice_to (top_k request) contexts))%session
    (fun e => (_ <- rollback ;; raise (RetrievalError e))%session).
End Retrievers.

End Retrieval.

(* ===================================================================== *)
(** * api/v1/answer.py                                                    *)
(* ===================================================================== *)

Module Answer.
Section Answer.
Context {U : Unicode} {E : Externals}.

(** [RetrievalMode(value)]: [ValueError] for a string that is no member
    of the enumeration. *)
Definition retrieval_mode (value : string) : except string :=
  if bool_decide (value ∈ [RetrievalMode.DENSE_ONLY; RetrievalMode.SPARSE_ONLY;
                           RetrievalMode.HYBRID; RetrievalMode.GRAPH_ENHANCED])
  then Ok value else Raise ValueError.

(** [RetrievalRequest(...)]: pydantic checks the constraints of the
    fields of [schemas/retrieval.py]; its [ValidationError] is a
    [ValueError]. *)
Definition retrieval_request (query : str) (mode : string) (top_k : Z)
    (score_threshold : Q) (expand_with_neighbors : bool) (neighbor_hops : Z)
  : except Retrieval.RetrievalRequest :=
  if bool_decide (1 <= length query)%nat
     && (1 <=? top_k) && (top_k <=? 50)
     && Qle_bool 0 score_threshold && Qle_bool score_threshold 1
     && (0 <=? neighbor_hops) && (neighbor_hops <=? 2)
  then Ok {| Retrieval.query := query;
             Retrieval.mode := mode;
             Retrieval.top_k := top_k;
             Retrieval.score_threshold := score_threshold;
             Retrieval.expand_with_neighbors := expand_with_neighbors;
             Retrieval.neighbor_hops := neighbor_hops |}
  else Raise ValueError.

(** [RouterRequest(query=..., chat_id=...)]: the query has at least one
    character. *)
Definition router_request (query : str) (chat_id : UUID)
  : except Router.RouterRequest :=
  if bool_decide (1 <= length query)%nat
  then Ok {| Router.query := query; Router.chat_id := chat_id;
             Router.force_mode := None; Router.force_top_k := None |}
  else Raise ValueError.

(** Steps 1 and 2 of [generate_answer]: the routing of the query and the
    retrieval of the contexts that are handed to the answer generator.
    The tokenizer is [MultilingualTokenizer()]. *)
Definition generate_answer_contexts (chat_id tenant_id : UUID) (query : str)
  : session (list Retrieval.RetrievedContext) :=
  (request <- lift (router_request query chat_id) ;;
   routing_decision <- Router.route request tenant_id ;;
   mode <- lift (retrieval_mode (Router.selected_mode routing_decision)) ;;
   retrieval_request <-
     lift (retrieval_request query mode
             (Router.top_k routing_decision)
             (Router.score_threshold routing_decision)
             (Router.expand_with_neighbors routing_decision)
             (Router.neighbor_hops routing_decision)) ;;
   Retrieval.retrieve (Tokenizer.init true) chat_id tenant_id retrieval_request)%session.
End Answer.
End Answer.

(* ===================================================================== *)
(** * A small world to run the services in                                *)
(* ===================================================================== *)

Module Scenario.

(** A stand-in for the external collaborators: no NLTK stop words,
    English detected for every query, a document scored by the number of
    its tokens that occur in the query, and a vector store without
    points. *)
Definition overlap_scores (corpus : list (list str)) (query_tokens : list str)
  : except (list Q) :=
  Ok ((fun doc => inject_Z (Z.of_nat (length (filter (fun t => t ∈ query_tokens) doc))))
        <$> corpus).

Definition externals : Externals := {|
  nltk_stopwords := fun _ => [];
  detect := fun _ => Ok "en"%string;
  okapi_scores := overlap_scores;
  vector_search := fun _ _ _ _ _ => Ok []
|}.

(** A database server that sorts the rows with a merge sort. *)
Definition merge_order : OrderBy :=
  fun A key rows =>
    merge_sort (H := fun a b => decide (key a <= key b))
               (fun a b => key a <= key b) rows.

Definition unit_of (tenant chat document unit : string) (text : string)
    (sequence level : Z) : AtomicUnit.t :=
  {| AtomicUnit.id := unit;
     AtomicUnit.tenant_id := tenant;
     AtomicUnit.document_id := document;
     AtomicUnit.chat_id := chat;
     AtomicUnit.unit_type := "paragraph";
     AtomicUnit.text := py text;
     AtomicUnit.sequence := sequence;
     AtomicUnit.level := level;
     AtomicUnit.page_number := None;
     AtomicUnit.section_title := None |}.

Definition entry_of (u : AtomicUnit.t) : DocMetadata.t :=
  {| DocMetadata.document_id := AtomicUnit.document_id u;
     DocMetadata.unit_type := AtomicUnit.unit_type u;
     DocMetadata.sequence := AtomicUnit.sequence u;
     DocMetadata.page_number := AtomicUnit.page_number u;
     DocMetadata.section_title := AtomicUnit.section_title u |}.

(** Tenant [acme] owns the chat [chat-a] with three units of one
    document; tenant [globex] owns the chat [chat-g] with one unit. *)
Definition a0 := unit_of "acme" "chat-a" "doc-a" "a0" "Article 27 states X" 0 0.
Definition a1 := unit_of "acme" "chat-a" "doc-a" "a1" "Payment terms" 1 1.
Definition a2 := unit_of "acme" "chat-a" "doc-a" "a2" "See Article 27" 2 1.
Definition g0 := unit_of "globex" "chat-g" "doc-g" "g0" "Article 27 of the merger" 0 0.

Definition tokenizer : Tokenizer.MultilingualTokenizer :=
  Tokenizer.init (E := externals) true.

Definition index_of (tenant chat : string) (units : list AtomicUnit.t) : BM25Index.t :=
  let corpus := (fun u => Tokenizer.tokenize tokenizer (AtomicUnit.text u)) <$> units in
  {| BM25Index.tenant_id := tenant;
     BM25Index.chat_id := chat;
     BM25Index.corpus_tokens := corpus;
     BM25Index.doc_ids := AtomicUnit.id <$> units;
     BM25Index.doc_metadata := entry_of <$> units;
     BM25Index.document_count := Z.of_nat (length units);
     BM25Index.total_tokens := Z.of_nat (length (concat corpus)) |}.

Definition graph_of (tenant chat : string) (units : list AtomicUnit.t)
  : DocumentGraph.t :=
  {| DocumentGraph.tenant_id := tenant;
     DocumentGraph.chat_id := chat;
     DocumentGraph.nodes := GraphBuilder._create_nodes units;
     DocumentGraph.edges :=
       GraphBuilder._create_hierarchy_edges units
         ++ GraphBuilder._create_sequence_edges units |}.

Definition chat_a : Chat.t :=
  {| Chat.id := "chat-a"; Chat.tenant_id := "acme";
     Chat.strictness := "strict_docs_only"; Chat.purpose := "legal" |}.

(** Every collection indexed from its own units. *)
Definition db : DB :=
  {| atomic_units := [a0; a1; a2; g0];
     bm25_indexes := [index_of "acme" "chat-a" [a0; a1; a2];
                      index_of "globex" "chat-g" [g0]];
     document_graphs := [graph_of "acme" "chat-a" [a0; a1; a2]];
     chats := [chat_a];
     available := true;
     rollbacks := 0 |}.

(** The units are stored and nothing is indexed yet. *)
Definition db_without_indexes : DB :=
  {| atomic_units := [a0; a1; a2; g0];
     bm25_indexes := [];
     document_graphs := [];
     chats := [chat_a];
     available := true;
     rollbacks := 0 |}.


Definition sparse_request (query : string) : Retrieval.RetrievalRequest :=
  {| Retrieval.query := py query;
     Retrieval.mode := RetrievalMode.SPARSE_ONLY;
     Retrieval.top_k := 10;
     Retrieval.score_threshold := 0.3%Q;
     Retrieval.expand_with_neighbors := false;
     Retrieval.neighbor_hops := 1 |}.

End Scenario.

(* ===================================================================== *)
(** * Properties                                                          *)
(* ===================================================================== *)

Module SortFacts.
Section SortFacts.
Context {A : Type} (key : A -> Q) (before : A -> A -> Prop).

(** [a] is ranked above [b]: a larger key, or an equal key and an earlier
    place in the input. *)
Definition ranks_above (a b : A) : Prop :=
  (key b < key a)%Q \/ ((key a == key b)%Q /\ before a b).

Lemma elem_of_insert_desc x y l :
  y ∈ insert_desc key x l <-> y = x \/ y ∈ l.
Proof.
  induction l as [|z l IH]; simpl.
  - rewrite list_elem_of_singleton. set_solver.
  - destruct (Qle_bool (key z) (key x)).
    + rewrite !elem_of_cons. tauto.
    + rewrite !elem_of_cons, IH. tauto.
Qed.

Lemma insert_desc_Permutation x l : insert_desc key x l ≡ₚ x :: l.
Proof.
  induction l as [|z l IH]; simpl; [done|].
  destruct (Qle_bool (key z) (key x)); [done|].
  rewrite IH. apply perm_swap.
Qed.

Lemma sorted_desc_Permutation l : sorted_desc key l ≡ₚ l.
Proof.
  induction l as [|x l IH]; simpl; [done|].
  rewrite insert_desc_Permutation. by rewrite IH.
Qed.

Lemma ranks_above_key a b : ranks_above a b -> (key b <= key a)%Q.
Proof.
  intros [Hlt|[Heq _]]; [by apply Qlt_le_weak|].
  rewrite Heq. apply Qle_refl.
Qed.

Lemma insert_desc_sorted x l :
  Forall (before x) l ->
  StronglySorted ranks_above l ->
  StronglySorted ranks_above (insert_desc key x l).
Proof.
  induction l as [|z l IH]; intros Hbefore Hsorted; simpl.
  - repeat constructor.
  - apply StronglySorted_cons in Hsorted as [Hz Hl].
    apply Forall_cons in Hbefore as [Hxz Hxl].
    destruct (Qle_bool (key z) (key x)) eqn:Hle.
    + apply Qle_bool_iff in Hle.
      assert (Hup : forall w, (key w <= key z)%Q -> before x w -> ranks_above x w).
      { intros w Hw Hxw.
        destruct (Qle_lt_or_eq _ _ (Qle_trans _ _ _ Hw Hle)) as [Hlt|Heq].
        - by left.
        - right. split; [by symmetry|done]. }
      apply StronglySorted_cons. split.
      * apply Forall_cons. split; [apply Hup; [apply Qle_refl|done]|].
        rewrite Forall_forall in Hz, Hxl |- *. intros w Hw.
        apply Hup; [apply ranks_above_key; auto|auto].
      * apply StronglySorted_cons. done.
    + apply StronglySorted_cons. split; [|by apply IH].
      rewrite Forall_forall in Hz |- *. intros w Hw.
      apply elem_of_insert_desc in Hw as [->|Hw]; [|by apply Hz].
      left. apply Qnot_le_lt. rewrite <- Qle_bool_iff, Hle. done.
Qed.

Lemma sorted_desc_sorted l :
  StronglySorted before l -> StronglySorted ranks_above (sorted_desc key l).
Proof.
  induction 1 as [|x l Hl IH Hx]; simpl; [constructor|].
  apply insert_desc_sorted; [|done].
  rewrite Forall_forall in Hx |- *. intros w Hw. apply Hx.
  by rewrite <- (sorted_desc_Permutation l).
Qed.
End SortFacts.
End SortFacts.

Module BM25Facts.
Import SortFacts.
Section BM25Facts.
Context {U : Unicode} {E : Externals}.

(** The hit [search] formats for the corpus position [i]. *)
Definition hit_at (index : BM25Index.t) (scores : list Q)
    (h : BM25.hit) (i : nat) : Prop :=
  BM25Index.doc_ids index !! i = Some (BM25.atomic_unit_id h)
  /\ BM25Index.doc_metadata index !! i = Some (BM25.metadata h)
  /\ BM25.score h = BM25.score_at scores i.




Lemma slice_to_nonneg {A} k (l : list A) :
  0 <= k -> slice_to k l = take (Z.to_nat k) l.
Proof. intros Hk. unfold slice_to. by rewrite (proj2 (Z.leb_le 0 k)). Qed.



Lemma StronglySorted_lookup {A} (R : A -> A -> Prop) l p q a b :
  StronglySorted R l -> (p < q)%nat -> l !! p = Some a -> l !! q = Some b -> R a b.
Proof.
  intros Hl Hpq Hp Hq.
  rewrite <- (take_drop_middle l p a Hp) in Hl, Hq.
  apply StronglySorted_app_1_r, StronglySorted_cons in Hl as [Ha _].
  rewrite Forall_forall in Ha. apply Ha.
  assert (Hlen : length (take p l) = p).
  { apply length_take_le. apply lookup_lt_Some in Hp. lia. }
  rewrite lookup_app_r in Hq by lia. rewrite Hlen in Hq.
  destruct (q - p)%nat as [|d] eqn:Hd; [lia|].
  simpl in Hq. by eapply list_elem_of_lookup_2.
Qed.

End BM25Facts.
End BM25Facts.

Module GraphBuilderFacts.
Import GraphBuilder.

(** [source -> target] is an edge of the list. *)
Definition edge_rel (edges : list GraphEdge.t) (source target : string) : Prop :=
  exists e, e ∈ edges /\ GraphEdge.source_id e = source
            /\ GraphEdge.target_id e = target.

(** The level of the unit with the given id. *)
Definition level_of (units : list AtomicUnit.t) (unit_id : string) : Z :=
  default 0 ((fun found => AtomicUnit.level found.2) <$>
               list_find (fun u => AtomicUnit.id u = unit_id) units).

(** A CONTAINS edge from a unit of [units] to a deeper unit of [units]. *)
Definition contains_down (units : list AtomicUnit.t) (e : GraphEdge.t) : Prop :=
  GraphEdge.edge_type e = EdgeType.CONTAINS
  /\ exists parent child,
       parent ∈ units /\ child ∈ units
       /\ GraphEdge.source_id e = AtomicUnit.id parent
       /\ GraphEdge.target_id e = AtomicUnit.id child
       /\ AtomicUnit.level parent < AtomicUnit.level child.

(** What holds of the edges and the stack after the units [processed]. *)
Definition hierarchy_inv (processed : list AtomicUnit.t)
    (state : list GraphEdge.t * parent_stack) : Prop :=
  Forall (fun entry => exists u, u ∈ processed /\ AtomicUnit.level u = entry.1
                                 /\ AtomicUnit.id u = entry.2) state.2
  /\ Forall (contains_down processed) state.1
  /\ (GraphEdge.target_id <$> state.1) `sublist_of` (AtomicUnit.id <$> processed).

Lemma pop_parents_spec level stack :
  pop_parents level stack `suffix_of` stack
  /\ match pop_parents level stack with
     | [] => True
     | (parent_level, _) :: _ => parent_level < level
     end.
Proof.
  induction stack as [|[l i] stack [IH1 IH2]]; simpl; [done|].
  destruct (l >=? level) eqn:Hl.
  - split; [by apply suffix_cons_r|done].
  - split; [done|]. simpl. lia.
Qed.

Lemma contains_down_mono units units' e :
  units ⊆ units' -> contains_down units e -> contains_down units' e.
Proof.
  intros Hsub [Ht (p & c & Hp & Hc & H)]. split; [done|].
  exists p, c. split; [by apply Hsub|]. split; [by apply Hsub|done].
Qed.

Lemma hierarchy_step_inv processed state unit :
  hierarchy_inv processed state ->
  hierarchy_inv (processed ++ [unit]) (hierarchy_step state unit).
Proof.
  destruct state as [edges stack]. intros (Hstack & Hedges & Htargets).
  simpl in *. unfold hierarchy_step.
  destruct (pop_parents_spec (AtomicUnit.level unit) stack) as [Hsuffix Htop].
  assert (Hpopped : Forall (fun entry => exists u, u ∈ processed ++ [unit]
                      /\ AtomicUnit.level u = entry.1 /\ AtomicUnit.id u = entry.2)
                      (pop_parents (AtomicUnit.level unit) stack)).
  { destruct Hsuffix as [dropped Hsuffix]. rewrite Hsuffix in Hstack.
    apply Forall_app in Hstack as [_ Hstack].
    eapply Forall_impl; [exact Hstack|].
    intros entry (u & Hu & H). exists u. split; [|done].
    apply elem_of_app. by left. }
  assert (Hmono : Forall (contains_down (processed ++ [unit])) edges).
  { eapply Forall_impl; [exact Hedges|]. intros e.
    apply contains_down_mono. intros u Hu. apply elem_of_app. by left. }
  assert (Hself : unit ∈ processed ++ [unit]).
  { apply elem_of_app. right. by apply list_elem_of_singleton. }
  destruct (pop_parents (AtomicUnit.level unit) stack) as [|[pl pi] below] eqn:Hpop;
    simpl; (split; [|split]).
  - repeat constructor. by exists unit.
  - done.
  - rewrite fmap_app. by apply sublist_inserts_r.
  - constructor; [by exists unit|done].
  - apply Forall_app. split; [done|].
    constructor; [|constructor]. split; [done|].
    apply Forall_cons in Hpopped as [(p & Hp & Hpl & Hpi) _]. simpl in *.
    exists p, unit. repeat split; try done. lia.
  - cbv [fst]. rewrite !fmap_app. by apply sublist_app.
Qed.

Lemma hierarchy_fold_inv units processed state :
  hierarchy_inv processed state ->
  hierarchy_inv (processed ++ units) (foldl hierarchy_step state units).
Proof.
  revert processed state.
  induction units as [|u units IH]; intros processed state Hinv; simpl.
  - by rewrite app_nil_r.
  - rewrite (cons_middle u processed units), app_assoc.
    apply IH. by apply hierarchy_step_inv.
Qed.

Lemma level_of_unit units u :
  NoDup (AtomicUnit.id <$> units) -> u ∈ units ->
  level_of units (AtomicUnit.id u) = AtomicUnit.level u.
Proof.
  intros Hnodup Hu. unfold level_of.
  destruct (list_find (fun v => AtomicUnit.id v = AtomicUnit.id u) units)
    as [[i v]|] eqn:Hfind.
  - apply list_find_Some in Hfind as (Hi & Hid & _). simpl.
    apply list_elem_of_lookup in Hu as [j Hj].
    assert (i = j) as ->.
    { eapply NoDup_lookup; [exact Hnodup| |];
        rewrite list_lookup_fmap; [by rewrite Hi|by rewrite Hj, Hid]. }
    congruence.
  - apply list_find_None in Hfind. rewrite Forall_forall in Hfind.
    by destruct (Hfind u Hu).
Qed.

(** C5: every CONTAINS edge the builder makes goes from a unit to a
    unit of strictly greater level, no unit is the target of two CONTAINS
    edges, and no unit is reachable from itself along CONTAINS edges.  The
    units are rows of [atomic_units], whose [id] is the primary key; the
    order of the units plays no part. *)
Theorem contains_edges_forest (units : list AtomicUnit.t) :
  NoDup (AtomicUnit.id <$> units) ->
  let edges := _create_hierarchy_edges units in
  Forall (contains_down units) edges
  /\ (forall e, e ∈ edges ->
        level_of units (GraphEdge.source_id e) < level_of units (GraphEdge.target_id e))
  /\ NoDup (GraphEdge.target_id <$> edges)
  /\ (forall x, ~ tc (edge_rel edges) x x).
Proof.
  intros Hnodup edges.
  destruct (hierarchy_fold_inv units [] ([], [])) as (_ & Hedges & Htargets).
  { split; [constructor|]. split; [constructor|]. simpl. constructor. }
  simpl in Hedges, Htargets. fold edges in Hedges, Htargets.
  assert (Hlevel : forall e, e ∈ edges ->
            level_of units (GraphEdge.source_id e)
            < level_of units (GraphEdge.target_id e)).
  { intros e He. rewrite Forall_forall in Hedges.
    destruct (Hedges e He) as [_ (p & c & Hp & Hc & -> & -> & Hlt)].
    by rewrite !level_of_unit. }
  split; [done|]. split; [done|]. split.
  - by eapply sublist_NoDup.
  - intros x Hcycle.
    assert (Hup : forall a b, tc (edge_rel edges) a b ->
              level_of units a < level_of units b).
    { induction 1 as [a b (e & He & <- & <-)|a b c (e & He & <- & <-) _ IH].
      - by apply Hlevel.
      - specialize (Hlevel e He). lia. }
    specialize (Hup x x Hcycle). lia.
Qed.
End GraphBuilderFacts.

Module GraphServiceFacts.
Import GraphService.

Section Traversal.
Variables (graph : DocumentGraph.t) (edge_type : option string) (start : string).

(** One hop: an edge of the graph that passes the type filter. *)
Definition hop_rel (a b : string) : Prop :=
  exists e, e ∈ DocumentGraph.edges graph
            /\ GraphEdge.source_id e = a /\ GraphEdge.target_id e = b
            /\ type_matches edge_type e = true.

(** [x] is [d] hops from the start node and no fewer. *)
Definition first_reached (d : nat) (x : string) : Prop :=
  nsteps hop_rel d start x /\ forall m, (m < d)%nat -> ~ nsteps hop_rel m start x.

Definition within_hops (r : nat) (x : string) : Prop :=
  exists m, (m <= r)%nat /\ nsteps hop_rel m start x.

(** What [get_neighbors] promises of a returned entry, after [r] rounds. *)
Definition discovered (r : nat) (nb : neighbor) : Prop :=
  let target := GraphEdge.target_id (edge nb) in
  target <> start
  /\ DocumentGraph.nodes graph !! target = Some (node nb)
  /\ exists d, distance nb = Z.of_nat d /\ (1 <= d <= r)%nat /\ first_reached d target.

Definition targets (found : list neighbor) : list string :=
  (fun nb => GraphEdge.target_id (edge nb)) <$> found.

(** The state of a round [r + 1] in progress, where [ball] was the
    visited set when the round began. *)
Record round_inv (r : nat) (ball : gset string) (t : traversal) : Prop := {
  inv_visited : ball ⊆ visited t;
  inv_fresh : forall x, x ∈ visited t -> x ∈ ball \/ x ∈ next_layer t;
  inv_layer : forall x, x ∈ next_layer t ->
                x ∉ ball /\ x ∈ visited t /\ nsteps hop_rel (S r) start x;
  inv_found : Forall (discovered (S r)) (neighbors t);
  inv_targets : forall x, x ∈ targets (neighbors t) -> x ∈ visited t;
  inv_nodup : NoDup (targets (neighbors t))
}.

Lemma discovered_mono r r' nb : (r <= r')%nat -> discovered r nb -> discovered r' nb.
Proof.
  intros Hr (Hne & Hnode & d & Hd & Hbound & Hfirst).
  split; [done|]. split; [done|]. exists d. split; [done|]. split; [lia|done].
Qed.

Lemma visit_edge_visited hop current t e :
  visited t ⊆ visited (visit_edge graph edge_type hop current t e).
Proof.
  unfold visit_edge.
  destruct (bool_decide (GraphEdge.source_id e = current) && type_matches edge_type e);
    [|done].
  case_bool_decide; [done|]. simpl. set_solver.
Qed.

Lemma visit_edge_covers hop current t e :
  GraphEdge.source_id e = current -> type_matches edge_type e = true ->
  GraphEdge.target_id e ∈ visited (visit_edge graph edge_type hop current t e).
Proof.
  intros Hsrc Hty. unfold visit_edge.
  rewrite bool_decide_eq_true_2, Hty by done. simpl.
  case_bool_decide; [done|]. simpl. set_solver.
Qed.

Lemma visit_edges_visited hop current es t :
  visited t ⊆ visited (foldl (visit_edge graph edge_type hop current) t es).
Proof.
  revert t. induction es as [|e es IH]; intros t; simpl; [done|].
  etrans; [apply visit_edge_visited|apply IH].
Qed.

Lemma visit_edges_covers hop current es t e :
  e ∈ es -> GraphEdge.source_id e = current -> type_matches edge_type e = true ->
  GraphEdge.target_id e ∈ visited (foldl (visit_edge graph edge_type hop current) t es).
Proof.
  revert t. induction es as [|e' es IH]; intros t He Hsrc Hty; simpl.
  - by apply elem_of_nil in He.
  - apply elem_of_cons in He as [->|He]; [|by apply IH].
    apply visit_edges_visited. by apply visit_edge_covers.
Qed.

Lemma visit_layer_visited hop layer t :
  visited t ⊆ visited (visit_layer graph edge_type hop t layer).
Proof.
  unfold visit_layer. revert t.
  induction layer as [|c layer IH]; intros t; simpl; [done|].
  etrans; [apply visit_edges_visited|apply IH].
Qed.

Lemma visit_layer_covers hop layer t a b :
  a ∈ layer -> hop_rel a b ->
  b ∈ visited (visit_layer graph edge_type hop t layer).
Proof.
  unfold visit_layer. revert t.
  induction layer as [|c layer IH]; intros t Ha Hab; simpl.
  - by apply elem_of_nil in Ha.
  - apply elem_of_cons in Ha as [->|Ha]; [|by apply IH].
    destruct Hab as (e & He & Hsrc & <- & Hty).
    apply (visit_layer_visited hop layer). by apply visit_edges_covers.
Qed.

Section Round.
Variables (r : nat) (ball : gset string).
Hypothesis ball_spec : forall x, x ∈ ball <-> within_hops r x.

Lemma visit_edge_inv current t e :
  nsteps hop_rel r start current -> e ∈ DocumentGraph.edges graph ->
  round_inv r ball t ->
  round_inv r ball (visit_edge graph edge_type (Z.of_nat r) current t e).
Proof.
  intros Hcur He Hinv. unfold visit_edge.
  destruct (bool_decide (GraphEdge.source_id e = current)) eqn:Hsrc; [|done].
  destruct (type_matches edge_type e) eqn:Hty; [|done]. simpl.
  apply bool_decide_eq_true in Hsrc.
  case_bool_decide as Hseen; [done|].
  destruct Hinv as [Hv Hf Hl Hn Ht Hd].
  assert (Hnew : GraphEdge.target_id e ∉ ball) by set_solver.
  assert (Hpath : nsteps hop_rel (S r) start (GraphEdge.target_id e)).
  { eapply nsteps_r; [exact Hcur|]. by exists e. }
  assert (Hne : GraphEdge.target_id e <> start).
  { intros Heq. apply Hnew, ball_spec. exists 0%nat. split; [lia|].
    rewrite Heq. constructor. }
  assert (Hmin : forall m, (m < S r)%nat ->
            ~ nsteps hop_rel m start (GraphEdge.target_id e)).
  { intros m Hm Hsteps. apply Hnew, ball_spec. exists m. split; [lia|done]. }
  split; simpl.
  - set_solver.
  - intros x [Hx|Hx%elem_of_singleton]%elem_of_union.
    + destruct (Hf x Hx); [by left|]. right. apply elem_of_app. by left.
    + right. apply elem_of_app. right. by apply list_elem_of_singleton.
  - intros x [Hx|Hx%list_elem_of_singleton]%elem_of_app.
    + destruct (Hl x Hx) as (? & ? & ?). split; [done|]. split; [set_solver|done].
    + subst x. split; [done|]. split; [set_solver|done].
  - destruct (DocumentGraph.nodes graph !! GraphEdge.target_id e) eqn:Hnode;
      [|done].
    apply Forall_app. split; [done|]. constructor; [|constructor].
    split; [done|]. split; [done|]. simpl.
    exists (S r). split; [lia|]. split; [lia|]. by split.
  - destruct (DocumentGraph.nodes graph !! GraphEdge.target_id e);
      [|intros x Hx; apply elem_of_union; left; by apply Ht].
    unfold targets. rewrite fmap_app. simpl.
    intros x [Hx|Hx%list_elem_of_singleton]%elem_of_app; [|set_solver].
    apply elem_of_union. left. by apply Ht.
  - destruct (DocumentGraph.nodes graph !! GraphEdge.target_id e); [|done].
    unfold targets. rewrite fmap_app. simpl.
    apply NoDup_app. split; [done|]. split; [|apply NoDup_singleton].
    intros x Hx Hx'%list_elem_of_singleton. subst x.
    apply Hseen. by apply Ht.
Qed.

Lemma visit_edges_inv current es t :
  nsteps hop_rel r start current -> es ⊆ DocumentGraph.edges graph ->
  round_inv r ball t ->
  round_inv r ball (foldl (visit_edge graph edge_type (Z.of_nat r) current) t es).
Proof.
  intros Hcur. revert t.
  induction es as [|e es IH]; intros t Hes Hinv; simpl; [done|].
  apply IH; [set_solver|]. apply visit_edge_inv; [done|set_solver|done].
Qed.

Lemma visit_layer_inv layer t :
  (forall x, x ∈ layer -> nsteps hop_rel r start x) ->
  round_inv r ball t ->
  round_inv r ball (visit_layer graph edge_type (Z.of_nat r) t layer).
Proof.
  unfold visit_layer. revert t.
  induction layer as [|c layer IH]; intros t Hlayer Hinv; simpl; [done|].
  apply IH; [set_solver|]. apply visit_edges_inv; [|done|done].
  apply Hlayer. set_solver.
Qed.
End Round.

(** The rounds of the traversal: when round [r] begins, the visited set
    is what is within [r] hops of the start node and the current layer is
    what is first reached in [r] hops. *)
Lemma hop_loop_spec rounds r seen layer found :
  (forall x, x ∈ seen <-> within_hops r x) ->
  (forall x, x ∈ layer <-> first_reached r x) ->
  Forall (discovered r) found ->
  (forall x, x ∈ targets found -> x ∈ seen) ->
  NoDup (targets found) ->
  let result := hop_loop graph edge_type rounds (Z.of_nat r) seen layer found in
  Forall (discovered (r + rounds)) result /\ NoDup (targets result).
Proof.
  revert r seen layer found.
  induction rounds as [|rounds IH]; intros r seen layer found Hseen Hlayer Hfound Hsub Hnd;
    simpl.
  - split; [|done]. by rewrite Nat.add_0_r.
  - set (t0 := {| visited := seen; next_layer := []; neighbors := found |}).
    set (t := visit_layer graph edge_type (Z.of_nat r) t0 layer).
    assert (Hinv : round_inv r seen t).
    { apply visit_layer_inv; [done| |].
      - intros x Hx. by apply Hlayer in Hx as [? _].
      - split; simpl; try done.
        + intros x Hx. by left.
        + intros x Hx. by apply elem_of_nil in Hx.
        + eapply Forall_impl; [exact Hfound|]. intros nb. apply discovered_mono. lia. }
    destruct Hinv as [Hv Hf Hl Hn Ht Hd].
    assert (Hball : forall x, x ∈ visited t <-> within_hops (S r) x).
    { intros x. split.
      - intros Hx. destruct (Hf x Hx) as [Hx'|Hx'].
        + apply Hseen in Hx' as (m & Hm & Hsteps). exists m. split; [lia|done].
        + apply Hl in Hx' as (_ & _ & Hsteps). exists (S r). split; [lia|done].
      - intros (m & Hm & Hsteps).
        destruct (decide (x ∈ seen)) as [Hx|Hx]; [by apply Hv|].
        destruct (decide (m = S r)) as [->|Hne].
        + apply nsteps_inv_r in Hsteps as (p & Hp & Hpx).
          apply (visit_layer_covers _ _ _ p); [|done].
          apply Hlayer. split; [done|]. intros m' Hm' Hsteps'.
          apply Hx, Hseen. exists (S m'). split; [lia|]. by eapply nsteps_r.
        + exfalso. apply Hx, Hseen. exists m. split; [lia|done]. }
    replace (Z.of_nat r + 1) with (Z.of_nat (S r)) by lia.
    replace (r + S rounds)%nat with (S r + rounds)%nat by lia.
    apply IH; try done.
    intros x. split.
    + intros Hx. apply Hl in Hx as (Hnew & _ & Hsteps). split; [done|].
      intros m Hm Hsteps'. apply Hnew, Hseen. exists m. split; [lia|done].
    + intros [Hsteps Hmin].
      assert (Hx : x ∈ visited t).
      { apply Hball. exists (S r). split; [lia|done]. }
      destruct (Hf x Hx) as [Hx'|Hx']; [|done].
      apply Hseen in Hx' as (m & Hm & Hsteps'). destruct (Hmin m); [lia|done].
Qed.
End Traversal.

(** C7: for a stored graph, a start node, an optional edge-type filter
    and a hop count, [get_neighbors] returns entries whose node is stored
    under the target of the entry's edge, never under the start node; the
    distance of an entry is at least one and at most the hop count, and it
    is the number of the round that first discovers the target: the target
    is that many matching edges away from the start node and no fewer.  No
    node is returned twice, and the stored data is left as it was. *)
Theorem get_neighbors_bfs (chat_id tenant_id start : string)
    (edge_type : option string) (hops : Z) (db : DB) (graph : DocumentGraph.t) :
  available db = true ->
  filter (fun g => DocumentGraph.chat_id g = chat_id
                   /\ DocumentGraph.tenant_id g = tenant_id)
         (document_graphs db) = [graph] ->
  exists found,
    get_neighbors chat_id tenant_id start edge_type hops db = (Ok found, db)
    /\ NoDup (targets found)
    /\ Forall
         (fun nb =>
            let target := GraphEdge.target_id (edge nb) in
            target <> start
            /\ DocumentGraph.nodes graph !! target = Some (node nb)
            /\ 1 <= distance nb <= hops
            /\ first_reached graph edge_type start (Z.to_nat (distance nb)) target)
         found.
Proof.
  intros Havail Hrow.
  eexists. split.
  { unfold get_neighbors, GraphService._load_graph, bind, select, lift.
    rewrite Havail, Hrow. simpl. reflexivity. }
  destruct (hop_loop_spec graph edge_type start (Z.to_nat hops) 0 {[ start ]} [start] [])
    as [Hfound Hnd].
  - intros x. rewrite elem_of_singleton. split.
    + intros ->. exists 0%nat. split; [lia|constructor].
    + intros (m & Hm & Hsteps). assert (m = 0%nat) as -> by lia.
      by inversion Hsteps.
  - intros x. rewrite list_elem_of_singleton. split.
    + intros ->. split; [constructor|]. intros m Hm. lia.
    + intros [Hsteps _]. by inversion Hsteps.
  - constructor.
  - intros x Hx. by apply elem_of_nil in Hx.
  - constructor.
  - simpl in Hfound, Hnd. split; [done|].
    eapply Forall_impl; [exact Hfound|].
    intros nb (Hne & Hnode & d & Hd & Hbound & Hfirst). simpl.
    split; [done|]. split; [done|]. split; [lia|].
    by rewrite Hd, Nat2Z.id.
Qed.
End GraphServiceFacts.

Module TextFacts.
Section TextFacts.
Context {U : Unicode}.

Lemma starts_with_spec needle haystack :
  starts_with needle haystack = true <-> exists post, haystack = needle ++ post.
Proof.
  revert haystack. induction needle as [|a needle IH]; intros haystack; simpl.
  - split; [intros _; by exists haystack|done].
  - destruct haystack as [|b haystack].
    + split; [done|]. by intros [post Hpost].
    + rewrite andb_true_iff, N.eqb_eq, IH. split.
      * intros [-> [post ->]]. by exists post.
      * intros [post Hpost]. injection Hpost as -> ->. split; [done|by exists post].
Qed.

(** [contains] is the substring test. *)
Lemma contains_spec needle haystack :
  contains needle haystack = true
  <-> exists pre post, haystack = pre ++ needle ++ post.
Proof.
  induction haystack as [|b haystack IH]; simpl.
  - rewrite orb_false_r, starts_with_spec. split.
    + intros [post Hpost]. by exists [], post.
    + intros (pre & post & Heq). symmetry in Heq.
      apply app_eq_nil in Heq as [-> Heq]. apply app_eq_nil in Heq as [-> ->].
      by exists [].
  - rewrite orb_true_iff, starts_with_spec, IH. split.
    + intros [[post Hpost]|(pre & post & ->)].
      * by exists [], post.
      * by exists (b :: pre), post.
    + intros ([|c pre] & post & Heq); simpl in Heq.
      * left. by exists post.
      * right. injection Heq as -> ->. by exists pre, post.
Qed.
End TextFacts.
End TextFacts.

Module RouterFacts.
Import Router TextFacts.

(** The words of the three question-word lists. *)
Definition all_question_words : list str := question_words ≫= snd.

(** C10: question-word detection is by substring.  For every query and
    whatever the character database, [_has_question_words] holds exactly
    when a word of the English, Russian or Uzbek list is a substring of the
    lower-cased query, or the query contains the question mark.  With the
    character database of this development the query "showcase" has
    question words, although it is a single word that is on none of the
    lists. *)
Theorem question_words_by_substring :
  (forall (U : Unicode) (query : str) (language : QueryLanguage),
      _has_question_words query language = true
      <-> (exists word pre post,
              word ∈ all_question_words /\ lower query = pre ++ word ++ post)
          \/ 63%N ∈ query)
  /\ _has_question_words (py "showcase") ENGLISH = true
  /\ split (py "showcase") = [py "showcase"]
  /\ py "showcase" ∉ all_question_words
  /\ py "how" ∈ all_question_words
  /\ lower (py "showcase") = py "s" ++ py "how" ++ py "case".
Proof.
  split.
  - intros U query language. unfold _has_question_words.
    rewrite orb_true_iff.
    assert (Hword : existsb (fun entry : string * list str =>
                       existsb (fun word => contains word (lower query)) entry.2)
                      question_words = true
                    <-> exists word pre post,
                          word ∈ all_question_words
                          /\ lower query = pre ++ word ++ post).
    { rewrite existsb_exists. split.
      - intros (entry & Hentry & Hword).
        apply existsb_exists in Hword as (word & Hword & Hsub).
        apply contains_spec in Hsub as (pre & post & Heq).
        exists word, pre, post. split; [|done].
        unfold all_question_words. apply list_elem_of_bind.
        exists entry. split; by apply list_elem_of_In.
      - intros (word & pre & post & Hword & Heq).
        unfold all_question_words in Hword.
        apply list_elem_of_bind in Hword as (entry & Hword & Hentry).
        exists entry. split; [by apply list_elem_of_In|].
        apply existsb_exists. exists word. split; [by apply list_elem_of_In|].
        apply contains_spec. by exists pre, post. }
    assert (Hmark : contains (py "?") query = true <-> 63%N ∈ query).
    { rewrite contains_spec. change (py "?") with [63%N]. split.
      - intros (pre & post & ->). set_solver.
      - intros (pre & post & ->)%list_elem_of_split. by exists pre, post. }
    rewrite Hword, Hmark. done.
  - split; [by vm_compute|]. split; [by vm_compute|].
    split; [apply (bool_decide_eq_true_1 _); by vm_compute|].
    split; [apply (bool_decide_eq_true_1 _); by vm_compute|]. by vm_compute.
Qed.

Section Analyzer.
Context {U : Unicode} {E : Externals}.

(** The language detector answers or raises its own exception. *)
Definition detector_answers (query : str) : Prop :=
  forall e, detect query = Raise e -> e = LangDetectException.

Lemma detect_language_answers query :
  detector_answers query -> exists language, _detect_language query = Ok language.
Proof.
  intros Hdetect. unfold _detect_language, try_except.
  destruct (detect query) as [code|e] eqn:Hcode; simpl; [by eexists|].
  rewrite (Hdetect e Hcode). by eexists.
Qed.

(** When the detector answers, [analyze] classifies by the rules. *)
Lemma analyze_classifies query :
  detector_answers query ->
  let chars := analyze query in
  (query_type chars, confidence chars)
  = _classify_query_type query (_has_references query)
      (has_question_words chars) (has_numbers chars) (word_count chars)
  /\ has_question_words chars = _has_question_words query (language chars)
  /\ has_numbers chars = re_search [Plus is_decimal] query
  /\ word_count chars = Z.of_nat (length (split query)).
Proof.
  intros [language Hlanguage]%detect_language_answers.
  unfold analyze. rewrite Hlanguage. simpl.
  destruct (_classify_query_type _ _ _ _ _) as [kind conf] eqn:Hclass; simpl.
  by rewrite Hclass.
Qed.
End Analyzer.

(** C8: the analyzer classifies "What is Article 27?" as an exact
    reference with confidence 0.9, although the query has a question word
    and more than three words, which the second rule asks for; the routing
    strategy then selects the graph-enhanced mode with two hops, ten
    results, the threshold 0.2 and neighbour expansion, whatever the chat
    configuration.  The language detector is any detector that answers or
    raises [LangDetectException]. *)
Theorem article_27_is_exact_reference (E : Externals)
    (chat_config : gmap string string) :
  detector_answers (py "What is Article 27?") ->
  let chars := analyze (py "What is Article 27?") in
  let decision := decide chars chat_config in
  query_type chars = EXACT_REFERENCE
  /\ confidence chars = 0.9%Q
  /\ has_question_words chars = true
  /\ 3 < word_count chars
  /\ selected_mode decision = RetrievalMode.GRAPH_ENHANCED
  /\ neighbor_hops decision = 2
  /\ top_k decision = 10
  /\ score_threshold decision = 0.2%Q
  /\ expand_with_neighbors decision = true.
Proof.
  intros Hdetect chars decision.
  destruct (analyze_classifies _ Hdetect) as (Hclass & Hwords & _ & Hcount).
  fold chars in Hclass, Hwords, Hcount.
  assert (Href : _has_references (py "What is Article 27?") = true) by by vm_compute.
  rewrite Href in Hclass. simpl in Hclass. injection Hclass as Htype Hconf.
  assert (Hdecision : decision
            = _handle_exact_reference chars
                (default "strict_docs_only" (chat_config !! "strictness"))
                (default "general" (chat_config !! "purpose"))).
  { unfold decision, decide. by rewrite Htype. }
  split; [done|]. split; [done|]. split.
  { rewrite Hwords. unfold _has_question_words.
    apply orb_true_iff. left. by vm_compute. }
  split; [rewrite Hcount; by vm_compute|].
  by rewrite Hdecision.
Qed.

Lemma article_27_is_exact_reference_witness :
  let chars := analyze (E := Scenario.externals) (py "What is Article 27?") in
  query_type chars = EXACT_REFERENCE /\ confidence chars = 0.9%Q
  /\ selected_mode (decide chars ∅) = RetrievalMode.GRAPH_ENHANCED
  /\ neighbor_hops (decide chars ∅) = 2.
Proof.
  pose proof (article_27_is_exact_reference Scenario.externals ∅) as H.
  simpl in H. intros chars.
  destruct H as (H1 & H2 & _ & _ & H3 & H4 & _); [|done].
  intros e He. discriminate He.
Defined.
End RouterFacts.

Module AdaptiveRouterFacts.
Import Router.

(** The configuration [_load_chat_config] builds from a chat row. *)
Definition config_of (chat : Chat.t) : gmap string string :=
  <[ "strictness" := Chat.strictness chat ]> (<[ "purpose" := Chat.purpose chat ]> ∅).

(** C9, as the code has it: when the chat exists, [route] returns the
    decision of the strategy with the overrides applied and leaves the
    stored data as it was.  A [force_mode] that is not the empty string
    replaces the selected mode and appends " (Manually overridden)" to the
    reasoning; a [force_top_k] that is not zero replaces [top_k] and leaves
    the reasoning as it is; [None], the empty string and zero change
    nothing.  The other fields are those the strategy computed. *)
Theorem route_applies_overrides {E : Externals} (request : RouterRequest)
    (tenant_id : string) (db : DB) (chat : Chat.t) :
  available db = true ->
  filter (fun c => Chat.id c = chat_id request /\ Chat.tenant_id c = tenant_id)
         (chats db) = [chat] ->
  let computed := decide (analyze (query request)) (config_of chat) in
  exists decision,
    route request tenant_id db = (Ok decision, db)
    /\ (forall mode, force_mode request = Some mode -> mode <> ""%string ->
          selected_mode decision = mode
          /\ reasoning decision = reasoning computed +:+ " (Manually overridden)")
    /\ (force_mode request = None \/ force_mode request = Some ""%string ->
          selected_mode decision = selected_mode computed
          /\ reasoning decision = reasoning computed)
    /\ (forall k, force_top_k request = Some k -> k <> 0 -> top_k decision = k)
    /\ (force_top_k request = None \/ force_top_k request = Some 0 ->
          top_k decision = top_k computed)
    /\ score_threshold decision = score_threshold computed
    /\ expand_with_neighbors decision = expand_with_neighbors computed
    /\ neighbor_hops decision = neighbor_hops computed.
Proof.
  intros Havail Hrow computed.
  assert (Hcfg : _load_chat_config (chat_id request) tenant_id db
                 = (Ok (config_of chat), db)).
  { unfold _load_chat_config, bind, select, lift. rewrite Havail, Hrow. reflexivity. }
  unfold route, try_, bind. rewrite Hcfg. cbv zeta. fold computed.
  generalize computed. clear computed. intros computed.
  destruct request as [q c fm fk]; cbn [force_mode force_top_k].
  unfold ret.
  destruct fm as [mode|]; cbn [truthy_str];
    [case_bool_decide as Hmode; [subst mode|]|];
    (destruct fk as [k|]; cbn [truthy_int]; [destruct (k =? 0) eqn:Hk|]);
    (eexists; split; [reflexivity|]);
    cbn [set_mode set_top_k selected_mode top_k reasoning score_threshold
         expand_with_neighbors neighbor_hops];
    repeat match goal with
           | |- _ /\ _ => split
           | |- forall _, Some _ = Some _ -> _ => intros ? [= <-] ?
           | |- forall _, None = Some _ -> _ => intros ? [=]
           | |- _ \/ _ -> _ => intros [[=]|[=]]
           end; subst; try done; try lia.
Qed.

Definition top_k_only : RouterRequest :=
  {| query := py "remote work"; chat_id := "chat-a";
     force_mode := None; force_top_k := Some 5 |}.

Definition both_overrides : RouterRequest :=
  {| query := py "remote work"; chat_id := "chat-a";
     force_mode := Some "sparse_only"%string; force_top_k := Some 5 |}.

Lemma route_applies_overrides_witness :
  exists decision,
    route (E := Scenario.externals) both_overrides "acme" Scenario.db
    = (Ok decision, Scenario.db)
    /\ selected_mode decision = "sparse_only"%string
    /\ top_k decision = 5.
Proof.
  destruct (route_applies_overrides (E := Scenario.externals) both_overrides
              "acme" Scenario.db Scenario.chat_a eq_refl eq_refl)
    as (decision & Hrun & Hmode & _ & Hk & _).
  exists decision. split; [exact Hrun|]. split.
  - apply (Hmode "sparse_only"%string); [reflexivity|discriminate].
  - apply (Hk 5); [reflexivity|lia].
Defined.

(** C9 as stated fails for an override of [top_k] alone: the request
    asks for five results, [route] returns a decision with [top_k = 5], and
    the reasoning is the one the strategy computed, without annotation. *)
Lemma top_k_override_not_annotated :
  exists decision,
    route (E := Scenario.externals) top_k_only "acme" Scenario.db
    = (Ok decision, Scenario.db)
    /\ top_k decision = 5
    /\ top_k (decide (analyze (E := Scenario.externals) (query top_k_only))
                     (config_of Scenario.chat_a)) = 10
    /\ reasoning decision
       = "Query type unclear. Using hybrid mode as default safe strategy."%string
    /\ reasoning decision
       <> (reasoning (decide (analyze (E := Scenario.externals) (query top_k_only))
                             (config_of Scenario.chat_a))
           +:+ " (Manually overridden)")%string.
Proof.
  eexists. split; [by vm_compute|].
  split; [done|]. split; [by vm_compute|]. split; [by vm_compute|].
  vm_compute. discriminate.
Qed.
End AdaptiveRouterFacts.

Module FusionFacts.
Import Retrieval.

(** The ranked lists of the scenario: [a] then [b], and [b] then [c];
    the scores, sources and payloads are arbitrary. *)
Definition item_of (unit_id : string) (payload : Q * string * result_metadata)
  : result :=
  {| atomic_unit_id := unit_id; score := payload.1.1; source := payload.1.2;
     metadata := payload.2; graph_distance := None |}.

Definition scenario (pa pb pb' pc : Q * string * result_metadata)
  : except (list result) :=
  fuse default_fusion
       [[item_of "a" pa; item_of "b" pb]; [item_of "b" pb'; item_of "c" pc]]
       (Some [0.6%Q; 0.4%Q]).

(** C2, as the code has it: with the weights 0.6 and 0.4 and the
    constant 60, fusing [a, b] and [b, c] returns [b], [a], [c] in that
    order, each once and tagged "fusion".  [b] is second in the first list
    and first in the second, so its score is 0.6/62 + 0.4/61; [a] scores
    0.6/61 and [c] scores 0.4/62.  [b] keeps the payload of its first
    occurrence. *)
Theorem fuse_scenario (pa pb pb' pc : Q * string * result_metadata) :
  exists rb ra rc,
    scenario pa pb pb' pc = Ok [rb; ra; rc]
    /\ (atomic_unit_id rb = "b" /\ atomic_unit_id ra = "a" /\ atomic_unit_id rc = "c")%string
    /\ (score rb == 0.6 / 62 + 0.4 / 61)%Q
    /\ (score ra == 0.6 / 61)%Q
    /\ (score rc == 0.4 / 62)%Q
    /\ (source rb = "fusion" /\ source ra = "fusion" /\ source rc = "fusion")%string
    /\ metadata rb = pb.2 /\ metadata ra = pa.2 /\ metadata rc = pc.2.
Proof.
  destruct pa as [[sa srca] ma], pb as [[sb srcb] mb],
           pb' as [[sb' srcb'] mb'], pc as [[sc srcc] mc].
  assert (Hrun : exists qb qa qc,
             scenario (sa, srca, ma) (sb, srcb, mb) (sb', srcb', mb') (sc, srcc, mc)
             = Ok [ {| atomic_unit_id := "b"; score := qb; source := "fusion";
                       metadata := mb; graph_distance := None |};
                    {| atomic_unit_id := "a"; score := qa; source := "fusion";
                       metadata := ma; graph_distance := None |};
                    {| atomic_unit_id := "c"; score := qc; source := "fusion";
                       metadata := mc; graph_distance := None |} ]
             /\ (qb == 0.6 / 62 + 0.4 / 61)%Q /\ (qa == 0.6 / 61)%Q
             /\ (qc == 0.4 / 62)%Q).
  { eexists _, _, _. split; [vm_compute; reflexivity|].
    split; [|split]; reflexivity. }
  destruct Hrun as (qb & qa & qc & Hrun & Hb & Ha & Hc).
  eexists _, _, _. split; [exact Hrun|]. cbn [atomic_unit_id score source metadata snd].
  repeat split; done.
Qed.

(** C2 as stated fails: the fused score of [b] is not 0.6/61 + 0.4/61. *)
Lemma fuse_scenario_score_of_b :
  let payload := (1%Q, "dense"%string, Payload ∅) in
  exists rb rest,
    scenario payload payload payload payload = Ok (rb :: rest)
    /\ atomic_unit_id rb = "b"%string
    /\ ~ (score rb == 0.6 / 61 + 0.4 / 61)%Q.
Proof.
  eexists _, _. split; [vm_compute; reflexivity|]. split; [reflexivity|].
  cbn [score]. intros Heq. vm_compute in Heq. discriminate Heq.
Qed.
End FusionFacts.

Module SessionFacts.

(** [m] run on [db] leaves [db] as it was, and its outcome satisfies
    [post]. *)
Definition reads {A} (m : session A) (db : DB) (post : except A -> Prop) : Prop :=
  exists r, m db = (r, db) /\ post r.

(** [m] run on [db] returns a value that satisfies [post] and leaves [db]
    as it was. *)
Definition returns {A} (m : session A) (db : DB) (post : A -> Prop) : Prop :=
  exists a, m db = (Ok a, db) /\ post a.

Lemma returns_ret {A} (a : A) db (post : A -> Prop) : post a -> returns (ret a) db post.
Proof. intros Ha. by exists a. Qed.

Lemma returns_bind {A B} (m : session A) (f : A -> session B) db
    (mid : A -> Prop) (post : B -> Prop) :
  returns m db mid -> (forall a, mid a -> returns (f a) db post) ->
  returns (bind m f) db post.
Proof.
  intros (a & Hm & Ha) Hf. destruct (Hf a Ha) as (b & Hfb & Hb).
  exists b. split; [|done]. unfold bind. by rewrite Hm.
Qed.

Lemma reads_bind {A B} (m : session A) (f : A -> session B) db
    (mid : except A -> Prop) (post : except B -> Prop) :
  reads m db mid ->
  (forall a, mid (Ok a) -> reads (f a) db post) ->
  (forall e, mid (Raise e) -> post (Raise e)) ->
  reads (bind m f) db post.
Proof.
  intros (r & Hm & Hr) Hok Hraise. unfold reads, bind. rewrite Hm.
  destruct r as [a|e]; [by apply Hok|]. exists (Raise e). split; [done|by apply Hraise].
Qed.

Lemma reads_lift {A} (r : except A) db (post : except A -> Prop) :
  post r -> reads (lift r) db post.
Proof. intros Hr. by exists r. Qed.

(** A [try] whose handler returns makes a computation that returns. *)
Lemma returns_try {A} (body : session A) (handler : exn -> session A) db
    (mid : except A -> Prop) (post : A -> Prop) :
  reads body db mid ->
  (forall a, mid (Ok a) -> post a) ->
  (forall e, mid (Raise e) -> returns (handler e) db post) ->
  returns (try_ body handler) db post.
Proof.
  intros (r & Hm & Hr) Hok Hraise. unfold returns, try_. rewrite Hm.
  destruct r as [a|e]; [|by apply Hraise]. exists a. split; [done|by apply Hok].
Qed.

Lemma returns_try_ok {A} (body : session A) (handler : exn -> session A) db
    (post : A -> Prop) :
  returns body db post -> returns (try_ body handler) db post.
Proof.
  intros (a & Hm & Ha). exists a. split; [|done]. unfold try_. by rewrite Hm.
Qed.

Lemma reads_select {A} (table : DB -> list A) (where_ : A -> Prop)
    `{forall row, Decision (where_ row)} db :
  reads (select table where_) db
        (fun r => forall rows, r = Ok rows -> rows = filter where_ (table db)).
Proof.
  unfold reads, select. destruct (available db); eexists; (split; [done|]).
  - by intros rows [= <-].
  - done.
Qed.

Lemma scalar_one_or_none_elem {A} (rows : list A) row :
  scalar_one_or_none rows = Ok (Some row) -> rows = [row].
Proof. destruct rows as [|r [|r' rows]]; simpl; congruence. Qed.
End SessionFacts.

Module DictFacts.
Section DictFacts.
Context {K V : Type} `{EqDecision K}.
Implicit Types (d : dict K V).

Lemma dict_get_set d k v k' :
  dict_get (dict_set d k v) k' = if decide (k = k') then Some v else dict_get d k'.
Proof.
  induction d as [|[k0 v0] d IH]; simpl.
  - done.
  - destruct (decide (k0 = k)) as [->|Hne]; simpl.
    + by destruct (decide (k = k')).
    + rewrite IH. destruct (decide (k0 = k')) as [->|]; [|done].
      by rewrite decide_False by done.
Qed.

Lemma elem_of_dict_set d k v entry :
  entry ∈ dict_set d k v -> entry = (k, v) \/ entry ∈ d.
Proof.
  induction d as [|[k0 v0] d IH]; simpl.
  - intros ->%list_elem_of_singleton. by left.
  - destruct (decide (k0 = k)) as [->|Hne].
    + intros [->|Hin]%elem_of_cons; [by left|]. right. by apply elem_of_cons; right.
    + intros [->|Hin]%elem_of_cons; [right; by apply elem_of_cons; left|].
      destruct (IH Hin); [by left|]. right. by apply elem_of_cons; right.
Qed.

Lemma dict_get_elem_of d k v : dict_get d k = Some v -> exists k', (k', v) ∈ d.
Proof.
  induction d as [|[k0 v0] d IH]; simpl; [done|].
  destruct (decide (k0 = k)).
  - intros [= ->]. exists k0. by apply elem_of_cons; left.
  - intros [k' Hin]%IH. exists k'. by apply elem_of_cons; right.
Qed.

Lemma elem_of_dict_get d k v : (k, v) ∈ d -> is_Some (dict_get d k).
Proof.
  induction d as [|[k0 v0] d IH]; simpl.
  - by intros ?%elem_of_nil.
  - intros [[= <- <-]|Hin]%elem_of_cons.
    + by rewrite decide_True by done.
    + destruct (decide (k0 = k)); [done|by apply IH].
Qed.
End DictFacts.
End DictFacts.

Module FusionLoop.
Import Retrieval DictFacts SortFacts.

Section FusionLoop.
Variable good : string -> Prop.

Definition all_good (results : list result) : Prop :=
  Forall (fun r => good (atomic_unit_id r)) results.

(** Every key with a score has its item, and every kept item is good. *)
Definition fusion_inv (state : fusion_state) : Prop :=
  (forall key, is_Some (dict_get state.1 key) -> is_Some (dict_get state.2 key))
  /\ Forall (fun entry => good (atomic_unit_id entry.2)) state.2.

Lemma divide_nonzero a b : ~ (b == 0)%Q -> divide a b = Ok (a / b)%Q.
Proof.
  intros Hb. unfold divide. destruct (Qeq_bool b 0) eqn:Heq; [|done].
  by apply Qeq_bool_iff in Heq.
Qed.

Lemma fuse_item_inv self weight state rank item :
  0 < k self + rank -> good (atomic_unit_id item) -> fusion_inv state ->
  exists state', fuse_item self weight state (rank, item) = Ok state'
                 /\ fusion_inv state'.
Proof.
  intros Hrank Hitem [Hkeys Hgood]. destruct state as [scores data].
  unfold fuse_item. rewrite divide_nonzero; last first.
  { unfold Qeq, inject_Z. simpl. lia. }
  simpl. eexists. split; [done|]. simpl in *. split; simpl.
  - intros key. rewrite dict_get_set.
    destruct (decide (atomic_unit_id item = key)) as [<-|Hne].
    + intros _. destruct (dict_get data (atomic_unit_id item)) eqn:Hdata; [by rewrite Hdata|].
      rewrite dict_get_set. by rewrite decide_True by done.
    + intros Hsome%Hkeys.
      destruct (dict_get data (atomic_unit_id item)); [done|].
      rewrite dict_get_set. by rewrite decide_False by done.
  - destruct (dict_get data (atomic_unit_id item)); [done|].
    apply Forall_forall. intros entry [->|Hin]%elem_of_dict_set; [done|].
    rewrite Forall_forall in Hgood. by apply Hgood.
Qed.

Lemma fuse_items_inv self weight items start state :
  0 < k self + Z.of_nat start -> all_good items -> fusion_inv state ->
  exists state',
    for_each (fuse_item self weight) state
             (zip (Z.of_nat <$> seq start (length items)) items) = Ok state'
    /\ fusion_inv state'.
Proof.
  revert start state.
  induction items as [|item items IH]; intros start state Hstart Hitems Hinv; simpl.
  - by exists state.
  - apply Forall_cons in Hitems as [Hitem Hitems].
    destruct (fuse_item_inv self weight state (Z.of_nat start) item)
      as (state' & Hstep & Hinv'); [done..|].
    rewrite Hstep. simpl. apply IH; [lia|done..].
Qed.

Lemma mapM_fused_result data entries :
  Forall (fun entry => good (atomic_unit_id entry.2)) data ->
  (forall entry, entry ∈ entries -> is_Some (dict_get data entry.1)) ->
  exists results, mapM (fused_result data) entries = Ok results /\ all_good results.
Proof.
  intros Hgood. induction entries as [|[key s] entries IH]; intros Hkeys.
  - exists []. split; [done|constructor].
  - destruct (Hkeys (key, s)) as [item Hitem]; [by apply elem_of_cons; left|].
    destruct IH as (results & Hrest & Hresults).
    { intros e He. apply Hkeys. by apply elem_of_cons; right. }
    simpl in Hitem.
    change (mapM (fused_result data) ((key, s) :: entries))
      with (fused_result data (key, s) ≫= fun r =>
            mapM (fused_result data) entries ≫= fun rs => mret (r :: rs)).
    assert (Hhead : exists r, fused_result data (key, s) = Ok r
                              /\ atomic_unit_id r = atomic_unit_id item).
    { unfold fused_result. cbn [fst snd]. rewrite Hitem. by eexists. }
    destruct Hhead as (r & -> & Hr). rewrite Hrest. simpl.
    eexists. split; [done|]. constructor; [|done]. rewrite Hr.
    apply dict_get_elem_of in Hitem as [key' Hin].
    rewrite Forall_forall in Hgood. by apply (Hgood _ Hin).
Qed.

(** The fusion of the hybrid mode never raises, and it returns items of
    its two inputs only. *)
Lemma fuse_hybrid dense_results sparse_results :
  all_good dense_results -> all_good sparse_results ->
  exists fused,
    fuse default_fusion [dense_results; sparse_results] (Some [0.6%Q; 0.4%Q])
    = Ok fused
    /\ all_good fused.
Proof.
  intros Hdense Hsparse. unfold fuse.
  change (mapM _ (default _ (Some [0.6%Q; 0.4%Q])))
    with (mapM (fun w => divide w (sum [0.6%Q; 0.4%Q])) [0.6%Q; 0.4%Q]).
  assert (Hweights : exists wd ws,
             mapM (fun w => divide w (sum [0.6%Q; 0.4%Q])) [0.6%Q; 0.4%Q]
             = Ok [wd; ws]).
  { eexists _, _. vm_compute. reflexivity. }
  destruct Hweights as (wd & ws & ->). simpl.
  destruct (fuse_items_inv default_fusion wd dense_results 1 ([], []))
    as (state1 & Hrun1 & Hinv1); [simpl; lia|done| |].
  { split; [intros key [? [=]]|constructor]. }
  unfold enumerate1. rewrite Hrun1. simpl.
  destruct (fuse_items_inv default_fusion ws sparse_results 1 state1)
    as (state2 & Hrun2 & Hinv2); [simpl; lia|done..|].
  rewrite Hrun2. simpl. destruct state2 as [scores data].
  destruct Hinv2 as [Hkeys Hgood]. simpl in *.
  apply mapM_fused_result; [done|].
  intros [key s] Hin. apply Hkeys. simpl.
  rewrite sorted_desc_Permutation in Hin. by eapply elem_of_dict_get.
Qed.
End FusionLoop.
End FusionLoop.

Module RetrievalFacts.
Import Retrieval SessionFacts FusionLoop SortFacts.

Lemma slice_to_subseteq {A} k (l : list A) : slice_to k l ⊆ l.
Proof. unfold slice_to. destruct (0 <=? k); apply subseteq_take. Qed.

Lemma Forall_subseteq {A} (P : A -> Prop) l l' : l ⊆ l' -> Forall P l' -> Forall P l.
Proof. rewrite !Forall_forall. intros Hsub Hl x Hx. by apply Hl, Hsub. Qed.

Lemma format_results_ids index scores top hits :
  BM25.format_results index scores top = Ok hits ->
  Forall (fun h => BM25.atomic_unit_id h ∈ BM25Index.doc_ids index) hits.
Proof.
  revert hits. induction top as [|idx top IH]; intros hits; simpl.
  - intros [= <-]. constructor.
  - destruct (BM25.positive _); [|by apply IH].
    unfold item.
    destruct (BM25Index.doc_ids index !! idx) as [unit_id|] eqn:Hid; [|done].
    destruct (BM25Index.doc_metadata index !! idx); [|done].
    destruct (BM25.format_results index scores top) as [rest|]; [|done].
    intros [= <-]. constructor; [|by apply IH]. simpl.
    by eapply list_elem_of_lookup_2.
Qed.

Lemma units_by_id_lookup rows key u :
  units_by_id rows !! key = Some u -> u ∈ rows /\ AtomicUnit.id u = key.
Proof.
  unfold units_by_id.
  assert (Hgen : forall acc : gmap string AtomicUnit.t,
             foldl (fun units u => <[ AtomicUnit.id u := u ]> units) acc rows !! key
             = Some u ->
             (u ∈ rows /\ AtomicUnit.id u = key) \/ acc !! key = Some u).
  { induction rows as [|row rows IH]; intros acc; simpl; [by right|].
    intros [[Hin Hid]|Hacc]%IH.
    - left. split; [by apply elem_of_cons; right|done].
    - destruct (decide (AtomicUnit.id row = key)) as [Heq|Hne].
      + rewrite <- Heq, lookup_insert_eq in Hacc. injection Hacc as ->.
        left. split; [by apply elem_of_cons; left|done].
      + rewrite lookup_insert_ne in Hacc by done. by right. }
  intros [H|H]%Hgen; [done|]. by rewrite lookup_empty in H.
Qed.

(** Every node [get_neighbors] returns is stored in the graph. *)
Definition node_stored (graph : DocumentGraph.t) (nb : GraphService.neighbor) : Prop :=
  exists key, DocumentGraph.nodes graph !! key = Some (GraphService.node nb).

Lemma visit_edge_nodes graph edge_type hop current t e :
  Forall (node_stored graph) (GraphService.neighbors t) ->
  Forall (node_stored graph)
         (GraphService.neighbors (GraphService.visit_edge graph edge_type hop current t e)).
Proof.
  intros Ht. unfold GraphService.visit_edge.
  destruct (_ && _); [|done]. case_bool_decide; [done|]. simpl.
  destruct (DocumentGraph.nodes graph !! GraphEdge.target_id e) eqn:Hnode; [|done].
  apply Forall_app. split; [done|]. constructor; [|constructor]. by eexists.
Qed.

Lemma visit_edges_nodes graph edge_type hop current es t :
  Forall (node_stored graph) (GraphService.neighbors t) ->
  Forall (node_stored graph)
         (GraphService.neighbors
            (foldl (GraphService.visit_edge graph edge_type hop current) t es)).
Proof.
  revert t. induction es as [|e es IH]; intros t Ht; simpl; [done|].
  by apply IH, visit_edge_nodes.
Qed.

Lemma visit_layer_nodes graph edge_type hop layer t :
  Forall (node_stored graph) (GraphService.neighbors t) ->
  Forall (node_stored graph)
         (GraphService.neighbors (GraphService.visit_layer graph edge_type hop t layer)).
Proof.
  unfold GraphService.visit_layer. revert t.
  induction layer as [|current layer IH]; intros t Ht; simpl; [done|].
  by apply IH, visit_edges_nodes.
Qed.

Lemma hop_loop_nodes graph edge_type rounds hop seen layer found :
  Forall (node_stored graph) found ->
  Forall (node_stored graph)
         (GraphService.hop_loop graph edge_type rounds hop seen layer found).
Proof.
  revert hop seen layer found.
  induction rounds as [|rounds IH]; intros hop seen layer found Hfound; simpl; [done|].
  by apply IH, visit_layer_nodes.
Qed.

Section Flow.
Context {U : Unicode} {E : Externals}.
Variables (db : DB) (chat_id tenant_id : string) (good : string -> Prop).

(** The ids stored for the collection, and those the vector store
    answers with, are good. *)
Hypothesis index_good : forall index,
  index ∈ bm25_indexes db -> BM25Index.chat_id index = chat_id ->
  BM25Index.tenant_id index = tenant_id -> Forall good (BM25Index.doc_ids index).
Hypothesis graph_good : forall graph key n,
  graph ∈ document_graphs db -> DocumentGraph.chat_id graph = chat_id ->
  DocumentGraph.tenant_id graph = tenant_id ->
  DocumentGraph.nodes graph !! key = Some n -> good (GraphNode.node_id n).
Hypothesis dense_good : forall query limit threshold points,
  vector_search chat_id tenant_id query limit threshold = Ok points ->
  Forall (fun p : string * Q * gmap string string => good p.1.1) points.

Local Abbreviation all_good := (all_good good).

Lemma search_good tokenizer query top_k :
  reads (BM25.search tokenizer chat_id tenant_id query top_k) db
        (fun r => forall hits, r = Ok hits ->
                    Forall (fun h => good (BM25.atomic_unit_id h)) hits).
Proof.
  unfold reads, BM25.search, try_, bind, BM25._load_index, bind, select, lift.
  destruct (available db); simpl; [|by eexists].
  destruct (scalar_one_or_none _) as [[index|]|e] eqn:Hrows; simpl.
  - apply scalar_one_or_none_elem in Hrows.
    assert (Hindex : index ∈ filter
              (fun i => BM25Index.chat_id i = chat_id
                        /\ BM25Index.tenant_id i = tenant_id) (bm25_indexes db)).
    { rewrite Hrows. by apply list_elem_of_singleton. }
    apply list_elem_of_filter in Hindex as [[Hchat Htenant] Hindex].
    destruct (okapi_scores _ _) as [scores|e]; simpl.
    + destruct (BM25.format_results index scores _) as [hits|e] eqn:Hfmt; simpl.
      * eexists. split; [done|]. intros ? [= <-].
        apply format_results_ids in Hfmt.
        pose proof (index_good index Hindex Hchat Htenant) as Hids.
        rewrite Forall_forall in Hfmt. rewrite Forall_forall in Hids.
        apply Forall_forall. intros h Hh. by apply Hids, Hfmt.
      * destruct e; by eexists.
    + destruct e; by eexists.
  - by eexists.
  - destruct e; by eexists.
Qed.

Lemma sparse_retrieve_good tokenizer query top_k :
  returns (sparse_retrieve tokenizer chat_id tenant_id query top_k) db all_good.
Proof.
  destruct (search_good tokenizer query top_k) as (r & Hrun & Hr).
  unfold returns, sparse_retrieve, try_, bind. rewrite Hrun.
  destruct r as [hits|e]; simpl.
  - eexists. split; [done|]. specialize (Hr hits eq_refl).
    unfold FusionLoop.all_good. rewrite Forall_fmap. by apply Hr.
  - exists []. split; [done|constructor].
Qed.

Lemma dense_retrieve_good query top_k threshold :
  returns (dense_retrieve chat_id tenant_id query top_k threshold) db all_good.
Proof.
  unfold returns, dense_retrieve, try_, bind, lift, ret.
  destruct (vector_search _ _ _ _ _) as [points|e] eqn:Hsearch; simpl.
  - eexists. split; [done|]. unfold FusionLoop.all_good. rewrite Forall_fmap.
    by apply (dense_good _ _ _ _ Hsearch).
  - exists []. split; [done|constructor].
Qed.

Lemma hybrid_good tokenizer query top_k threshold :
  returns (_hybrid tokenizer chat_id tenant_id query top_k threshold) db all_good.
Proof.
  destruct (dense_retrieve_good query (top_k * 2) threshold) as (dense & Hdense & Hd).
  destruct (sparse_retrieve_good tokenizer query (top_k * 2)) as (sparse & Hsparse & Hs).
  destruct (fuse_hybrid good dense sparse Hd Hs) as (fused & Hfuse & Hf).
  unfold returns, _hybrid, bind. rewrite Hdense, Hsparse. unfold lift. rewrite Hfuse.
  eexists. split; [done|]. eapply Forall_subseteq; [apply slice_to_subseteq|done].
Qed.

Lemma get_neighbors_good node_id edge_type hops :
  reads (GraphService.get_neighbors chat_id tenant_id node_id edge_type hops) db
        (fun r => forall found, r = Ok found ->
           Forall (fun nb => good (GraphNode.node_id (GraphService.node nb))) found).
Proof.
  unfold reads, GraphService.get_neighbors, GraphService._load_graph, bind, select, lift.
  destruct (available db); simpl; [|by eexists].
  destruct (scalar_one_or_none _) as [[graph|]|e] eqn:Hrows; simpl; try by eexists.
  apply scalar_one_or_none_elem in Hrows.
  assert (Hgraph : graph ∈ filter
            (fun g => DocumentGraph.chat_id g = chat_id
                      /\ DocumentGraph.tenant_id g = tenant_id) (document_graphs db)).
  { rewrite Hrows. by apply list_elem_of_singleton. }
  apply list_elem_of_filter in Hgraph as [[Hchat Htenant] Hgraph].
  eexists. split; [done|]. intros ? [= <-].
  eapply Forall_impl; [apply hop_loop_nodes; constructor|].
  intros nb [key Hkey]. by eapply graph_good.
Qed.

Lemma add_neighbors_good parent state found :
  all_good state.1 ->
  Forall (fun nb => good (GraphNode.node_id (GraphService.node nb))) found ->
  all_good (add_neighbors parent state found).1.
Proof.
  unfold add_neighbors. revert state.
  induction found as [|nb found IH]; intros [expanded seen] Hstate Hfound; simpl;
    [done|].
  apply Forall_cons in Hfound as [Hnb Hfound].
  apply IH; [|done]. case_bool_decide; [done|]. simpl.
  apply Forall_app. split; [done|]. by repeat constructor.
Qed.

Lemma expand_results_good hops results state :
  all_good state.1 -> all_good results ->
  returns (expand_results chat_id tenant_id hops state results) db
          (fun state' => all_good state'.1).
Proof.
  revert state.
  induction results as [|r results IH]; intros [expanded seen] Hstate Hresults; simpl.
  - by apply returns_ret.
  - apply Forall_cons in Hresults as [Hr Hresults].
    set (state := if bool_decide (atomic_unit_id r ∈ seen) then (expanded, seen)
                  else (expanded ++ [r], seen ∪ {[atomic_unit_id r]})).
    assert (Hstate' : all_good state.1).
    { unfold state. case_bool_decide; [done|]. simpl.
      apply Forall_app. split; [done|]. by repeat constructor. }
    eapply returns_bind with (mid := fun st => all_good st.1);
      [|intros state' Hgood; by apply IH].
    eapply returns_try
      with (mid := fun r => forall st, r = Ok st -> all_good st.1).
    + eapply reads_bind; [apply get_neighbors_good| |].
      * intros found Hfound. apply (reads_lift (Ok _)).
        intros st [= <-]. apply add_neighbors_good; [done|by apply Hfound].
      * by intros e _ st.
    + intros st Hst. by apply Hst.
    + intros e _. by apply returns_ret.
Qed.

Lemma expand_with_neighbors_good results hops :
  all_good results ->
  returns (_expand_with_neighbors chat_id tenant_id results hops) db all_good.
Proof.
  intros Hresults. unfold _expand_with_neighbors.
  eapply returns_bind; [apply expand_results_good; [constructor|done]|].
  intros state Hstate. apply returns_ret.
  unfold FusionLoop.all_good. by rewrite sorted_desc_Permutation.
Qed.

Lemma enrich_results_stored results :
  returns (_enrich_results results) db
    (fun contexts =>
       Forall (fun c => exists r u,
                 r ∈ results /\ u ∈ atomic_units db
                 /\ AtomicUnit.id u = atomic_unit_id r /\ c = context_of r u)
              contexts).
Proof.
  destruct results as [|r0 results]; [apply returns_ret; constructor|].
  unfold _enrich_results, returns, try_, bind, select, ret.
  destruct (available db); [|exists []; split; [done|constructor]].
  eexists. split; [reflexivity|].
  apply Forall_forall. intros c (r & Hr & Hc)%list_elem_of_omap.
  destruct (units_by_id _ !! atomic_unit_id r) as [u|] eqn:Hu; [|done].
  injection Hc as <-. apply units_by_id_lookup in Hu as [Hin Hid].
  apply list_elem_of_filter in Hin as [_ Hin]. by exists r, u.
Qed.

Definition valid_mode (mode : string) : Prop :=
  mode ∈ [RetrievalMode.DENSE_ONLY; RetrievalMode.SPARSE_ONLY;
          RetrievalMode.HYBRID; RetrievalMode.GRAPH_ENHANCED].

(** With one of the four modes [retrieve] returns, and every context is
    built from a stored unit whose id is good. *)
Lemma retrieve_returns tokenizer request :
  valid_mode (mode request) ->
  returns (retrieve tokenizer chat_id tenant_id request) db
    (fun contexts =>
       Forall (fun c => exists u,
                 u ∈ atomic_units db /\ good (AtomicUnit.id u)
                 /\ ctx_atomic_unit_id c = AtomicUnit.id u
                 /\ ctx_document_id c = AtomicUnit.document_id u
                 /\ ctx_text c = AtomicUnit.text u)
              contexts).
Proof.
  intros Hmode. unfold retrieve. apply returns_try_ok.
  eapply returns_bind with (mid := all_good).
  { repeat case_bool_decide.
    - apply dense_retrieve_good.
    - apply sparse_retrieve_good.
    - apply hybrid_good.
    - unfold _graph_enhanced. eapply returns_bind; [apply hybrid_good|].
      intros results Hresults. by apply expand_with_neighbors_good.
    - exfalso. unfold valid_mode in Hmode. set_solver. }
  intros results Hresults.
  eapply returns_bind with (mid := all_good).
  { destruct (_ && _); [by apply expand_with_neighbors_good|by apply returns_ret]. }
  clear results Hresults. intros results Hresults.
  eapply returns_bind; [apply enrich_results_stored|].
  intros contexts Hcontexts. apply returns_ret.
  eapply Forall_subseteq; [apply slice_to_subseteq|].
  apply Forall_forall. intros c [_ Hc]%list_elem_of_filter.
  rewrite Forall_forall in Hcontexts.
  destruct (Hcontexts c Hc) as (r & u & Hr & Hu & Hid & ->).
  exists u. unfold FusionLoop.all_good in Hresults.
  rewrite Forall_forall in Hresults.
  split; [done|]. split; [rewrite Hid; by apply Hresults|]. by simpl.
Qed.
End Flow.
End RetrievalFacts.

Module HybridRetrieverFacts.
Import Retrieval SessionFacts RetrievalFacts.

(** The database after [rollback]. *)
Definition rolled_back (db : DB) : DB := (rollback db).2.

Lemma search_reads {U : Unicode} {E : Externals} tokenizer chat_id tenant_id query
    top_k db :
  exists r, BM25.search tokenizer chat_id tenant_id query top_k db = (r, db).
Proof.
  destruct (search_good db chat_id tenant_id (fun _ => True)) with
    (tokenizer := tokenizer) (query := query) (top_k := top_k) as (r & Hrun & _).
  - intros. by apply Forall_true.
  - by exists r.
Qed.

(** C1, as the code has it: [retrieve] raises only for a mode outside
    the four retrieval modes, and then it raises [RetrievalError] around
    [InvalidRetrievalModeError] after one rollback.  With one of the four
    modes it returns a list and rolls nothing back, whatever the database
    holds, whether or not it can be reached, and whatever the vector store
    and the ranking library do: a failure of the BM25 search, the dense
    search, a neighbour lookup or the enrichment is caught where it occurs.
    In particular, when the BM25 search raises, sparse-only retrieval
    without expansion returns the empty list. *)
Theorem retrieve_outcome {U : Unicode} {E : Externals}
    (tokenizer : Tokenizer.MultilingualTokenizer) (chat_id tenant_id : string)
    (request : RetrievalRequest) (db : DB) :
  (valid_mode (mode request) ->
     exists contexts,
       retrieve tokenizer chat_id tenant_id request db = (Ok contexts, db))
  /\ (~ valid_mode (mode request) ->
        retrieve tokenizer chat_id tenant_id request db
        = (Raise (RetrievalError InvalidRetrievalModeError), rolled_back db))
  /\ (forall e,
        mode request = RetrievalMode.SPARSE_ONLY ->
        expand_with_neighbors request = false ->
        (BM25.search tokenizer chat_id tenant_id (query request) (top_k request) db).1
        = Raise e ->
        retrieve tokenizer chat_id tenant_id request db = (Ok [], db)).
Proof.
  split; [|split].
  - intros Hmode.
    destruct (retrieve_returns db chat_id tenant_id (fun _ => True)) with
      (tokenizer := tokenizer) (request := request) as (contexts & Hrun & _).
    + intros. by apply Forall_true.
    + done.
    + intros. by apply Forall_true.
    + done.
    + by exists contexts.
  - intros Hmode. unfold valid_mode in Hmode.
    unfold retrieve, try_, bind.
    repeat case_bool_decide; try (exfalso; apply Hmode; set_solver).
    reflexivity.
  - intros e Hmode Hexpand Hsearch.
    destruct (search_reads tokenizer chat_id tenant_id (query request)
                           (top_k request) db) as [r Hrun].
    rewrite Hrun in Hsearch. simpl in Hsearch. subst r.
    unfold retrieve, try_, bind. rewrite Hmode, Hexpand.
    rewrite bool_decide_eq_false_2 by done. rewrite bool_decide_eq_true_2 by done.
    unfold _sparse_only, sparse_retrieve, try_, bind. rewrite Hrun.
    simpl. unfold slice_to. rewrite filter_nil.
    destruct (0 <=? top_k request); by rewrite take_nil.
Qed.

#[local] Existing Instance Scenario.externals.

(** C1 as stated fails: nothing is indexed for the chat, the BM25 search
    raises [BM25IndexNotFoundError], and [retrieve] in sparse-only mode
    returns the empty list as its result, without rollback and without
    raising. *)
Lemma missing_index_is_swallowed :
  (BM25.search Scenario.tokenizer "chat-a" "acme" (py "Article 27") 10
               Scenario.db_without_indexes).1
  = Raise BM25IndexNotFoundError
  /\ retrieve Scenario.tokenizer "chat-a" "acme"
              (Scenario.sparse_request "Article 27") Scenario.db_without_indexes
     = (Ok [], Scenario.db_without_indexes)
  /\ rollbacks Scenario.db_without_indexes = 0%nat.
Proof. split; [|split]; vm_compute; reflexivity. Qed.




End HybridRetrieverFacts.

Module Witnesses.
#[local] Existing Instance Scenario.externals.


Lemma contains_edges_forest_witness :
  let units := [Scenario.a0; Scenario.a1; Scenario.a2] in
  NoDup (GraphEdge.target_id <$> GraphBuilder._create_hierarchy_edges units)
  /\ forall x, ~ tc (GraphBuilderFacts.edge_rel
                       (GraphBuilder._create_hierarchy_edges units)) x x.
Proof.
  intros units.
  destruct (GraphBuilderFacts.contains_edges_forest units) as (_ & _ & Hnd & Hacyclic).
  - apply (bool_decide_eq_true_1 _). vm_compute. reflexivity.
  - split; [exact Hnd|exact Hacyclic].
Defined.

Lemma get_neighbors_bfs_witness :
  exists found,
    GraphService.get_neighbors "chat-a" "acme" "a0" None 2 Scenario.db
    = (Ok found, Scenario.db)
    /\ NoDup (GraphServiceFacts.targets found).
Proof.
  destruct (GraphServiceFacts.get_neighbors_bfs "chat-a" "acme" "a0" None 2 Scenario.db
              (Scenario.graph_of "acme" "chat-a"
                                 [Scenario.a0; Scenario.a1; Scenario.a2]))
    as (found & Hrun & Hnd & _).
  - reflexivity.
  - vm_compute. reflexivity.
  - exists found. split; [exact Hrun|exact Hnd].
Defined.
End Witnesses.

Module IsolationWitness.
Import Retrieval HybridRetrieverFacts RetrievalFacts.
#[local] Existing Instance Scenario.externals.


End IsolationWitness.

Module TokenizerFacts.
Import Tokenizer.

Section TokenPattern.
Context {U : Unicode}.

(** The greedy run of [token_re] followed by its closing [\b]: what is
    left of [s] after the longest run of token characters that ends at a
    word boundary. *)
Fixpoint run_end (s : str) : option str :=
  match s with
  | c :: s' =>
    if token_class c
    then match run_end s' with
         | Some rest => Some rest
         | None => if at_boundary (Some c) s' then Some s' else None
         end
    else None
  | [] => None
  end.

Lemma re_match_token prev s :
  re_match token_re prev s = if at_boundary prev s then run_end s else None.
Proof.
  unfold token_re. simpl. destruct (at_boundary prev s); [|done].
  induction s as [|c s IH]; simpl; [done|].
  destruct (token_class c); [|done]. rewrite IH.
  destruct (run_end s); [done|]. by destruct (at_boundary (Some c) s).
Qed.

(** A token: a non-empty run of token characters that begins and ends
    with a word character. *)
Definition well_shaped (tok : str) : Prop :=
  Forall (fun c => token_class c = true) tok
  /\ (exists c, head tok = Some c /\ is_word c = true)
  /\ (exists c, last tok = Some c /\ is_word c = true).

Lemma is_word_token_class c : is_word c = true -> token_class c = true.
Proof. intros Hc. unfold token_class. by rewrite Hc. Qed.

(** After a word character the run never fails. *)
Lemma run_end_word w r : is_word w = true -> run_end (w :: r) <> None.
Proof.
  revert w. induction r as [|c r IH]; intros w Hw; simpl.
  - rewrite (is_word_token_class w Hw). unfold at_boundary. simpl. by rewrite Hw.
  - rewrite (is_word_token_class w Hw).
    destruct (token_class c) eqn:Hclass.
    + destruct (run_end r) as [rest|] eqn:Hrun; [done|].
      destruct (at_boundary (Some c) r) eqn:Hb; [done|].
      unfold at_boundary at 1. simpl. rewrite Hw.
      destruct (is_word c) eqn:Hc; [|done].
      specialize (IH c Hc). simpl in IH. by rewrite Hclass, Hrun, Hb in IH.
    + unfold at_boundary. simpl. rewrite Hw.
      destruct (is_word c) eqn:Hc; [|done].
      by rewrite (is_word_token_class c Hc) in Hclass.
Qed.

Lemma run_end_spec s rest :
  run_end s = Some rest ->
  exists tok,
    s = tok ++ rest /\ tok <> []
    /\ Forall (fun c => token_class c = true) tok
    /\ (exists c, last tok = Some c /\ is_word c = true)
    /\ run_end rest = None.
Proof.
  revert rest. induction s as [|c s IH]; intros rest; simpl; [done|].
  destruct (token_class c) eqn:Hclass; [|done].
  destruct (run_end s) as [rest'|] eqn:Hrun.
  - intros [= ->]. destruct (IH rest eq_refl) as (tok & -> & Hne & Hall & Hlast & Hdead).
    exists (c :: tok). split; [done|]. split; [done|]. split; [by constructor|].
    split; [|done]. destruct Hlast as (w & Hlast & Hw). exists w. split; [|done].
    destruct tok; [done|]. by rewrite last_cons, Hlast.
  - destruct (at_boundary (Some c) s) eqn:Hb; [|done]. intros [= ->].
    exists [c]. split; [done|]. split; [done|]. split; [by repeat constructor|].
    split; [|done]. exists c. split; [done|].
    destruct (is_word c) eqn:Hc; [done|]. exfalso.
    unfold at_boundary in Hb. simpl in Hb. rewrite Hc in Hb. simpl in Hb.
    destruct rest as [|w r]; [done|]. simpl in Hb.
    by apply (run_end_word w r Hb).
Qed.

(** The scan is either after a non-word character, or inside a run that
    has no boundary left. *)
Definition scan_inv (prev : option char) (s : str) : Prop :=
  from_option is_word false prev = false \/ run_end s = None.

Lemma findall_from_cons fuel re prev c s :
  findall_from (S fuel) re prev (c :: s)
  = match re_match re prev (c :: s) with
    | Some rest =>
      let tok := take (length (c :: s) - length rest) (c :: s) in
      match tok with
      | [] => findall_from fuel re (Some c) s
      | _ => tok :: findall_from fuel re (last tok) rest
      end
    | None => findall_from fuel re (Some c) s
    end.
Proof. reflexivity. Qed.

Lemma findall_shape fuel prev s :
  scan_inv prev s ->
  Forall (fun tok => well_shaped tok /\ tok ⊆ s) (findall_from fuel token_re prev s).
Proof.
  revert prev s. induction fuel as [|fuel IH]; intros prev s Hinv; [constructor|].
  destruct s as [|c s]; [constructor|].
  rewrite findall_from_cons, re_match_token.
  assert (Hskip : scan_inv (Some c) s \/ is_word c = true).
  { destruct (is_word c) eqn:Hc; [by right|]. left. by left. }
  assert (Hnext : is_word c = false ->
            Forall (fun tok => well_shaped tok /\ tok ⊆ c :: s)
                   (findall_from fuel token_re (Some c) s)).
  { intros Hc. eapply Forall_impl; [apply IH; by left|].
    intros tok [Hshape Hsub]. split; [done|]. set_solver. }
  destruct (at_boundary prev (c :: s)) eqn:Hb.
  - destruct (run_end (c :: s)) as [rest|] eqn:Hrun.
    + destruct Hinv as [Hprev|Hdead]; [|congruence].
      assert (Hc : is_word c = true).
      { unfold at_boundary in Hb. rewrite Hprev in Hb. by simpl in Hb. }
      destruct (run_end_spec _ _ Hrun) as (tok & Heq & Hne & Hall & Hlast & Hdead).
      assert (Htake : take (length (c :: s) - length rest) (c :: s) = tok).
      { rewrite Heq. by rewrite length_app, Nat.add_sub, take_app_length. }
      cbv zeta. rewrite Htake.
      destruct tok as [|t tok]; [done|].
      assert (t = c) as -> by (simpl in Heq; congruence).
      constructor.
      * split; [|rewrite Heq; set_solver]. split; [done|]. split; [|done].
        by exists c.
      * eapply Forall_impl; [apply IH; by right|].
        intros tok' [Hshape Hsub]. split; [done|]. rewrite Heq. set_solver.
    + destruct (is_word c) eqn:Hc; [by apply run_end_word in Hrun|by apply Hnext].
  - destruct (is_word c) eqn:Hc; [|by apply Hnext].
    destruct Hinv as [Hprev|Hdead]; [|by apply run_end_word in Hdead].
    unfold at_boundary in Hb. rewrite Hprev in Hb. simpl in Hb. congruence.
Qed.

Lemma findall_from_nil fuel re prev : findall_from fuel re prev [] = [].
Proof. by destruct fuel. Qed.

Lemma lower_fixed s : Forall (fun c => to_lower c = [c]) s -> lower s = s.
Proof.
  unfold lower. induction 1 as [|c s Hc _ IH]; [done|].
  rewrite bind_cons, Hc, IH. done.
Qed.

Lemma filter_all {A} (P : A -> Prop) `{forall x, Decision (P x)} (l : list A) :
  Forall P l -> filter P l = l.
Proof.
  induction 1 as [|x l Hx _ IH]; [done|].
  by rewrite filter_cons, decide_True, IH.
Qed.

Context {L : UnicodeLaws U}.

Lemma is_word_space : is_word 32%N = false.
Proof. unfold is_word. by rewrite is_alnum_space. Qed.

Lemma token_class_space : token_class 32%N = false.
Proof. unfold token_class. by rewrite is_word_space. Qed.

Lemma is_space_word c : is_word c = true -> is_space c = false.
Proof.
  unfold is_word. intros [Hc|Hc%N.eqb_eq]%orb_true_iff.
  - by apply is_space_alnum.
  - subst c. apply is_space_underscore.
Qed.

(** What follows a token in a joined text: nothing, or a space. *)
Definition token_end (rest : str) : Prop := rest = [] \/ exists r, rest = 32%N :: r.

Lemma run_end_token_end rest : token_end rest -> run_end rest = None.
Proof. intros [->|[r ->]]; simpl; [done|]. by rewrite token_class_space. Qed.

Lemma run_end_token tok rest :
  tok <> [] -> Forall (fun c => token_class c = true) tok ->
  (exists c, last tok = Some c /\ is_word c = true) ->
  token_end rest ->
  run_end (tok ++ rest) = Some rest.
Proof.
  intros Hne Hall Hlast Hrest.
  induction tok as [|c tok IH]; [done|].
  apply Forall_cons in Hall as [Hc Hall]. simpl. rewrite Hc.
  destruct tok as [|c' tok].
  - simpl. rewrite (run_end_token_end rest Hrest).
    destruct Hlast as (w & [= <-] & Hw).
    unfold at_boundary. simpl. rewrite Hw.
    destruct Hrest as [->|[r ->]]; simpl; [done|]. by rewrite is_word_space.
  - rewrite IH; [done|done|done|].
    destruct Hlast as (w & Hlast & Hw). exists w. by rewrite last_cons_cons in Hlast.
Qed.

(** Scanning the tokens joined by single spaces gives the tokens back. *)
Lemma findall_join tokens fuel prev :
  Forall well_shaped tokens ->
  (length (join [32%N] tokens) <= fuel)%nat ->
  from_option is_word false prev = false ->
  findall_from fuel token_re prev (join [32%N] tokens) = tokens.
Proof.
  revert fuel prev.
  induction tokens as [|tok tokens IH]; intros fuel prev Hshape Hfuel Hprev.
  - apply findall_from_nil.
  - apply Forall_cons in Hshape as [(Hall & (c & Hhead & Hc) & Hlast) Hshape].
    set (rest := match tokens with [] => [] | _ => 32%N :: join [32%N] tokens end).
    assert (Hjoin : join [32%N] (tok :: tokens) = tok ++ rest).
    { unfold rest. destruct tokens; simpl; [by rewrite app_nil_r|done]. }
    assert (Hrest : token_end rest).
    { unfold rest. destruct tokens; [by left|right; by eexists]. }
    rewrite Hjoin in Hfuel |- *. rewrite length_app in Hfuel.
    destruct tok as [|c0 tok]; [done|]. injection Hhead as ->.
    destruct fuel as [|fuel]; [simpl in Hfuel; lia|].
    change ((c :: tok) ++ rest) with (c :: (tok ++ rest)).
    rewrite findall_from_cons, re_match_token.
    assert (Hb : at_boundary prev (c :: tok ++ rest) = true).
    { unfold at_boundary. simpl. by rewrite Hprev, Hc. }
    rewrite Hb.
    change (c :: tok ++ rest) with ((c :: tok) ++ rest).
    rewrite run_end_token by done.
    cbv zeta.
    match goal with
    | |- context [take ?n ?l] => assert (Htake : take n l = c :: tok)
    end.
    { by rewrite length_app, Nat.add_sub, take_app_length. }
    rewrite Htake. f_equal.
    unfold rest in *. destruct tokens as [|tok' tokens].
    + apply findall_from_nil.
    + simpl in Hfuel. destruct fuel as [|fuel]; [lia|].
      rewrite findall_from_cons, re_match_token.
      match goal with
      | |- context [run_end ?r] =>
        rewrite (run_end_token_end r) by (right; by eexists)
      end.
      match goal with
      | |- context [if ?b then None else None] => destruct b
      end; (apply IH; [done|simpl in *; lia|simpl; apply is_word_space]).
Qed.

Lemma join_lowered tokens :
  Forall (Forall (fun c => to_lower c = [c])) tokens ->
  Forall (fun c => to_lower c = [c]) (join [32%N] tokens).
Proof.
  induction 1 as [|tok tokens Htok Htokens IH]; [constructor|].
  destruct tokens as [|tok' tokens]; [done|].
  change (join [32%N] (tok :: tok' :: tokens))
    with (tok ++ [32%N] ++ join [32%N] (tok' :: tokens)).
  apply Forall_app. split; [done|]. apply Forall_app. split; [|done].
  constructor; [apply to_lower_space|constructor].
Qed.

(** Tokens that passed the filters once pass them again. *)
Lemma retokenize (self : MultilingualTokenizer) (tokens : list str) :
  Forall well_shaped tokens ->
  Forall (Forall (fun c => to_lower c = [c])) tokens ->
  (remove_stopwords self = true -> Forall (fun t => t ∉ stopwords self) tokens) ->
  Forall (fun t => (2 <= length t)%nat \/ isdigit t = true) tokens ->
  tokenize self (join [32%N] tokens) = tokens.
Proof.
  intros Hshape Hlower Hstop Hlong. unfold tokenize.
  destruct tokens as [|tok tokens]; [done|].
  assert (Hnonempty : bool_decide (join [32%N] (tok :: tokens) = [])
                      || strip_is_empty (join [32%N] (tok :: tokens)) = false).
  { apply Forall_cons in Hshape as [(_ & (c & Hhead & Hc) & _) _].
    assert (Hjoin : exists r, join [32%N] (tok :: tokens) = c :: r).
    { destruct tok as [|c0 tok]; [done|]. injection Hhead as ->.
      destruct tokens; simpl; by eexists. }
    destruct Hjoin as [r Hjoin].
    assert (Hblank : bool_decide (c :: r = []) || strip_is_empty (c :: r) = false).
    { rewrite bool_decide_eq_false_2 by done. simpl. by rewrite (is_space_word c Hc). }
    rewrite <- Hjoin in Hblank. exact Hblank. }
  rewrite Hnonempty. rewrite (lower_fixed _ (join_lowered _ Hlower)).
  unfold findall. rewrite findall_join; [|done|done|done].
  destruct (remove_stopwords self).
  - rewrite (filter_all _ _ (Hstop eq_refl)). by apply filter_all.
  - by apply filter_all.
Qed.

(** C6: [tokenize] is a function of the tokenizer and the text, and
    re-tokenizing its own output, joined by single spaces, returns the same
    tokens.  The output is lower-cased, free of the tokenizer's stop words
    when it removes them, and free of tokens shorter than two characters
    that are not numeric.  The character database is any that satisfies
    [UnicodeLaws]; the stop words are any list. *)
Theorem tokenize_idempotent (self : MultilingualTokenizer) (text : str) :
  let tokens := tokenize self text in
  tokenize self (join (py " ") tokens) = tokens
  /\ Forall (fun t => lower t = t
                      /\ (remove_stopwords self = true -> t ∉ stopwords self)
                      /\ ((2 <= length t)%nat \/ isdigit t = true)) tokens.
Proof.
  intros tokens. change (py " ") with [32%N].
  assert (Hfacts : Forall well_shaped tokens
            /\ Forall (Forall (fun c => to_lower c = [c])) tokens
            /\ (remove_stopwords self = true ->
                  Forall (fun t => t ∉ stopwords self) tokens)
            /\ Forall (fun t => (2 <= length t)%nat \/ isdigit t = true) tokens).
  { unfold tokens, tokenize.
    destruct (bool_decide (text = []) || strip_is_empty text).
    { repeat split; intros; constructor. }
    pose proof (findall_shape (length (lower text)) None (lower text)) as Hscan.
    fold (findall token_re (lower text)) in Hscan.
    specialize (Hscan (or_introl eq_refl)).
    set (found := findall token_re (lower text)) in *.
    set (kept := if remove_stopwords self
                 then filter (fun t => t ∉ stopwords self) found else found).
    assert (Hkept : forall t, t ∈ kept -> t ∈ found).
    { intros t. unfold kept. destruct (remove_stopwords self); [|done].
      by intros [_ ?]%list_elem_of_filter. }
    rewrite Forall_forall in Hscan.
    repeat split.
    - apply Forall_forall. intros t [_ Ht%Hkept]%list_elem_of_filter.
      by apply Hscan.
    - apply Forall_forall. intros t [_ Ht%Hkept]%list_elem_of_filter.
      apply Forall_forall. intros c Hc.
      destruct (Hscan t Ht) as [_ Hsub]. apply Hsub in Hc.
      unfold lower in Hc. apply list_elem_of_bind in Hc as (c0 & Hc & _).
      by eapply to_lower_stable.
    - intros Hremove. apply Forall_forall.
      intros t [_ Ht]%list_elem_of_filter. unfold kept in Ht.
      rewrite Hremove in Ht. by apply list_elem_of_filter in Ht as [? _].
    - apply Forall_forall. by intros t [? _]%list_elem_of_filter. }
  destruct Hfacts as (Hshape & Hlower & Hstop & Hlong).
  split; [by apply retokenize|].
  apply Forall_forall. intros t Ht.
  rewrite Forall_forall in Hlower, Hlong.
  split; [apply lower_fixed; by apply Hlower|].
  split; [|by apply Hlong].
  intros Hremove. specialize (Hstop Hremove). rewrite Forall_forall in Hstop.
  by apply Hstop.
Qed.
End TokenPattern.
End TokenizerFacts.

Module BasicUnicodeFacts.

(** Beyond the Cyrillic block the database has no letters and no
    digits. *)
Lemma within_above lo hi c : (hi < c)%N -> within lo hi c = false.
Proof.
  intros Hc. unfold within. apply andb_false_iff. right. by apply N.leb_gt.
Qed.

Lemma basic_is_upper_above c : (1280 <= c)%N -> basic_is_upper c = false.
Proof.
  intros Hc. unfold basic_is_upper.
  rewrite !within_above by lia. by rewrite (proj2 (N.eqb_neq c 1216)) by lia.
Qed.

Lemma basic_is_alnum_above c : (1280 <= c)%N -> basic_is_alnum c = false.
Proof.
  intros Hc. unfold basic_is_alnum, basic_is_lower, basic_is_digit.
  rewrite basic_is_upper_above by done.
  rewrite !within_above by lia.
  by rewrite !(fun k H => proj2 (N.eqb_neq c k) H) by lia.
Qed.

Lemma basic_to_lower_above c : (1280 <= c)%N -> basic_to_lower c = [c].
Proof.
  intros Hc. unfold basic_to_lower.
  rewrite basic_is_upper_above by done.
  rewrite !within_above by lia. by rewrite (proj2 (N.eqb_neq c 1216)) by lia.
Qed.

(** A property of code points that holds beyond the Cyrillic block and is
    checked below it holds everywhere. *)
Lemma by_cases (check : char -> bool) (P : char -> Prop) :
  (forall c, check c = true -> P c) ->
  (forall c, (1280 <= c)%N -> P c) ->
  forallb (fun n => check (N.of_nat n)) (seq 0 1280) = true ->
  forall c, P c.
Proof.
  intros Hcheck Habove Hall c.
  destruct (N.le_gt_cases 1280 c) as [Hc|Hc]; [by apply Habove|].
  apply Hcheck. rewrite forallb_forall in Hall.
  rewrite <- (N2Nat.id c). apply Hall, in_seq. lia.
Qed.

#[export] Instance basic_unicode_laws : UnicodeLaws basic_unicode.
Proof.
  split.
  - intros c. simpl.
    apply (by_cases
             (fun c => forallb (fun c' => bool_decide (basic_to_lower c' = [c']))
                               (basic_to_lower c))
             (fun c => forall c', c' ∈ basic_to_lower c -> basic_to_lower c' = [c'])).
    + intros c0 Hc0 c' Hc'. rewrite forallb_forall in Hc0.
      apply list_elem_of_In, Hc0 in Hc'. by apply bool_decide_eq_true in Hc'.
    + intros c0 Hc0 c'. rewrite basic_to_lower_above by done.
      intros ->%list_elem_of_singleton. by apply basic_to_lower_above.
    + vm_compute. reflexivity.
  - reflexivity.
  - reflexivity.
  - simpl.
    apply (by_cases (fun c => implb (basic_is_alnum c) (negb (basic_is_space c)))
                    (fun c => basic_is_alnum c = true -> basic_is_space c = false)).
    + intros c Hc Halnum. rewrite Halnum in Hc. simpl in Hc.
      by apply negb_true_iff in Hc.
    + intros c Hc. by rewrite basic_is_alnum_above.
    + vm_compute. reflexivity.
  - reflexivity.
Qed.

Lemma tokenize_idempotent_witness :
  let tokens := Tokenizer.tokenize Scenario.tokenizer (py "The  Payment-terms of Article 27, §x") in
  Tokenizer.tokenize Scenario.tokenizer (join (py " ") tokens) = tokens.
Proof.
  intros tokens.
  exact (proj1 (TokenizerFacts.tokenize_idempotent (L := basic_unicode_laws)
                  Scenario.tokenizer (py "The  Payment-terms of Article 27, §x"))).
Defined.
End BasicUnicodeFacts.

Module FusionProperties.
Import Retrieval DictFacts SortFacts FusionLoop.

(** ** Keys of a dictionary *)

Section Keys.
Context {K V : Type} `{EqDecision K}.
Implicit Types (d : dict K V).

Lemma dict_get_None d k : dict_get d k = None <-> k ∉ d.*1.
Proof.
  induction d as [|[k0 v0] d IH]; simpl.
  - split; [intros _; apply not_elem_of_nil|done].
  - rewrite not_elem_of_cons. destruct (decide (k0 = k)) as [->|Hne].
    + split; [done|]. by intros [? _].
    + rewrite IH. simpl. split; [intros ?; split; [by intros ->|done]|by intros [_ ?]].
Qed.

Lemma dict_keys_set d k v :
  (dict_set d k v).*1 = if decide (k ∈ d.*1) then d.*1 else d.*1 ++ [k].
Proof.
  induction d as [|[k0 v0] d IH].
  - destruct (decide (k ∈ _)) as [Hin|]; [by apply elem_of_nil in Hin|done].
  - cbn [dict_set]. destruct (decide (k0 = k)) as [->|Hne].
    + rewrite !fmap_cons. cbn [fst].
      by rewrite decide_True by (apply elem_of_cons; by left).
    + rewrite !fmap_cons. cbn [fst]. rewrite IH.
      destruct (decide (k ∈ d.*1)) as [Hin|Hnot].
      * by rewrite decide_True by (apply elem_of_cons; by right).
      * rewrite decide_False; [done|].
        rewrite not_elem_of_cons. split; [by intros ->|done].
Qed.

Lemma dict_get_lookup d k v i :
  NoDup d.*1 -> d !! i = Some (k, v) -> dict_get d k = Some v.
Proof.
  revert i. induction d as [|[k0 v0] d IH]; intros i Hnd Hi; [done|].
  apply NoDup_cons in Hnd as [Hk0 Hnd]. simpl.
  destruct i as [|i]; simpl in Hi.
  - injection Hi as -> ->. by rewrite decide_True.
  - destruct (decide (k0 = k)) as [->|Hne]; [|by eapply IH].
    exfalso. apply Hk0. apply list_elem_of_fmap. exists (k, v). split; [done|].
    by eapply list_elem_of_lookup_2.
Qed.
End Keys.

(** ** The order in which keys are first seen *)

Definition first_seen (ids : list string) : list string := insertion_order ids.

Lemma first_seen_snoc ids id :
  first_seen (ids ++ [id])
  = if decide (id ∈ first_seen ids) then first_seen ids else first_seen ids ++ [id].
Proof. unfold first_seen, insertion_order. by rewrite foldl_app. Qed.

Lemma elem_of_first_seen ids id : id ∈ first_seen ids <-> id ∈ ids.
Proof.
  induction ids as [|x ids IH] using rev_ind.
  - done.
  - rewrite first_seen_snoc, elem_of_app, list_elem_of_singleton.
    destruct (decide (x ∈ first_seen ids)) as [Hin|Hnot].
    + rewrite IH. split; [tauto|]. intros [?| ->]; [done|]. by apply IH.
    + rewrite elem_of_app, list_elem_of_singleton, IH. done.
Qed.

Lemma NoDup_first_seen ids : NoDup (first_seen ids).
Proof.
  induction ids as [|x ids IH] using rev_ind.
  - constructor.
  - rewrite first_seen_snoc. destruct (decide (x ∈ first_seen ids)); [done|].
    apply NoDup_app. split; [done|]. split; [|apply NoDup_singleton].
    intros y Hy ->%list_elem_of_singleton. done.
Qed.

(** ** The inner loop *)

(** One run of the body of the inner loop: the weight of the list, the
    rank of the item in its list, and the item. *)
Definition occurrence : Type := Q * Z * result.

Definition occ_id (o : occurrence) : string := atomic_unit_id o.2.

Definition contribution (self : ReciprocalRankFusion) (o : occurrence) : Q :=
  (o.1.1 / inject_Z (k self + o.1.2))%Q.

Definition of_id (id : string) (occ : list occurrence) : list occurrence :=
  filter (fun o => occ_id o = id) occ.

Definition score_of (self : ReciprocalRankFusion) (occ : list occurrence)
    (id : string) : Q :=
  sum (contribution self <$> of_id id occ).

Definition first_item (occ : list occurrence) (id : string) : option result :=
  snd <$> head (of_id id occ).

(** The two dictionaries after the occurrences [occ]. *)
Record fused_upto (self : ReciprocalRankFusion) (occ : list occurrence)
    (state : fusion_state) : Prop := {
  upto_keys : state.1.*1 = first_seen (occ_id <$> occ);
  upto_scores : forall id,
    id ∈ occ_id <$> occ -> dict_get state.1 id = Some (score_of self occ id);
  upto_items : forall id, dict_get state.2 id = first_item occ id
}.

Lemma sum_snoc l c : sum (l ++ [c]) = (sum l + c)%Q.
Proof. unfold sum. by rewrite foldl_app. Qed.

Lemma of_id_absent id occ : id ∉ occ_id <$> occ -> of_id id occ = [].
Proof.
  intros Hnot. unfold of_id. induction occ as [|o occ IH]; [done|].
  rewrite fmap_cons, not_elem_of_cons in Hnot. destruct Hnot as [Hne Hnot].
  rewrite filter_cons_False by (simpl; congruence). by apply IH.
Qed.

Lemma upto_score_default self occ state id :
  fused_upto self occ state ->
  default 0%Q (dict_get state.1 id) = score_of self occ id.
Proof.
  intros [Hkeys Hscores _].
  destruct (decide (id ∈ occ_id <$> occ)) as [Hin|Hnot].
  - by rewrite Hscores.
  - assert (dict_get state.1 id = None) as ->.
    { apply dict_get_None. rewrite Hkeys. by rewrite elem_of_first_seen. }
    unfold score_of. by rewrite of_id_absent.
Qed.

Lemma fuse_item_upto self weight rank item occ state :
  k self + rank <> 0 ->
  fused_upto self occ state ->
  exists state',
    fuse_item self weight state (rank, item) = Ok state'
    /\ fused_upto self (occ ++ [(weight, rank, item)]) state'.
Proof.
  intros Hrank Hinv. destruct state as [scores data]. unfold fuse_item.
  rewrite divide_nonzero; last first.
  { unfold Qeq, inject_Z. simpl. lia. }
  simpl. eexists. split; [done|].
  pose proof (upto_score_default self occ _ (atomic_unit_id item) Hinv) as Hdefault.
  destruct Hinv as [Hkeys Hscores Hitems]. simpl in *.
  split; simpl.
  - rewrite dict_keys_set, fmap_app. cbn [fmap list_fmap].
    rewrite first_seen_snoc, Hkeys. done.
  - intros id Hid. rewrite dict_get_set. unfold score_of, of_id.
    rewrite filter_app, fmap_app.
    destruct (decide (atomic_unit_id item = id)) as [<-|Hne].
    + rewrite filter_cons_True by done. rewrite filter_nil. simpl.
      rewrite sum_snoc. f_equal. by rewrite Hdefault.
    + rewrite filter_cons_False by done. rewrite filter_nil, app_nil_r.
      apply Hscores. rewrite fmap_app, elem_of_app in Hid.
      cbn [fmap list_fmap] in Hid.
      destruct Hid as [?|Hid%list_elem_of_singleton]; [done|].
      by destruct Hne.
  - intros id. unfold first_item, of_id. rewrite filter_app.
    pose proof (Hitems (atomic_unit_id item)) as Hfirst.
    unfold first_item, of_id in Hfirst.
    destruct (dict_get data (atomic_unit_id item)) as [x|] eqn:Hdata.
    + rewrite Hitems. unfold first_item, of_id.
      destruct (decide (atomic_unit_id item = id)) as [<-|Hne].
      * destruct (filter _ occ); [done|done].
      * rewrite filter_cons_False by done. by rewrite filter_nil, app_nil_r.
    + rewrite dict_get_set.
      destruct (decide (atomic_unit_id item = id)) as [<-|Hne].
      * destruct (filter _ occ); [|done].
        by rewrite filter_cons_True by done.
      * rewrite filter_cons_False by done. rewrite filter_nil, app_nil_r.
        apply Hitems.
Qed.

(** The occurrences of one ranked list, with ranks from [start]. *)
Definition occurrences_of (weight : Q) (start : nat) (l : list result)
  : list occurrence :=
  (fun e : Z * result => (weight, e.1, e.2))
    <$> zip (Z.of_nat <$> seq start (length l)) l.

Lemma fuse_items_upto self weight items start occ state :
  0 < k self + Z.of_nat start ->
  fused_upto self occ state ->
  exists state',
    for_each (fuse_item self weight) state
             (zip (Z.of_nat <$> seq start (length items)) items) = Ok state'
    /\ fused_upto self (occ ++ occurrences_of weight start items) state'.
Proof.
  revert start occ state.
  induction items as [|item items IH]; intros start occ state Hstart Hinv.
  - exists state. split; [done|]. unfold occurrences_of. simpl.
    by rewrite app_nil_r.
  - destruct (fuse_item_upto self weight (Z.of_nat start) item occ state)
      as (state' & Hstep & Hinv'); [lia|done|].
    destruct (IH (S start) (occ ++ [(weight, Z.of_nat start, item)]) state')
      as (state'' & Hrun & Hinv''); [lia|exact Hinv'|].
    exists state''. split.
    + simpl. rewrite Hstep. simpl. exact Hrun.
    + unfold occurrences_of in *. simpl. rewrite <- app_assoc in Hinv''. exact Hinv''.
Qed.

(** ** The outer loop *)

(** The occurrences of the ranked lists, each with its weight. *)
Fixpoint occurrences (weights : list Q) (lists : list (list result))
    {struct lists} : list occurrence :=
  match lists, weights with
  | l :: lists', w :: weights' => occurrences_of w 1 l ++ occurrences weights' lists'
  | _, _ => []
  end.

Lemma fuse_lists_upto self weights lists i rest occ state :
  0 <= k self ->
  drop i weights = rest ->
  (length lists <= length rest)%nat ->
  fused_upto self occ state ->
  exists state',
    for_each (fuse_list self weights) state (zip (seq i (length lists)) lists)
    = Ok state'
    /\ fused_upto self (occ ++ occurrences rest lists) state'.
Proof.
  intros Hk. revert i rest occ state.
  induction lists as [|l lists IH]; intros i rest occ state Hdrop Hlen Hinv.
  - exists state. split; [done|]. simpl. by rewrite app_nil_r.
  - destruct rest as [|w rest]; [simpl in Hlen; lia|].
    assert (Hw : weights !! i = Some w).
    { rewrite <- (Nat.add_0_r i), <- lookup_drop, Hdrop. done. }
    destruct (fuse_items_upto self w l 1 occ state) as (state' & Hrun & Hinv');
      [lia|done|].
    destruct (IH (S i) rest (occ ++ occurrences_of w 1 l) state')
      as (state'' & Hrun' & Hinv''); [|simpl in Hlen; lia|done|].
    { apply (drop_S _ _ _) in Hw. rewrite Hdrop in Hw. congruence. }
    exists state''. split.
    + simpl. unfold item. rewrite Hw. simpl. unfold enumerate1. rewrite Hrun.
      simpl. exact Hrun'.
    + simpl. rewrite app_assoc. exact Hinv''.
Qed.

Lemma occurrences_of_ids weight start l :
  occ_id <$> occurrences_of weight start l = atomic_unit_id <$> l.
Proof.
  unfold occurrences_of. revert start.
  induction l as [|r l IH]; intros start; [done|].
  simpl. f_equal. apply IH.
Qed.

Lemma occurrences_ids weights lists :
  (length lists <= length weights)%nat ->
  occ_id <$> occurrences weights lists = atomic_unit_id <$> concat lists.
Proof.
  revert weights. induction lists as [|l lists IH]; intros weights Hlen; [done|].
  destruct weights as [|w weights]; [simpl in Hlen; lia|].
  simpl. rewrite !fmap_app, occurrences_of_ids, IH; [done|simpl in Hlen; lia].
Qed.

(** ** Normalising the weights *)

Lemma mapM_cons_except {A B} (f : A -> except B) x l :
  mapM f (x :: l) = f x ≫= fun y => mapM f l ≫= fun ys => mret (y :: ys).
Proof. done. Qed.

Lemma mapM_divide ws total :
  ~ (total == 0)%Q ->
  mapM (fun w => divide w total) ws = Ok ((fun w => (w / total)%Q) <$> ws).
Proof.
  intros Htotal. induction ws as [|w ws IH]; [done|].
  rewrite mapM_cons_except, divide_nonzero by done. simpl. by rewrite IH.
Qed.

Lemma mapM_divide_zero w ws total :
  (total == 0)%Q -> mapM (fun w => divide w total) (w :: ws) = Raise ZeroDivisionError.
Proof.
  intros Htotal. rewrite mapM_cons_except. unfold divide.
  apply Qeq_bool_iff in Htotal. by rewrite Htotal.
Qed.

(** ** The results *)

(** What [fuse] makes of an entry of [rrf_scores]. *)
Definition fused_from (occ : list occurrence) (entry : string * Q) (f : result)
  : Prop :=
  atomic_unit_id f = entry.1
  /\ score f = entry.2
  /\ source f = "fusion"%string
  /\ exists first, first_item occ entry.1 = Some first
                   /\ metadata f = metadata first
                   /\ graph_distance f = graph_distance first.

Lemma first_item_id occ id first :
  first_item occ id = Some first -> atomic_unit_id first = id.
Proof.
  unfold first_item. destruct (head (of_id id occ)) as [o|] eqn:Hhead; [|done].
  intros [= <-]. apply head_Some_elem_of in Hhead.
  apply list_elem_of_filter in Hhead as [Hid _]. exact Hid.
Qed.

Lemma first_item_present occ id :
  id ∈ occ_id <$> occ -> is_Some (first_item occ id).
Proof.
  intros (o & -> & Ho)%list_elem_of_fmap. unfold first_item.
  destruct (of_id (occ_id o) occ) as [|o' l] eqn:Hof; [|by eexists].
  assert (o ∈ of_id (occ_id o) occ) as Hin by (by apply list_elem_of_filter).
  rewrite Hof in Hin. by apply elem_of_nil in Hin.
Qed.

Lemma mapM_fused_from occ data entries :
  (forall id, dict_get data id = first_item occ id) ->
  (forall entry, entry ∈ entries -> entry.1 ∈ occ_id <$> occ) ->
  exists fused,
    mapM (fused_result data) entries = Ok fused
    /\ Forall2 (fused_from occ) entries fused.
Proof.
  intros Hdata. induction entries as [|[key s] entries IH]; intros Hkeys.
  - exists []. split; [done|constructor].
  - destruct (first_item_present occ key) as [first Hfirst].
    { apply (Hkeys (key, s)). by apply elem_of_cons; left. }
    destruct IH as (fused & Hrest & Hfused).
    { intros e He. apply Hkeys. by apply elem_of_cons; right. }
    rewrite mapM_cons_except.
    assert (Hhead : fused_result data (key, s)
                    = Ok {| atomic_unit_id := atomic_unit_id first;
                            score := s;
                            source := "fusion";
                            metadata := metadata first;
                            graph_distance := graph_distance first |}).
    { unfold fused_result. cbn [fst snd]. by rewrite Hdata, Hfirst. }
    rewrite Hhead, Hrest. simpl. eexists. split; [done|].
    constructor; [|done]. repeat split; simpl.
    + by eapply first_item_id.
    + exists first. done.
Qed.



(** What [fuse] returns, in terms of the occurrences it has processed. *)
Lemma fuse_spec self lists ws :
  lists <> [] ->
  0 <= k self ->
  (length lists <= length ws)%nat ->
  ~ (sum ws == 0)%Q ->
  let occ := occurrences ((fun w => (w / sum ws)%Q) <$> ws) lists in
  exists (scores : dict string Q) fused,
    fuse self lists (Some ws) = Ok fused
    /\ scores.*1 = first_seen (atomic_unit_id <$> concat lists)
    /\ (forall entry, entry ∈ scores -> entry.2 = score_of self occ entry.1)
    /\ Forall2 (fused_from occ) (sorted_desc snd scores) fused.
Proof.
  intros Hlists Hk Hlen Hsum occ.
  destruct lists as [|l lists]; [done|]. clear Hlists.
  set (ls := l :: lists) in *.
  change (fuse self ls (Some ws)) with
    (mapM (fun w => divide w (sum ws)) ws ≫= fun weights =>
     for_each (fuse_list self weights) ([], []) (zip (range (length ls)) ls)
       ≫= fun '(rrf_scores, item_data) =>
     mapM (fused_result item_data) (sorted_desc snd rrf_scores)).
  rewrite mapM_divide by done. cbn [mbind except_bind].
  destruct (fuse_lists_upto self ((fun w => (w / sum ws)%Q) <$> ws) ls 0
              ((fun w => (w / sum ws)%Q) <$> ws) [] ([], []))
    as ([scores data] & Hrun & Hinv); [done|done|by rewrite length_fmap| |].
  { split; [done| |done]. intros id Hid. by apply elem_of_nil in Hid. }
  unfold range. rewrite Hrun. cbn [mbind except_bind].
  rewrite app_nil_l in Hinv. fold occ in Hinv.
  destruct Hinv as [Hkeys Hscores Hitems]. cbn [fst snd] in Hkeys, Hscores, Hitems.
  assert (Hids : occ_id <$> occ = atomic_unit_id <$> concat ls).
  { apply occurrences_ids. by rewrite length_fmap. }
  destruct (mapM_fused_from occ data (sorted_desc snd scores))
    as (fused & Hfused & Hrel); [done| |].
  { intros entry Hentry. rewrite sorted_desc_Permutation in Hentry.
    apply elem_of_first_seen. rewrite <- Hkeys.
    apply list_elem_of_fmap. by exists entry. }
  exists scores, fused. split; [done|]. split; [by rewrite Hkeys, Hids|].
  split; [|done].
  intros [key s] Hentry. simpl.
  assert (Hnd : NoDup scores.*1) by (rewrite Hkeys; apply NoDup_first_seen).
  apply list_elem_of_lookup in Hentry as [i Hi].
  pose proof (dict_get_lookup scores key s i Hnd Hi) as Hget.
  rewrite Hscores in Hget; [congruence|].
  apply elem_of_first_seen. rewrite <- Hkeys.
  apply list_elem_of_fmap. exists (key, s). split; [done|].
  by eapply list_elem_of_lookup_2.
Qed.
(** ** What a user of [fuse] can rely on *)

Lemma fuse_default_weights self lists weights :
  fuse self lists weights
  = fuse self lists (Some (default (replicate (length lists) 1%Q) weights)).
Proof. by destruct lists, weights. Qed.

Lemma elem_of_concat {A} (x : A) (ls : list (list A)) :
  x ∈ concat ls <-> exists l, l ∈ ls /\ x ∈ l.
Proof.
  induction ls as [|l ls IH]; simpl.
  - split; [by intros ?%elem_of_nil|by intros (l & ?%elem_of_nil & _)].
  - rewrite elem_of_app, IH. split.
    + intros [Hx|(l' & Hl' & Hx)].
      * exists l. split; [by apply elem_of_cons; left|done].
      * exists l'. split; [by apply elem_of_cons; right|done].
    + intros (l' & [->|Hl']%elem_of_cons & Hx); [by left|].
      right. by exists l'.
Qed.

Lemma occurrences_of_items weight start l :
  snd <$> occurrences_of weight start l = l.
Proof.
  unfold occurrences_of. revert start.
  induction l as [|r l IH]; intros start; [done|].
  simpl. f_equal. apply IH.
Qed.

Lemma occurrences_items weights lists :
  (length lists <= length weights)%nat ->
  snd <$> occurrences weights lists = concat lists.
Proof.
  revert weights. induction lists as [|l lists IH]; intros weights Hlen; [done|].
  destruct weights as [|w weights]; [simpl in Hlen; lia|].
  simpl. rewrite fmap_app, occurrences_of_items, IH; [done|simpl in Hlen; lia].
Qed.

Lemma first_item_concat weights lists id :
  (length lists <= length weights)%nat ->
  first_item (occurrences weights lists) id
  = head (filter (fun r => atomic_unit_id r = id) (concat lists)).
Proof.
  intros Hlen. rewrite <- (occurrences_items weights lists Hlen).
  unfold first_item, of_id, occ_id.
  induction (occurrences weights lists) as [|o occ IH]; [done|].
  rewrite fmap_cons. destruct (decide (atomic_unit_id o.2 = id)) as [Hid|Hid].
  - by rewrite !filter_cons_True by done.
  - by rewrite !filter_cons_False by done.
Qed.

(** The first item of the ranked lists, in the order they are given,
    that has the identifier [id]. *)
Definition first_occurrence (lists : list (list result)) (id : string)
  : option result :=
  head (filter (fun r => atomic_unit_id r = id) (concat lists)).

(** The score the formula of [fuse] gives [id]: every occurrence of [id],
    at rank [r] of a list whose weight is [w], adds
    [(w / sum weights) / (k + r)]; the terms are added in the order of
    the lists and ranks. *)
Definition rrf_score (self : ReciprocalRankFusion) (weights : list Q)
    (lists : list (list result)) (id : string) : Q :=
  score_of self (occurrences ((fun w => (w / sum weights)%Q) <$> weights) lists) id.

(** [fuse] returns every identifier of its input once: the fused list has
    no two results with the same identifier, an identifier is in it
    exactly when it is in one of the ranked lists, and every result is
    tagged "fusion" and carries the payload of the first item with its
    identifier.  This holds when there is a ranked list, the constant is
    not negative, every list has a weight and the weights do not sum to
    zero; without weights every list weighs 1. *)
Theorem fuse_union (self : ReciprocalRankFusion) (lists : list (list result))
    (weights : option (list Q)) :
  let ws := default (replicate (length lists) 1%Q) weights in
  lists <> [] ->
  0 <= k self ->
  (length lists <= length ws)%nat ->
  ~ (sum ws == 0)%Q ->
  exists fused,
    fuse self lists weights = Ok fused
    /\ NoDup (atomic_unit_id <$> fused)
    /\ (forall id, id ∈ atomic_unit_id <$> fused
                   <-> exists l r, l ∈ lists /\ r ∈ l /\ atomic_unit_id r = id)
    /\ Forall (fun f =>
                 source f = "fusion"%string
                 /\ exists first,
                      first_occurrence lists (atomic_unit_id f) = Some first
                      /\ metadata f = metadata first
                      /\ graph_distance f = graph_distance first) fused.
Proof.
  intros ws Hlists Hk Hlen Hsum.
  destruct (fuse_spec self lists ws Hlists Hk Hlen Hsum)
    as (scores & fused & Hrun & Hkeys & _ & Hrel).
  exists fused. split; [by rewrite fuse_default_weights|].
  assert (Hids : atomic_unit_id <$> fused = (sorted_desc snd scores).*1).
  { clear -Hrel. induction Hrel as [|entry f entries fused [Hid _] _ IH]; [done|].
    rewrite !fmap_cons. by rewrite IH, Hid. }
  assert (Hperm : atomic_unit_id <$> fused
                  ≡ₚ first_seen (atomic_unit_id <$> concat lists)).
  { rewrite Hids, <- Hkeys. by rewrite sorted_desc_Permutation. }
  split; [rewrite Hperm; apply NoDup_first_seen|]. split.
  - intros id. rewrite Hperm, elem_of_first_seen, list_elem_of_fmap. split.
    + intros (r & -> & (l & Hl & Hr)%elem_of_concat). by exists l, r.
    + intros (l & r & Hl & Hr & <-). exists r. split; [done|].
      apply elem_of_concat. by exists l.
  - apply Forall_forall. intros f Hf.
    apply list_elem_of_lookup in Hf as [i Hi].
    destruct (Forall2_lookup_r _ _ _ _ _ Hrel Hi)
      as (entry & _ & Hid & _ & Hsource & first & Hfirst & Hmeta & Hdist).
    split; [done|]. exists first. split; [|done].
    unfold first_occurrence. rewrite Hid.
    rewrite <- Hfirst. symmetry. apply first_item_concat.
    by rewrite length_fmap.
Qed.

End FusionProperties.

Module FusionEdgeCases.
Import Retrieval DictFacts SortFacts FusionLoop FusionProperties.

(** ** Too few weights *)

Lemma fuse_lists_short self weights lists i rest occ state :
  0 <= k self ->
  drop i weights = rest ->
  (length rest < length lists)%nat ->
  fused_upto self occ state ->
  for_each (fuse_list self weights) state (zip (seq i (length lists)) lists)
  = Raise IndexError.
Proof.
  intros Hk. revert i rest occ state.
  induction lists as [|l lists IH]; intros i rest occ state Hdrop Hlen Hinv.
  - simpl in Hlen. lia.
  - destruct rest as [|w rest].
    + assert (Hw : weights !! i = None).
      { apply lookup_ge_None. apply (f_equal length) in Hdrop.
        rewrite length_drop in Hdrop. simpl in Hdrop. lia. }
      simpl. unfold item. by rewrite Hw.
    + assert (Hw : weights !! i = Some w).
      { rewrite <- (Nat.add_0_r i), <- lookup_drop, Hdrop. done. }
      destruct (fuse_items_upto self w l 1 occ state) as (state' & Hrun & Hinv');
        [lia|done|].
      simpl. unfold item. rewrite Hw. simpl. unfold enumerate1. rewrite Hrun.
      simpl. eapply (IH (S i) rest); [|simpl in Hlen; lia|exact Hinv'].
      apply (drop_S _ _ _) in Hw. rewrite Hdrop in Hw. congruence.
Qed.

(** When [fuse] raises: with no ranked list it returns the empty list
    whatever the weights are; otherwise weights that sum to zero make the
    normalisation divide by zero, and a ranked list without a weight makes
    the lookup of its weight fail.  (The constant is not negative, so no
    rank makes [k + rank] zero.) *)
Theorem fuse_raises (self : ReciprocalRankFusion) (lists : list (list result))
    (ws : list Q) :
  0 <= k self ->
  match lists with
  | [] => fuse self lists (Some ws) = Ok []
  | _ :: _ =>
    (ws <> [] -> (sum ws == 0)%Q ->
     fuse self lists (Some ws) = Raise ZeroDivisionError)
    /\ ((ws = [] \/ ~ (sum ws == 0)%Q) -> (length ws < length lists)%nat ->
        fuse self lists (Some ws) = Raise IndexError)
    /\ (~ (sum ws == 0)%Q -> (length lists <= length ws)%nat ->
        exists fused, fuse self lists (Some ws) = Ok fused)
  end.
Proof.
  intros Hk. destruct lists as [|l lists]; [done|].
  set (ls := l :: lists).
  assert (Hfuse : fuse self ls (Some ws)
                  = mapM (fun w => divide w (sum ws)) ws ≫= fun weights =>
                    for_each (fuse_list self weights) ([], [])
                             (zip (range (length ls)) ls)
                      ≫= fun '(rrf_scores, item_data) =>
                    mapM (fused_result item_data) (sorted_desc snd rrf_scores))
    by done.
  assert (Hempty : fused_upto self [] ([], [])).
  { split; [done| |done]. intros id Hid. by apply elem_of_nil in Hid. }
  split; [|split].
  - intros Hws Hsum. rewrite Hfuse. destruct ws as [|w ws]; [done|].
    by rewrite mapM_divide_zero.
  - intros Hws Hlen. rewrite Hfuse.
    assert (Hnorm : exists weights,
               mapM (fun w => divide w (sum ws)) ws = Ok weights
               /\ length weights = length ws).
    { destruct Hws as [->|Hsum]; [by exists []|].
      eexists. split; [by apply mapM_divide|by rewrite length_fmap]. }
    destruct Hnorm as (weights & -> & Hweights). cbn [mbind except_bind].
    unfold range.
    rewrite (fuse_lists_short self weights ls 0 weights [] ([], []));
      [done|done|done|lia|done].
  - intros Hsum Hlen.
    destruct (fuse_spec self ls ws) as (_ & fused & Hrun & _); [done..|].
    by exists fused.
Qed.

(** ** Ranked lists without repeated identifiers *)

Lemma of_id_occurrences_of weight start l id :
  NoDup (atomic_unit_id <$> l) ->
  of_id id (occurrences_of weight start l) = []
  \/ exists i r,
       l !! i = Some r /\ atomic_unit_id r = id
       /\ of_id id (occurrences_of weight start l)
          = [(weight, Z.of_nat (start + i), r)].
Proof.
  unfold occurrences_of, of_id. revert start.
  induction l as [|r l IH]; intros start Hnd; [by left|].
  rewrite fmap_cons in Hnd. apply NoDup_cons in Hnd as [Hr Hnd].
  cbn [length seq fmap list_fmap zip zip_with fst snd].
  destruct (decide (atomic_unit_id r = id)) as [Hid|Hid].
  - right. exists 0%nat, r. split; [done|]. split; [done|].
    rewrite filter_cons_True by done. rewrite Nat.add_0_r. f_equal.
    change (filter _ _) with (of_id id (occurrences_of weight (S start) l)).
    apply of_id_absent. rewrite occurrences_of_ids. by rewrite <- Hid.
  - rewrite filter_cons_False by done.
    destruct (IH (S start) Hnd) as [Hnone|(i & r' & Hi & Hr' & Hone)]; [by left|].
    right. exists (S i), r'. split; [done|]. split; [done|].
    rewrite Hone. do 3 f_equal. lia.
Qed.

Lemma contribution_bounds self weight rank r :
  0 <= k self -> 1 <= rank -> (0 < weight)%Q ->
  (0 < contribution self (weight, rank, r)
   /\ contribution self (weight, rank, r) <= weight / inject_Z (k self + 1))%Q.
Proof.
  intros Hk Hrank Hweight. unfold contribution. cbn [fst snd].
  assert (Hone : (0 < inject_Z (k self + 1))%Q).
  { change 0%Q with (inject_Z 0). rewrite <- Zlt_Qlt. lia. }
  assert (Hle : (inject_Z (k self + 1) <= inject_Z (k self + rank))%Q).
  { rewrite <- Zle_Qle. lia. }
  set (a := inject_Z (k self + 1)) in *. set (b := inject_Z (k self + rank)) in *.
  split.
  - apply Qlt_shift_div_l; lra.
  - apply Qle_shift_div_r; [lra|]. unfold Qdiv.
    assert (H : (weight * / a * b == weight * (b * / a))%Q) by ring. rewrite H.
    assert (1 <= b * / a)%Q by (apply Qle_shift_div_l; lra).
    nra.
Qed.

(** The score of an identifier over one ranked list without repeated
    identifiers: nothing, or one term of at most [weight / (k + 1)]. *)
Lemma score_terms_one_list self weight l id :
  0 <= k self -> (0 < weight)%Q ->
  NoDup (atomic_unit_id <$> l) ->
  contribution self <$> of_id id (occurrences_of weight 1 l) = []
  \/ exists c, contribution self <$> of_id id (occurrences_of weight 1 l) = [c]
               /\ (0 < c <= weight / inject_Z (k self + 1))%Q.
Proof.
  intros Hk Hweight Hnd.
  destruct (of_id_occurrences_of weight 1 l id Hnd) as [->|(i & r & _ & _ & ->)];
    [by left|].
  right. eexists. split; [done|]. apply contribution_bounds; [done|lia|done].
Qed.

Lemma of_id_present id occ : id ∈ occ_id <$> occ -> of_id id occ <> [].
Proof.
  intros (o & -> & Ho)%list_elem_of_fmap Hnil.
  assert (o ∈ of_id (occ_id o) occ) as Hin by (by apply list_elem_of_filter).
  rewrite Hnil in Hin. by apply elem_of_nil in Hin.
Qed.

(** The fusion of the hybrid mode, for a dense and a sparse list without
    repeated identifiers: the fused identifiers are distinct, every fused
    score is positive and at most 1/61, and every result is tagged
    "fusion" and keeps the graph distance of an item of the two lists. *)
Lemma fuse_hybrid_scores dense_results sparse_results :
  NoDup (atomic_unit_id <$> dense_results) ->
  NoDup (atomic_unit_id <$> sparse_results) ->
  exists fused,
    fuse default_fusion [dense_results; sparse_results] (Some [0.6%Q; 0.4%Q])
    = Ok fused
    /\ NoDup (atomic_unit_id <$> fused)
    /\ Forall (fun f =>
                 (0 < score f <= 1 # 61)%Q
                 /\ source f = "fusion"%string
                 /\ exists r, (r ∈ dense_results \/ r ∈ sparse_results)
                              /\ atomic_unit_id r = atomic_unit_id f
                              /\ graph_distance f = graph_distance r)
              fused.
Proof.
  intros Hdense Hsparse.
  set (lists := [dense_results; sparse_results]).
  set (ws := [0.6%Q; 0.4%Q]).
  destruct (fuse_spec default_fusion lists ws)
    as (scores & fused & Hrun & Hkeys & Hscores & Hrel);
    [done|done|simpl; lia|by vm_compute|].
  exists fused. split; [done|].
  assert (Hids : atomic_unit_id <$> fused = (sorted_desc snd scores).*1).
  { clear -Hrel. induction Hrel as [|entry f entries fused [Hid _] _ IH]; [done|].
    rewrite !fmap_cons. by rewrite IH, Hid. }
  split.
  { rewrite Hids, sorted_desc_Permutation, Hkeys. apply NoDup_first_seen. }
  apply Forall_forall. intros f Hf.
  apply list_elem_of_lookup in Hf as [i Hi].
  destruct (Forall2_lookup_r _ _ _ _ _ Hrel Hi)
    as (entry & Hentry & Hid & Hscore & Hsource & first & Hfirst & _ & Hdist).
  assert (Hin : entry ∈ scores).
  { rewrite <- (sorted_desc_Permutation snd scores).
    by eapply list_elem_of_lookup_2. }
  split; [|split; [done|]].
  2:{ exists first. split; [|split; [|done]].
      - rewrite first_item_concat in Hfirst by (simpl; lia).
        apply head_Some_elem_of, list_elem_of_filter in Hfirst as [_ Hfirst].
        simpl in Hfirst. rewrite app_nil_r in Hfirst.
        by apply elem_of_app in Hfirst.
      - rewrite Hid. by eapply first_item_id. }
  rewrite Hscore, (Hscores entry Hin).
  set (wd := (0.6 / sum ws)%Q). set (wsp := (0.4 / sum ws)%Q).
  assert (Hwd : (wd == 0.6)%Q) by (vm_compute; reflexivity).
  assert (Hwsp : (wsp == 0.4)%Q) by (vm_compute; reflexivity).
  change (occurrences _ lists)
    with (occurrences_of wd 1 dense_results
            ++ occurrences_of wsp 1 sparse_results ++ []).
  rewrite app_nil_r.
  assert (Hpresent : of_id entry.1 (occurrences_of wd 1 dense_results
                                      ++ occurrences_of wsp 1 sparse_results) <> []).
  { apply of_id_present. rewrite fmap_app, !occurrences_of_ids.
    rewrite <- fmap_app.
    replace (dense_results ++ sparse_results) with (concat lists)
      by (simpl; by rewrite app_nil_r).
    apply elem_of_first_seen. rewrite <- Hkeys. apply list_elem_of_fmap.
    by exists entry. }
  unfold score_of. unfold of_id in Hpresent |- *.
  rewrite filter_app in Hpresent |- *. rewrite fmap_app.
  destruct (score_terms_one_list default_fusion wd dense_results entry.1)
    as [Hd|(cd & Hd & Hcd)]; [done|by vm_compute|done| |];
  destruct (score_terms_one_list default_fusion wsp sparse_results entry.1)
    as [Hs|(cs & Hs & Hcs)]; try done; try (by vm_compute);
  unfold of_id in Hd, Hs; rewrite Hd, Hs.
  - apply fmap_nil_inv in Hd, Hs. rewrite Hd, Hs in Hpresent. done.
  - change (sum ([] ++ [cs])) with (0 + cs)%Q.
    change (inject_Z (k default_fusion + 1)) with (61%Q) in Hcs. unfold Qdiv in Hcs.
    change (/ 61)%Q with (1 # 61)%Q in Hcs. lra.
  - change (sum ([cd] ++ [])) with (0 + cd)%Q.
    change (inject_Z (k default_fusion + 1)) with (61%Q) in Hcd. unfold Qdiv in Hcd.
    change (/ 61)%Q with (1 # 61)%Q in Hcd. lra.
  - change (sum ([cd] ++ [cs])) with (0 + cd + cs)%Q.
    change (inject_Z (k default_fusion + 1)) with (61%Q) in Hcd, Hcs.
    unfold Qdiv in Hcd, Hcs. change (/ 61)%Q with (1 # 61)%Q in Hcd, Hcs. lra.
Qed.
End FusionEdgeCases.

Module ExpansionProperties.
Import Retrieval SessionFacts SortFacts RetrievalFacts.

Lemma StronglySorted_mono {A} (R R' : A -> A -> Prop) l :
  (forall a b, R a b -> R' a b) -> StronglySorted R l -> StronglySorted R' l.
Proof.
  intros HR. induction 1 as [|x l _ IH Hx]; constructor; [done|].
  eapply Forall_impl; [exact Hx|]. intros b. apply HR.
Qed.

Lemma StronglySorted_True {A} (l : list A) : StronglySorted (fun _ _ => True) l.
Proof. induction l; constructor; [done|]. by apply Forall_forall. Qed.

(** ** Distances of the neighbours *)

Definition distance_from (hop : Z) (nb : GraphService.neighbor) : Prop :=
  hop < GraphService.distance nb.

Lemma visit_edge_distances graph edge_type hop current t e :
  0 <= hop ->
  Forall (distance_from 0) (GraphService.neighbors t) ->
  Forall (distance_from 0)
         (GraphService.neighbors (GraphService.visit_edge graph edge_type hop current t e)).
Proof.
  intros Hhop Ht. unfold GraphService.visit_edge.
  destruct (_ && _); [|done]. case_bool_decide; [done|]. simpl.
  destruct (DocumentGraph.nodes graph !! GraphEdge.target_id e); [|done].
  apply Forall_app. split; [done|]. constructor; [|constructor].
  unfold distance_from. simpl. lia.
Qed.

Lemma visit_layer_distances graph edge_type hop layer t :
  0 <= hop ->
  Forall (distance_from 0) (GraphService.neighbors t) ->
  Forall (distance_from 0)
         (GraphService.neighbors (GraphService.visit_layer graph edge_type hop t layer)).
Proof.
  intros Hhop. unfold GraphService.visit_layer. revert t.
  induction layer as [|current layer IH]; intros t Ht; simpl; [done|].
  apply IH. generalize (DocumentGraph.edges graph) as es. intros es. revert t Ht.
  induction es as [|e es IHes]; intros t Ht; simpl; [done|].
  by apply IHes, visit_edge_distances.
Qed.

Lemma hop_loop_distances graph edge_type rounds hop seen layer found :
  0 <= hop ->
  Forall (distance_from 0) found ->
  Forall (distance_from 0)
         (GraphService.hop_loop graph edge_type rounds hop seen layer found).
Proof.
  revert hop seen layer found.
  induction rounds as [|rounds IH]; intros hop seen layer found Hhop Hfound; simpl;
    [done|].
  apply IH; [lia|]. by apply visit_layer_distances.
Qed.

Lemma get_neighbors_distances db chat_id tenant_id node_id edge_type hops :
  reads (GraphService.get_neighbors chat_id tenant_id node_id edge_type hops) db
        (fun r => forall found, r = Ok found -> Forall (distance_from 0) found).
Proof.
  unfold reads, GraphService.get_neighbors, GraphService._load_graph, bind, select, lift.
  destruct (available db); simpl; [|by eexists].
  destruct (scalar_one_or_none _) as [[graph|]|e]; simpl; try by eexists.
  eexists. split; [done|]. intros ? [= <-].
  apply hop_loop_distances; [done|constructor].
Qed.

(** ** The expansion *)

(** Where an expanded result comes from: it is one of the results that
    were expanded, or a neighbour of one of them, at some distance, with
    the parent's score decayed by 0.8 per hop. *)
Definition expanded_from (results : list result) (x : result) : Prop :=
  x ∈ results
  \/ (source x = "graph"%string
      /\ exists parent d,
           parent ∈ results /\ 1 <= d
           /\ score x = (score parent * 0.8 ^ d)%Q
           /\ graph_distance x = Some d).

Record expansion_inv (results : list result) (state : expansion) : Prop := {
  inv_seen : forall id, id ∈ state.2 <-> id ∈ atomic_unit_id <$> state.1;
  inv_distinct : NoDup (atomic_unit_id <$> state.1);
  inv_from : Forall (expanded_from results) state.1
}.

Lemma add_neighbors_inv results parent state found :
  parent ∈ results ->
  Forall (distance_from 0) found ->
  expansion_inv results state ->
  expansion_inv results (add_neighbors parent state found)
  /\ state.2 ⊆ (add_neighbors parent state found).2.
Proof.
  intros Hparent. unfold add_neighbors. revert state.
  induction found as [|nb found IH]; intros [expanded seen] Hfound Hinv; simpl;
    [done|].
  apply Forall_cons in Hfound as [Hnb Hfound].
  case_bool_decide as Hseen; [by apply IH|].
  match goal with |- context [foldl ?f ?s found] =>
    destruct (IH s Hfound) as [Hinv' Hsub] end.
  - destruct Hinv as [Hs Hd Hf]. simpl in *. split; simpl.
    + intros id. rewrite fmap_app, elem_of_app, elem_of_union, Hs.
      simpl. rewrite list_elem_of_singleton, elem_of_singleton. done.
    + rewrite fmap_app. apply NoDup_app. split; [done|]. split.
      * intros id Hid ->%list_elem_of_singleton. apply Hseen. by apply Hs.
      * apply NoDup_singleton.
    + apply Forall_app. split; [done|]. constructor; [|constructor].
      right. split; [done|]. exists parent, (GraphService.distance nb).
      unfold distance_from in Hnb. simpl. repeat split; [done|lia].
  - split; [done|]. simpl in Hsub. set_solver.
Qed.

Lemma expand_results_inv db chat_id tenant_id hops all results state :
  results ⊆ all ->
  expansion_inv all state ->
  returns (expand_results chat_id tenant_id hops state results) db
          (fun state' =>
             expansion_inv all state'
             /\ state.2 ⊆ state'.2
             /\ forall r, r ∈ results -> atomic_unit_id r ∈ state'.2).
Proof.
  revert state.
  induction results as [|r results IH]; intros [expanded seen] Hsub Hinv;
    cbn [expand_results].
  - apply returns_ret. split; [done|]. split; [done|].
    intros r Hr. by apply elem_of_nil in Hr.
  - assert (Hr : r ∈ all) by (apply Hsub; by apply elem_of_cons; left).
    assert (Hrest : results ⊆ all).
    { intros x Hx. apply Hsub. by apply elem_of_cons; right. }
    set (state := if bool_decide (atomic_unit_id r ∈ seen) then (expanded, seen)
                  else (expanded ++ [r], seen ∪ {[atomic_unit_id r]})).
    assert (Hstate : expansion_inv all state /\ seen ⊆ state.2
                     /\ atomic_unit_id r ∈ state.2).
    { unfold state. case_bool_decide as Hseen; [done|].
      destruct Hinv as [Hs Hd Hf]. simpl in *. split; [|set_solver].
      split; simpl.
      - intros id. rewrite fmap_app, elem_of_app, elem_of_union, Hs.
        simpl. rewrite list_elem_of_singleton, elem_of_singleton. done.
      - rewrite fmap_app. apply NoDup_app. split; [done|]. split.
        + intros id Hid ->%list_elem_of_singleton. apply Hseen. by apply Hs.
        + apply NoDup_singleton.
      - apply Forall_app. split; [done|]. constructor; [by left|constructor]. }
    destruct Hstate as (Hstate & Hseen & Hrseen).
    eapply returns_bind
      with (mid := fun st => expansion_inv all st /\ state.2 ⊆ st.2).
    + eapply returns_try
        with (mid := fun res => forall st, res = Ok st ->
                       expansion_inv all st /\ state.2 ⊆ st.2).
      * eapply reads_bind; [apply get_neighbors_distances| |].
        -- intros found Hfound. apply (reads_lift (Ok _)).
           intros st [= <-]. apply add_neighbors_inv; [done|by apply Hfound|done].
        -- by intros e _ st.
      * intros st Hst. by apply Hst.
      * intros e _. by apply returns_ret.
    + intros state' [Hinv' Hsub'].
      destruct (IH state' Hrest Hinv') as (final & Hrun & Hfinal & Hsub'' & Hall).
      exists final. split; [done|]. split; [done|]. split; [set_solver|].
      intros x [->|Hx]%elem_of_cons; [set_solver|by apply Hall].
Qed.

Lemma expand_with_neighbors_from db chat_id tenant_id results hops :
  returns (_expand_with_neighbors chat_id tenant_id results hops) db
          (fun expanded =>
             NoDup (atomic_unit_id <$> expanded)
             /\ (forall r, r ∈ results -> atomic_unit_id r ∈ atomic_unit_id <$> expanded)
             /\ Forall (expanded_from results) expanded
             /\ StronglySorted (fun a b => (score b <= score a)%Q) expanded).
Proof.
  unfold _expand_with_neighbors.
  eapply returns_bind.
  - apply (expand_results_inv db chat_id tenant_id hops results results ([], ∅));
      [done|].
    split; simpl; [set_solver|constructor|constructor].
  - intros [expanded seen] ([Hs Hd Hf] & _ & Hall). simpl in *.
    apply returns_ret. split; [|split; [|split]].
    + by rewrite sorted_desc_Permutation.
    + intros r Hr. rewrite sorted_desc_Permutation. by apply Hs, Hall.
    + by rewrite sorted_desc_Permutation.
    + eapply StronglySorted_mono;
        [|apply (sorted_desc_sorted score (fun _ _ => True)),
                StronglySorted_True].
      intros a b Hab. by eapply ranks_above_key.
Qed.

(** [_expand_with_neighbors] returns whatever the graph lookups do, and
    leaves the database as it was.  The expanded list has no two results
    with the same identifier, it has a result for every identifier that
    was expanded, its scores never increase, and every result in it is
    one of the inputs or a neighbour tagged "graph" whose score is the
    score of an input multiplied by 0.8 for every hop of its distance. *)
Theorem expand_with_neighbors_spec (db : DB) (chat_id tenant_id : string)
    (results : list result) (hops : Z) :
  exists expanded,
    _expand_with_neighbors chat_id tenant_id results hops db = (Ok expanded, db)
    /\ NoDup (atomic_unit_id <$> expanded)
    /\ (forall r, r ∈ results -> atomic_unit_id r ∈ atomic_unit_id <$> expanded)
    /\ Forall (expanded_from results) expanded
    /\ forall p q x y,
         (p < q)%nat -> expanded !! p = Some x -> expanded !! q = Some y ->
         (score y <= score x)%Q.
Proof.
  destruct (expand_with_neighbors_from db chat_id tenant_id results hops)
    as (expanded & Hrun & Hd & Hall & Hfrom & Hsorted).
  exists expanded. repeat split; try done.
  intros p q x y Hpq Hp Hq.
  by apply (BM25Facts.StronglySorted_lookup _ _ _ _ _ _ Hsorted Hpq Hp Hq).
Qed.
End ExpansionProperties.

Module HybridProperties.
Import Retrieval SessionFacts SortFacts RetrievalFacts BM25Facts.
Import FusionEdgeCases ExpansionProperties.

(** ** Hits of distinct documents *)

Lemma format_results_hits {U : Unicode} {E : Externals} index scores top hits :
  BM25.format_results index scores top = Ok hits ->
  Forall2 (hit_at index scores) hits
          (filter (fun i => BM25.positive (BM25.score_at scores i) = true) top).
Proof.
  revert hits. induction top as [|idx top IH]; intros hits; simpl.
  - intros [= <-]. constructor.
  - rewrite filter_cons. destruct (BM25.positive _) eqn:Hpos.
    + rewrite decide_True by done. unfold item.
      destruct (BM25Index.doc_ids index !! idx) as [unit_id|] eqn:Hid; [|done].
      destruct (BM25Index.doc_metadata index !! idx) as [md|] eqn:Hmd; [|done].
      destruct (BM25.format_results index scores top) as [rest|]; [|done].
      intros [= <-]. constructor; [by repeat split|by apply IH].
    + rewrite decide_False by congruence. apply IH.
Qed.

Lemma hits_distinct {U : Unicode} {E : Externals} index scores hits positions :
  NoDup (BM25Index.doc_ids index) ->
  NoDup positions ->
  Forall2 (hit_at index scores) hits positions ->
  NoDup (BM25.atomic_unit_id <$> hits).
Proof.
  intros Hids Hpos Hrel.
  induction Hrel as [|h i hits positions [Hh _] Hrel IH]; [constructor|].
  apply NoDup_cons in Hpos as [Hi Hpos]. rewrite fmap_cons.
  apply NoDup_cons. split; [|by apply IH].
  intros (h' & Hid & Hin)%list_elem_of_fmap.
  apply list_elem_of_lookup in Hin as [p Hp].
  destruct (Forall2_lookup_l _ _ _ _ _ Hrel Hp) as (j & Hj & Hh' & _).
  rewrite <- Hid in Hh'.
  assert (i = j) as -> by (exact (NoDup_lookup _ i j _ Hids Hh Hh')).
  apply Hi. by eapply list_elem_of_lookup_2.
Qed.

Lemma NoDup_slice_to {A} k (l : list A) : NoDup l -> NoDup (slice_to k l).
Proof.
  intros Hl. unfold slice_to.
  destruct (0 <=? k); (eapply sublist_NoDup; [done|apply sublist_take]).
Qed.

Lemma slice_to_fmap {A B} (f : A -> B) k (l : list A) :
  f <$> slice_to k l = slice_to k (f <$> l).
Proof. unfold slice_to. rewrite length_fmap. by destruct (0 <=? k); rewrite fmap_take. Qed.

Lemma length_slice_to {A} k (l : list A) :
  0 <= k -> Z.of_nat (length (slice_to k l)) <= k.
Proof.
  intros Hk. rewrite slice_to_nonneg by done. rewrite length_take. lia.
Qed.

(** ** Scores that decay *)

Lemma decay_bounds d : 1 <= d -> (0 < 0.8 ^ d <= 1)%Q.
Proof.
  intros Hd. split; [by apply Qpower_0_lt|].
  assert (Hgen : forall n : nat, (0.8 ^ Z.of_nat n <= 1)%Q).
  { induction n as [|n IH]; [by vm_compute|].
    rewrite Nat2Z.inj_succ, <- Z.add_1_r.
    rewrite Qpower_plus by (by vm_compute).
    assert (0 < 0.8 ^ Z.of_nat n)%Q by (by apply Qpower_0_lt).
    change (0.8 ^ 1)%Q with 0.8%Q. nra. }
  rewrite <- (Z2Nat.id d) by lia. apply Hgen.
Qed.

Section Hybrid.
Context {U : Unicode} {E : Externals}.
Variables (db : DB) (chat_id tenant_id : string).

(** The index of the collection names every document once, and the vector
    store answers with distinct points. *)
Hypothesis index_distinct : forall index,
  index ∈ bm25_indexes db -> BM25Index.chat_id index = chat_id ->
  BM25Index.tenant_id index = tenant_id -> NoDup (BM25Index.doc_ids index).
Hypothesis dense_distinct : forall query limit threshold points,
  vector_search chat_id tenant_id query limit threshold = Ok points ->
  NoDup ((fun p : string * Q * gmap string string => p.1.1) <$> points).

Lemma search_distinct tokenizer query top_k :
  reads (BM25.search tokenizer chat_id tenant_id query top_k) db
        (fun r => forall hits, r = Ok hits -> NoDup (BM25.atomic_unit_id <$> hits)).
Proof.
  unfold reads, BM25.search, try_, bind, BM25._load_index, bind, select, lift.
  destruct (available db); simpl; [|by eexists].
  destruct (scalar_one_or_none _) as [[index|]|e] eqn:Hrows; simpl.
  - apply scalar_one_or_none_elem in Hrows.
    assert (Hindex : index ∈ filter
              (fun i => BM25Index.chat_id i = chat_id
                        /\ BM25Index.tenant_id i = tenant_id) (bm25_indexes db)).
    { rewrite Hrows. by apply list_elem_of_singleton. }
    apply list_elem_of_filter in Hindex as [[Hchat Htenant] Hindex].
    destruct (okapi_scores _ _) as [scores|e]; simpl.
    + destruct (BM25.format_results index scores _) as [hits|e] eqn:Hfmt; simpl.
      * eexists. split; [done|]. intros ? [= <-].
        apply format_results_hits in Hfmt.
        eapply hits_distinct; [by apply index_distinct| |exact Hfmt].
        apply NoDup_filter, NoDup_slice_to.
        rewrite sorted_desc_Permutation. apply NoDup_seq.
      * destruct e; by eexists.
    + destruct e; by eexists.
  - by eexists.
  - destruct e; by eexists.
Qed.

Definition distinct (results : list result) : Prop :=
  NoDup (atomic_unit_id <$> results).

Lemma sparse_retrieve_distinct tokenizer query top_k :
  returns (sparse_retrieve tokenizer chat_id tenant_id query top_k) db distinct.
Proof.
  destruct (search_distinct tokenizer query top_k) as (r & Hrun & Hr).
  unfold returns, sparse_retrieve, try_, bind. rewrite Hrun.
  destruct r as [hits|e]; simpl.
  - eexists. split; [done|]. specialize (Hr hits eq_refl).
    unfold distinct. by rewrite <- list_fmap_compose.
  - exists []. split; [done|constructor].
Qed.

Lemma dense_retrieve_distinct query top_k threshold :
  returns (dense_retrieve chat_id tenant_id query top_k threshold) db distinct.
Proof.
  unfold returns, dense_retrieve, try_, bind, lift, ret.
  destruct (vector_search _ _ _ _ _) as [points|e] eqn:Hsearch; simpl.
  - eexists. split; [done|]. unfold distinct. rewrite <- list_fmap_compose.
    by apply (dense_distinct _ _ _ _ Hsearch).
  - exists []. split; [done|constructor].
Qed.

(** A result of the fusion of the hybrid mode. *)
Definition fused (r : result) : Prop :=
  (0 < score r <= 1 # 61)%Q /\ source r = "fusion"%string
  /\ graph_distance r = None.

Lemma hybrid_fused tokenizer query top_k threshold :
  returns (_hybrid tokenizer chat_id tenant_id query top_k threshold) db
          (fun results =>
             distinct results /\ Forall fused results
             /\ (0 <= top_k -> Z.of_nat (length results) <= top_k)).
Proof.
  destruct (dense_retrieve_distinct query (top_k * 2) threshold)
    as (dense & Hdense & Hd).
  destruct (sparse_retrieve_distinct tokenizer query (top_k * 2))
    as (sparse & Hsparse & Hs).
  destruct (fuse_hybrid_scores dense sparse Hd Hs) as (fusion & Hfuse & Hnd & Hf).
  unfold returns, _hybrid, bind. rewrite Hdense, Hsparse. unfold lift. rewrite Hfuse.
  eexists. split; [done|]. split; [|split].
  - unfold distinct.
    rewrite slice_to_fmap. by apply NoDup_slice_to.
  - eapply Forall_subseteq; [apply slice_to_subseteq|].
    eapply Forall_impl; [exact Hf|].
    intros f (Hscore & Hsource & r & Hr & _ & Hdist). split; [done|]. split; [done|].
    rewrite Hdist. clear -Hr Hdense Hsparse.
    unfold dense_retrieve, sparse_retrieve, try_, bind, lift, ret in Hdense, Hsparse.
    destruct Hr as [Hr|Hr].
    + destruct (vector_search _ _ _ _ _); simpl in Hdense;
        injection Hdense as <-; [|by apply elem_of_nil in Hr].
      by apply list_elem_of_fmap in Hr as (? & -> & _).
    + destruct (BM25.search _ _ _ _ _ db) as [[hits|e] db']; simpl in Hsparse;
        injection Hsparse as <- _; [|by apply elem_of_nil in Hr].
      by apply list_elem_of_fmap in Hr as (? & -> & _).
  - apply length_slice_to.
Qed.

(** A result of the hybrid mode after the expansion with neighbours: a
    positive score of at most 1/61. *)
Definition low (r : result) : Prop := (0 < score r <= 1 # 61)%Q.

Lemma expanded_low results x :
  Forall low results -> expanded_from results x -> low x.
Proof.
  intros Hresults [Hx|(_ & parent & d & Hparent & Hd & Hscore & _)].
  - rewrite Forall_forall in Hresults. by apply Hresults.
  - rewrite Forall_forall in Hresults. specialize (Hresults parent Hparent).
    unfold low in *. rewrite Hscore.
    pose proof (decay_bounds d Hd). nra.
Qed.
End Hybrid.

(** The hybrid mode returns, whatever its retrievers do, and leaves the
    database as it was.  When the stored index names every document once
    and the vector store answers with distinct points, the results have
    distinct identifiers, every result is tagged "fusion" and its score
    is positive and at most 1/61 (a result found first by both retrievers
    scores 0.6/61 + 0.4/61); with a [top_k] that is not negative there are
    at most [top_k] results. *)
Theorem hybrid_scores {U : Unicode} {E : Externals} (db : DB)
    (tokenizer : Tokenizer.MultilingualTokenizer) (chat_id tenant_id : string)
    (query : str) (top_k : Z) (score_threshold : Q) :
  (forall index,
     index ∈ bm25_indexes db -> BM25Index.chat_id index = chat_id ->
     BM25Index.tenant_id index = tenant_id -> NoDup (BM25Index.doc_ids index)) ->
  (forall query limit threshold points,
     vector_search chat_id tenant_id query limit threshold = Ok points ->
     NoDup ((fun p : string * Q * gmap string string => p.1.1) <$> points)) ->
  exists results,
    _hybrid tokenizer chat_id tenant_id query top_k score_threshold db
    = (Ok results, db)
    /\ NoDup (atomic_unit_id <$> results)
    /\ Forall (fun r => (0 < score r <= 1 # 61)%Q /\ source r = "fusion"%string)
              results
    /\ (0 <= top_k -> Z.of_nat (length results) <= top_k).
Proof.
  intros Hindex Hdense.
  destruct (hybrid_fused db chat_id tenant_id Hindex Hdense tokenizer query top_k
              score_threshold) as (results & Hrun & Hd & Hf & Hlen).
  exists results. repeat split; try done.
  eapply Forall_impl; [exact Hf|]. by intros r (? & ? & _).
Qed.
End HybridProperties.

Module RetrieveProperties.
Import Retrieval SessionFacts SortFacts RetrievalFacts BM25Facts.
Import FusionEdgeCases ExpansionProperties HybridProperties.

Lemma enrich_results_scores {U : Unicode} {E : Externals} db results :
  returns (_enrich_results results) db
          (fun contexts =>
             Forall (fun c => exists r, r ∈ results /\ ctx_score c = score r) contexts).
Proof.
  destruct (enrich_results_stored db results) as (contexts & Hrun & Hc).
  exists contexts. split; [done|].
  eapply Forall_impl; [exact Hc|].
  intros c (r & u & Hr & _ & _ & ->). by exists r.
Qed.

Lemma filter_none {A} (P : A -> Prop) `{forall x, Decision (P x)} (l : list A) :
  Forall (fun x => ~ P x) l -> filter P l = [].
Proof.
  induction 1 as [|x l Hx _ IH]; [done|]. by rewrite filter_cons_False.
Qed.

(** ** Below the threshold *)

Lemma retrieve_low_scores {U : Unicode} {E : Externals} (db : DB)
    (tokenizer : Tokenizer.MultilingualTokenizer) (chat_id tenant_id : string)
    (request : RetrievalRequest) :
  (forall index,
     index ∈ bm25_indexes db -> BM25Index.chat_id index = chat_id ->
     BM25Index.tenant_id index = tenant_id -> NoDup (BM25Index.doc_ids index)) ->
  (forall query limit threshold points,
     vector_search chat_id tenant_id query limit threshold = Ok points ->
     NoDup ((fun p : string * Q * gmap string string => p.1.1) <$> points)) ->
  mode request = RetrievalMode.HYBRID \/ mode request = RetrievalMode.GRAPH_ENHANCED ->
  (1 # 61 < score_threshold request)%Q ->
  returns (retrieve tokenizer chat_id tenant_id request) db
          (fun contexts => contexts = []).
Proof.
  intros Hindex Hdense Hmode Hthreshold.
  assert (Hlow : forall query top_k threshold,
             returns (_hybrid tokenizer chat_id tenant_id query top_k threshold) db
                     (Forall low)).
  { intros query top_k threshold.
    destruct (hybrid_fused db chat_id tenant_id Hindex Hdense tokenizer query top_k
                threshold) as (results & Hrun & _ & Hf & _).
    exists results. split; [done|]. eapply Forall_impl; [exact Hf|].
    by intros r (? & _). }
  assert (Hexpand : forall results hops,
             Forall low results ->
             returns (_expand_with_neighbors chat_id tenant_id results hops) db
                     (Forall low)).
  { intros results hops Hresults.
    destruct (expand_with_neighbors_from db chat_id tenant_id results hops)
      as (expanded & Hrun & _ & _ & Hfrom & _).
    exists expanded. split; [done|]. eapply Forall_impl; [exact Hfrom|].
    intros x. by apply expanded_low. }
  unfold retrieve. apply returns_try_ok.
  eapply returns_bind with (mid := Forall low).
  { destruct Hmode as [Hm|Hm]; rewrite Hm.
    - rewrite !bool_decide_eq_false_2 by done.
      rewrite bool_decide_eq_true_2 by done. apply Hlow.
    - rewrite !bool_decide_eq_false_2 by done.
      rewrite bool_decide_eq_true_2 by done.
      unfold _graph_enhanced. eapply returns_bind; [apply Hlow|].
      intros results Hresults. by apply Hexpand. }
  intros results Hresults.
  eapply returns_bind with (mid := Forall low).
  { destruct (_ && _); [by apply Hexpand|by apply returns_ret]. }
  clear results Hresults. intros results Hresults.
  eapply returns_bind; [apply enrich_results_scores|].
  intros contexts Hcontexts. apply returns_ret.
  assert (filter (fun c => Qle_bool (score_threshold request) (ctx_score c) = true)
                 contexts = []) as ->.
  { apply filter_none. eapply Forall_impl; [exact Hcontexts|].
    intros c (r & Hr & Hscore) Hle. apply Qle_bool_iff in Hle.
    rewrite Forall_forall in Hresults. specialize (Hresults r Hr).
    unfold low in Hresults. rewrite Hscore in Hle. lra. }
  unfold slice_to. by destruct (0 <=? top_k request); rewrite take_nil.
Qed.

(** In the hybrid and the graph-enhanced mode every score is a fused
    score, or a fused score decayed by the expansion, so it is at most
    1/61: with a threshold above 1/61, such as the default 0.3 of a
    request, [retrieve] returns no context.  (The stored index names every
    document once and the vector store answers with distinct points.) *)
Theorem retrieve_hybrid_below_threshold {U : Unicode} {E : Externals} (db : DB)
    (tokenizer : Tokenizer.MultilingualTokenizer) (chat_id tenant_id : string)
    (request : RetrievalRequest) :
  (forall index,
     index ∈ bm25_indexes db -> BM25Index.chat_id index = chat_id ->
     BM25Index.tenant_id index = tenant_id -> NoDup (BM25Index.doc_ids index)) ->
  (forall query limit threshold points,
     vector_search chat_id tenant_id query limit threshold = Ok points ->
     NoDup ((fun p : string * Q * gmap string string => p.1.1) <$> points)) ->
  mode request = RetrievalMode.HYBRID \/ mode request = RetrievalMode.GRAPH_ENHANCED ->
  (1 # 61 < score_threshold request)%Q ->
  retrieve tokenizer chat_id tenant_id request db = (Ok [], db).
Proof.
  intros Hindex Hdense Hmode Hthreshold.
  destruct (retrieve_low_scores db tokenizer chat_id tenant_id request)
    as (contexts & Hrun & ->); [done..|].
  exact Hrun.
Qed.

(** ** Limits *)

Lemma bind_Ok_inv {A B} (m : session A) (f : A -> session B) db b db' :
  bind m f db = (Ok b, db') ->
  exists a db1, m db = (Ok a, db1) /\ f a db1 = (Ok b, db').
Proof.
  unfold bind. destruct (m db) as [[a|e] db1]; [|done]. intros Hf. by exists a, db1.
Qed.

(** With one of the four modes [retrieve] returns contexts whose scores
    reach the threshold of the request, and at most [top_k] of them when
    [top_k] is not negative. *)
Theorem retrieve_within_limits {U : Unicode} {E : Externals} (db : DB)
    (tokenizer : Tokenizer.MultilingualTokenizer) (chat_id tenant_id : string)
    (request : RetrievalRequest) :
  valid_mode (mode request) ->
  exists contexts,
    retrieve tokenizer chat_id tenant_id request db = (Ok contexts, db)
    /\ Forall (fun c => (score_threshold request <= ctx_score c)%Q) contexts
    /\ (0 <= top_k request -> Z.of_nat (length contexts) <= top_k request).
Proof.
  intros Hmode.
  destruct (retrieve_returns db chat_id tenant_id (fun _ => True)) with
    (tokenizer := tokenizer) (request := request) as (contexts & Hrun & _);
    [by intros; apply Forall_forall|done|by intros; apply Forall_forall|done|].
  exists contexts. split; [done|].
  unfold retrieve, try_ in Hrun.
  match type of Hrun with
  | context [match ?body db with _ => _ end] => destruct (body db) as [[a|e] db1] eqn:Hbody
  end; [|done].
  injection Hrun as -> ->.
  apply bind_Ok_inv in Hbody as (results & db1 & _ & Hbody).
  apply bind_Ok_inv in Hbody as (results' & db2 & _ & Hbody).
  apply bind_Ok_inv in Hbody as (enriched & db3 & _ & Hbody).
  injection Hbody as <- _. split.
  - eapply Forall_subseteq; [apply slice_to_subseteq|].
    apply Forall_forall. intros c [Hc _]%list_elem_of_filter.
    by apply Qle_bool_iff.
  - apply length_slice_to.
Qed.
(** ** Loading the units *)

(** The stored unit with the identifier [unit_id]. *)
Definition unit_with_id (db : DB) (unit_id : string) : option AtomicUnit.t :=
  head (filter (fun u => AtomicUnit.id u = unit_id) (atomic_units db)).

Lemma units_by_id_other rows key (acc : gmap string AtomicUnit.t) :
  key ∉ AtomicUnit.id <$> rows ->
  foldl (fun units u => <[ AtomicUnit.id u := u ]> units) acc rows !! key = acc !! key.
Proof.
  revert acc. induction rows as [|row rows IH]; intros acc Hkey; [done|].
  rewrite fmap_cons, not_elem_of_cons in Hkey. destruct Hkey as [Hne Hkey].
  simpl. rewrite IH by done. by rewrite lookup_insert_ne.
Qed.

Lemma units_by_id_stored rows u :
  NoDup (AtomicUnit.id <$> rows) -> u ∈ rows ->
  units_by_id rows !! AtomicUnit.id u = Some u.
Proof.
  unfold units_by_id. generalize (∅ : gmap string AtomicUnit.t) as acc.
  induction rows as [|row rows IH]; intros acc Hnd Hu; [by apply elem_of_nil in Hu|].
  rewrite fmap_cons in Hnd. apply NoDup_cons in Hnd as [Hrow Hnd]. simpl.
  apply elem_of_cons in Hu as [->|Hu]; [|by apply IH].
  rewrite units_by_id_other by done. by rewrite lookup_insert_eq.
Qed.

Lemma NoDup_fmap_filter {A B} (f : A -> B) (P : A -> Prop)
    `{forall x, Decision (P x)} (l : list A) :
  NoDup (f <$> l) -> NoDup (f <$> filter P l).
Proof.
  induction l as [|x l IH]; [done|]. rewrite fmap_cons. intros [Hx Hl]%NoDup_cons.
  rewrite filter_cons. destruct (decide (P x)); [|by apply IH].
  rewrite fmap_cons. apply NoDup_cons. split; [|by apply IH].
  intros (y & Hy & [_ Hin]%list_elem_of_filter)%list_elem_of_fmap.
  apply Hx. apply list_elem_of_fmap. by exists y.
Qed.

Lemma omap_ext_in {A B} (f g : A -> option B) (l : list A) :
  (forall x, x ∈ l -> f x = g x) -> omap f l = omap g l.
Proof.
  induction l as [|x l IH]; intros Hfg; [done|]. csimpl.
  rewrite (Hfg x) by (by apply elem_of_cons; left).
  rewrite IH; [done|]. intros y Hy. apply Hfg. by apply elem_of_cons; right.
Qed.

(** [_enrich_results] never raises and never writes.  With identifiers
    that name one stored unit each (the primary key), it returns the
    results in their order, each with the text and the document of the
    stored unit that has its identifier and with its own score and
    source; a result whose unit is not stored is left out, and when the
    database cannot be reached nothing is returned. *)
Theorem enrich_results_spec {U : Unicode} {E : Externals} (db : DB)
    (results : list result) :
  NoDup (AtomicUnit.id <$> atomic_units db) ->
  _enrich_results results db
  = (Ok (if available db
         then omap (fun r => context_of r <$> unit_with_id db (atomic_unit_id r))
                   results
         else []), db).
Proof.
  intros Hnd. destruct results as [|r0 results].
  { by destruct (available db). }
  set (rs := r0 :: results).
  change (_enrich_results rs)
    with (try_
            (rows <- select atomic_units
                       (fun u => AtomicUnit.id u ∈ atomic_unit_id <$> rs) ;;
             ret (omap (fun r => context_of r <$> units_by_id rows !! atomic_unit_id r)
                       rs))%session
            (fun _ => ret [])).
  unfold try_, bind, select, ret. destruct (available db); [|done].
  f_equal. f_equal. apply omap_ext_in. intros r Hr. f_equal.
  set (rows := filter _ (atomic_units db)).
  assert (Hrows : NoDup (AtomicUnit.id <$> rows)) by (by apply NoDup_fmap_filter).
  unfold unit_with_id.
  destruct (head (filter _ (atomic_units db))) as [u|] eqn:Hhead.
  - apply head_Some_elem_of, list_elem_of_filter in Hhead as [Hid Hu].
    rewrite <- Hid. apply units_by_id_stored; [done|].
    apply list_elem_of_filter. split; [|done].
    rewrite Hid. apply list_elem_of_fmap. by exists r.
  - destruct (units_by_id rows !! atomic_unit_id r) as [u|] eqn:Hu; [|done].
    apply units_by_id_lookup in Hu as [[_ Hin]%list_elem_of_filter Hid].
    assert (u ∈ filter (fun u => AtomicUnit.id u = atomic_unit_id r) (atomic_units db))
      as Hfilter by (by apply list_elem_of_filter).
    apply head_None in Hhead. rewrite Hhead in Hfilter.
    by apply elem_of_nil in Hfilter.
Qed.
End RetrieveProperties.

Module NeighborProperties.
Import GraphService GraphServiceFacts.

Section Rounds.
Variables (graph : DocumentGraph.t) (edge_type : option string) (start : string).

(** The variables of the traversal after [rounds] more rounds; the
    current layer is kept in [next_layer]. *)
Fixpoint hop_state (rounds : nat) (hop : Z) (t : traversal) : traversal :=
  match rounds with
  | O => t
  | S rounds' =>
    hop_state rounds' (hop + 1)
      (visit_layer graph edge_type hop
         {| visited := visited t; next_layer := []; neighbors := neighbors t |}
         (next_layer t))
  end.

Lemma hop_loop_state rounds hop seen layer found :
  hop_loop graph edge_type rounds hop seen layer found
  = neighbors (hop_state rounds hop
                 {| visited := seen; next_layer := layer; neighbors := found |}).
Proof.
  revert hop seen layer found.
  induction rounds as [|rounds IH]; intros hop seen layer found; simpl; [done|].
  rewrite IH. by destruct (visit_layer _ _ _ _ _).
Qed.

Lemma hop_state_add r1 r2 hop t :
  hop_state (r1 + r2) hop t = hop_state r2 (hop + Z.of_nat r1) (hop_state r1 hop t).
Proof.
  revert hop t. induction r1 as [|r1 IH]; intros hop t.
  - simpl. by rewrite Z.add_0_r.
  - cbn [Nat.add hop_state]. rewrite IH. f_equal. lia.
Qed.

(** The traversal only appends to [neighbors]. *)
Lemma visit_edge_appends hop current t e :
  neighbors t `prefix_of` neighbors (visit_edge graph edge_type hop current t e).
Proof.
  unfold visit_edge. destruct (_ && _); [|done]. case_bool_decide; [done|]. simpl.
  destruct (DocumentGraph.nodes graph !! _); [|done]. by apply prefix_app_r.
Qed.

Lemma visit_layer_appends hop layer t :
  neighbors t `prefix_of` neighbors (visit_layer graph edge_type hop t layer).
Proof.
  unfold visit_layer. revert t.
  induction layer as [|current layer IH]; intros t; simpl; [done|].
  etrans; [|apply IH]. generalize (DocumentGraph.edges graph) as es.
  intros es. revert t. induction es as [|e es IHes]; intros t; simpl; [done|].
  etrans; [apply visit_edge_appends|apply IHes].
Qed.

Lemma hop_state_appends rounds hop t :
  neighbors t `prefix_of` neighbors (hop_state rounds hop t).
Proof.
  revert hop t. induction rounds as [|rounds IH]; intros hop t; simpl; [done|].
  etrans; [|apply IH]. apply (visit_layer_appends hop (next_layer t)
    {| visited := visited t; next_layer := []; neighbors := neighbors t |}).
Qed.

(** A visited node other than the start node is among the neighbours,
    unless the graph stores no node for it. *)
Definition covered (t : traversal) : Prop :=
  forall x, x ∈ visited t -> x <> start ->
            is_Some (DocumentGraph.nodes graph !! x) -> x ∈ targets (neighbors t).

Lemma visit_edge_covered hop current t e :
  covered t -> covered (visit_edge graph edge_type hop current t e).
Proof.
  intros Ht. unfold visit_edge. destruct (_ && _); [|done].
  case_bool_decide as Hseen; [done|]. intros x. simpl.
  intros [Hx|Hx%elem_of_singleton]%elem_of_union Hne Hstored.
  - specialize (Ht x Hx Hne Hstored).
    destruct (DocumentGraph.nodes graph !! GraphEdge.target_id e); [|done].
    unfold targets. rewrite fmap_app. apply elem_of_app. by left.
  - subst x. destruct Hstored as [n ->].
    unfold targets. rewrite fmap_app. apply elem_of_app. right.
    by apply list_elem_of_singleton.
Qed.

Lemma visit_layer_covered hop layer t :
  covered t -> covered (visit_layer graph edge_type hop t layer).
Proof.
  unfold visit_layer. revert t.
  induction layer as [|current layer IH]; intros t Ht; simpl; [done|].
  apply IH. generalize (DocumentGraph.edges graph) as es. intros es. revert t Ht.
  induction es as [|e es IHes]; intros t Ht; simpl; [done|].
  by apply IHes, visit_edge_covered.
Qed.

Lemma hop_state_covered rounds hop t :
  covered t -> covered (hop_state rounds hop t).
Proof.
  revert hop t. induction rounds as [|rounds IH]; intros hop t Ht; simpl; [done|].
  apply IH. by apply visit_layer_covered.
Qed.

(** The visited set after the rounds: what is within that many hops. *)
Lemma hop_state_visited rounds r t :
  (forall x, x ∈ visited t <-> within_hops graph edge_type start r x) ->
  (forall x, x ∈ next_layer t <-> first_reached graph edge_type start r x) ->
  Forall (discovered graph edge_type start r) (neighbors t) ->
  (forall x, x ∈ targets (neighbors t) -> x ∈ visited t) ->
  NoDup (targets (neighbors t)) ->
  forall x, x ∈ visited (hop_state rounds (Z.of_nat r) t)
            <-> within_hops graph edge_type start (r + rounds) x.
Proof.
  revert r t.
  induction rounds as [|rounds IH]; intros r t Hseen Hlayer Hfound Hsub Hnd; simpl.
  - intros x. by rewrite Nat.add_0_r.
  - set (t0 := {| visited := visited t; next_layer := []; neighbors := neighbors t |}).
    set (t' := visit_layer graph edge_type (Z.of_nat r) t0 (next_layer t)).
    assert (Hinv : round_inv graph edge_type start r (visited t) t').
    { apply visit_layer_inv; [done| |].
      - intros x Hx. by apply Hlayer in Hx as [? _].
      - split; simpl; try done.
        + intros x Hx. by left.
        + intros x Hx. by apply elem_of_nil in Hx.
        + eapply Forall_impl; [exact Hfound|]. intros nb. apply discovered_mono. lia. }
    destruct Hinv as [Hv Hf Hl Hn Ht Hd].
    assert (Hball : forall x, x ∈ visited t'
                              <-> within_hops graph edge_type start (S r) x).
    { intros x. split.
      - intros Hx. destruct (Hf x Hx) as [Hx'|Hx'].
        + apply Hseen in Hx' as (m & Hm & Hsteps). exists m. split; [lia|done].
        + apply Hl in Hx' as (_ & _ & Hsteps). exists (S r). split; [lia|done].
      - intros (m & Hm & Hsteps).
        destruct (decide (x ∈ visited t)) as [Hx|Hx]; [by apply Hv|].
        destruct (decide (m = S r)) as [->|Hne].
        + apply nsteps_inv_r in Hsteps as (p & Hp & Hpx).
          apply (visit_layer_covers graph edge_type _ _ _ p); [|done].
          apply Hlayer. split; [done|]. intros m' Hm' Hsteps'.
          apply Hx, Hseen. exists (S m'). split; [lia|]. by eapply nsteps_r.
        + exfalso. apply Hx, Hseen. exists m. split; [lia|done]. }
    replace (Z.of_nat r + 1) with (Z.of_nat (S r)) by lia.
    replace (r + S rounds)%nat with (S r + rounds)%nat by lia.
    apply IH; try done.
    intros x. split.
    + intros Hx. apply Hl in Hx as (Hnew & _ & Hsteps). split; [done|].
      intros m Hm Hsteps'. apply Hnew, Hseen. exists m. split; [lia|done].
    + intros [Hsteps Hmin].
      assert (Hx : x ∈ visited t').
      { apply Hball. exists (S r). split; [lia|done]. }
      destruct (Hf x Hx) as [Hx'|Hx']; [|done].
      apply Hseen in Hx' as (m & Hm & Hsteps'). destruct (Hmin m); [lia|done].
Qed.
End Rounds.

Lemma get_neighbors_runs chat_id tenant_id start edge_type hops db graph :
  available db = true ->
  filter (fun g => DocumentGraph.chat_id g = chat_id
                   /\ DocumentGraph.tenant_id g = tenant_id)
         (document_graphs db) = [graph] ->
  get_neighbors chat_id tenant_id start edge_type hops db
  = (Ok (neighbors (hop_state graph edge_type (Z.to_nat hops) 0
                      {| visited := {[ start ]}; next_layer := [start];
                         neighbors := [] |})), db).
Proof.
  intros Havail Hrow.
  unfold get_neighbors, GraphService._load_graph, bind, select, lift.
  rewrite Havail, Hrow. simpl. unfold ret. by rewrite hop_loop_state.
Qed.

(** Asking for more hops extends the answer: the neighbours within [hops]
    hops are the first entries of the answer for any larger hop count,
    in the same order; with a hop count of zero or less there are none. *)
Theorem get_neighbors_more_hops (chat_id tenant_id start : string)
    (edge_type : option string) (hops hops' : Z) (db : DB)
    (graph : DocumentGraph.t) :
  available db = true ->
  filter (fun g => DocumentGraph.chat_id g = chat_id
                   /\ DocumentGraph.tenant_id g = tenant_id)
         (document_graphs db) = [graph] ->
  hops <= hops' ->
  exists found found',
    get_neighbors chat_id tenant_id start edge_type hops db = (Ok found, db)
    /\ get_neighbors chat_id tenant_id start edge_type hops' db = (Ok found', db)
    /\ found `prefix_of` found'
    /\ (hops <= 0 -> found = []).
Proof.
  intros Havail Hrow Hhops.
  eexists _, _. split; [by apply get_neighbors_runs|].
  split; [by apply get_neighbors_runs|]. split.
  - replace (Z.to_nat hops') with (Z.to_nat hops + (Z.to_nat hops' - Z.to_nat hops))%nat
      by lia.
    rewrite hop_state_add. apply hop_state_appends.
  - intros Hzero. by replace (Z.to_nat hops) with 0%nat by lia.
Qed.

(** [get_neighbors] misses nothing: every node other than the start node
    that the graph stores and that is within [hops] matching edges of the
    start node is in the answer, under the edge that discovered it. *)
Theorem get_neighbors_complete (chat_id tenant_id start : string)
    (edge_type : option string) (hops : Z) (db : DB) (graph : DocumentGraph.t) :
  available db = true ->
  filter (fun g => DocumentGraph.chat_id g = chat_id
                   /\ DocumentGraph.tenant_id g = tenant_id)
         (document_graphs db) = [graph] ->
  exists found,
    get_neighbors chat_id tenant_id start edge_type hops db = (Ok found, db)
    /\ forall x n,
         x <> start ->
         DocumentGraph.nodes graph !! x = Some n ->
         within_hops graph edge_type start (Z.to_nat hops) x ->
         exists nb, nb ∈ found /\ GraphEdge.target_id (edge nb) = x /\ node nb = n.
Proof.
  intros Havail Hrow. eexists. split; [by apply get_neighbors_runs|].
  intros x n Hne Hnode Hwithin.
  set (t0 := {| visited := {[ start ]}; next_layer := [start]; neighbors := [] |}).
  assert (Hseen0 : forall y, y ∈ visited t0 <-> within_hops graph edge_type start 0 y).
  { intros y. simpl. rewrite elem_of_singleton. split.
    - intros ->. exists 0%nat. split; [lia|constructor].
    - intros (m & Hm & Hsteps). assert (m = 0%nat) as -> by lia.
      by inversion Hsteps. }
  assert (Hlayer0 : forall y, y ∈ next_layer t0
                              <-> first_reached graph edge_type start 0 y).
  { intros y. simpl. rewrite list_elem_of_singleton. split.
    - intros ->. split; [constructor|]. intros m Hm. lia.
    - intros [Hsteps _]. by inversion Hsteps. }
  assert (Hx : x ∈ visited (hop_state graph edge_type (Z.to_nat hops) 0 t0)).
  { apply (hop_state_visited graph edge_type start (Z.to_nat hops) 0 t0);
      [done|done|constructor| |constructor|done].
    intros y Hy. by apply elem_of_nil in Hy. }
  assert (Hcov : covered graph start (hop_state graph edge_type (Z.to_nat hops) 0 t0)).
  { apply hop_state_covered. intros y Hy Hney. simpl in Hy.
    apply elem_of_singleton in Hy. done. }
  specialize (Hcov x Hx Hne (ltac:(by eexists))).
  apply list_elem_of_fmap in Hcov as (nb & Htarget & Hnb).
  exists nb. split; [done|]. split; [done|].
  destruct (hop_loop_spec graph edge_type start (Z.to_nat hops) 0 {[ start ]} [start] [])
    as [Hfound _]; [done|done|constructor| |constructor|].
  { intros y Hy. by apply elem_of_nil in Hy. }
  rewrite hop_loop_state in Hfound. fold t0 in Hfound.
  rewrite Forall_forall in Hfound.
  destruct (Hfound nb Hnb) as (_ & Hstored & _).
  rewrite <- Htarget, Hnode in Hstored. congruence.
Qed.
End NeighborProperties.

Module IndexLifecycle.
Import SessionFacts.

(** ** Filters *)

Lemma filter_and {A} (P Q : A -> Prop) `{forall x, Decision (P x)}
    `{forall x, Decision (Q x)} (l : list A) :
  filter (fun x => P x /\ Q x) l = filter Q (filter P l).
Proof.
  induction l as [|x l IH]; [done|].
  rewrite !filter_cons. destruct (decide (P x)) as [HP|HP].
  - rewrite filter_cons. destruct (decide (Q x)) as [HQ|HQ].
    + rewrite decide_True by done. by rewrite IH.
    + rewrite decide_False by tauto. done.
  - rewrite decide_False by tauto. done.
Qed.

Lemma filter_fmap_stable {A} (P : A -> Prop) `{forall x, Decision (P x)}
    (f : A -> A) (l : list A) :
  (forall x, P (f x) <-> P x) -> filter P (f <$> l) = f <$> filter P l.
Proof.
  intros Hf. induction l as [|x l IH]; [done|].
  rewrite fmap_cons, !filter_cons.
  destruct (decide (P x)) as [HP|HP].
  - rewrite decide_True by (by apply Hf). by rewrite fmap_cons, IH.
  - rewrite decide_False by (by rewrite Hf). done.
Qed.

Lemma filter_empty_sub {A} (P Q : A -> Prop) `{forall x, Decision (P x)}
    `{forall x, Decision (Q x)} (l : list A) :
  (forall x, Q x -> P x) -> filter P l = [] -> filter Q l = [].
Proof.
  intros HQP. induction l as [|x l IH]; [done|].
  rewrite !filter_cons. destruct (decide (P x)) as [HP|HP]; [done|].
  intros Hl. rewrite decide_False by (intros HQ; by apply HP, HQP). by apply IH.
Qed.

Section Lifecycle.
Context {U : Unicode} {E : Externals} {O : OrderBy} {L : OrderByLaws O}.

(** The units of a collection, as [_load_atomic_units] returns them. *)
Definition units_of (db : DB) (chat_id tenant_id : string) : list AtomicUnit.t :=
  order_by AtomicUnit.sequence
           (filter (fun unit => AtomicUnit.chat_id unit = chat_id
                                /\ AtomicUnit.tenant_id unit = tenant_id)
                   (atomic_units db)).

Lemma load_atomic_units_available db chat_id tenant_id :
  available db = true ->
  BM25._load_atomic_units chat_id tenant_id db = (Ok (units_of db chat_id tenant_id), db).
Proof.
  intros Havail. unfold BM25._load_atomic_units, select_ordered. by rewrite Havail.
Qed.

Lemma elem_of_units_of db chat_id tenant_id u :
  u ∈ units_of db chat_id tenant_id
  <-> u ∈ atomic_units db /\ AtomicUnit.chat_id u = chat_id
      /\ AtomicUnit.tenant_id u = tenant_id.
Proof.
  unfold units_of. rewrite order_by_Permutation, list_elem_of_filter. tauto.
Qed.

(** The row [build_index] writes for the units [units]. *)
Definition index_for (tokenizer : Tokenizer.MultilingualTokenizer)
    (chat_id tenant_id : string) (units : list AtomicUnit.t) : BM25Index.t :=
  let corpus_tokens :=
    (fun unit => Tokenizer.tokenize tokenizer (AtomicUnit.text unit)) <$> units in
  {| BM25Index.tenant_id := tenant_id;
     BM25Index.chat_id := chat_id;
     BM25Index.corpus_tokens := corpus_tokens;
     BM25Index.doc_ids := AtomicUnit.id <$> units;
     BM25Index.doc_metadata := BM25.metadata_of <$> units;
     BM25Index.document_count := Z.of_nat (length units);
     BM25Index.total_tokens :=
       foldl Z.add 0 ((fun tokens => Z.of_nat (length tokens)) <$> corpus_tokens) |}.

(** The table of indexes after [build_index] for the collection. *)
Definition indexes_after (tokenizer : Tokenizer.MultilingualTokenizer)
    (chat_id tenant_id : string) (db : DB) : list BM25Index.t :=
  let index := index_for tokenizer chat_id tenant_id (units_of db chat_id tenant_id) in
  match filter (fun i => BM25Index.chat_id i = chat_id) (bm25_indexes db) with
  | [] => bm25_indexes db ++ [index]
  | _ => (fun row => if decide (BM25Index.chat_id row = chat_id) then index else row)
           <$> bm25_indexes db
  end.

(** [build_index] on a collection with units whose chat has no index row,
    or one row that belongs to the tenant. *)
Lemma build_index_runs tokenizer chat_id tenant_id db :
  available db = true ->
  units_of db chat_id tenant_id <> [] ->
  (filter (fun i => BM25Index.chat_id i = chat_id) (bm25_indexes db) = []
   \/ exists old, filter (fun i => BM25Index.chat_id i = chat_id) (bm25_indexes db)
                  = [old]
                  /\ BM25Index.tenant_id old = tenant_id) ->
  let units := units_of db chat_id tenant_id in
  let index := index_for tokenizer chat_id tenant_id units in
  BM25.build_index tokenizer chat_id tenant_id db
  = (Ok {| BM25.stats_chat_id := chat_id;
           BM25.stats_document_count := BM25Index.document_count index;
           BM25.stats_total_tokens := BM25Index.total_tokens index;
           BM25.stats_status := "success" |},
     with_bm25_indexes (indexes_after tokenizer chat_id tenant_id db) db).
Proof.
  intros Havail Hunits Hrows. cbv zeta.
  unfold BM25.build_index, try_, bind.
  rewrite load_atomic_units_available by done.
  unfold indexes_after.
  remember (units_of db chat_id tenant_id) as units eqn:Hu.
  destruct units as [|u us] eqn:Hus; [done|]. rewrite <- Hus. clear Hunits Hus Hu u us.
  unfold BM25._save_index, bind, select, lift. rewrite Havail.
  set (index := index_for tokenizer chat_id tenant_id units).
  destruct Hrows as [Hnone|(old & Hone & Htenant)].
  - rewrite Hnone. cbn [scalar_one_or_none]. unfold add_bm25_index, commit.
    cbn [available with_bm25_indexes]. rewrite Havail. reflexivity.
  - rewrite Hone. cbn [scalar_one_or_none]. unfold update_bm25_index, commit.
    cbn [available with_bm25_indexes]. rewrite Havail. unfold ret.
    do 2 f_equal. apply list_fmap_ext. intros i row Hrow.
    destruct (decide (BM25Index.chat_id row = chat_id)) as [Hchat|]; [|done].
    assert (row ∈ filter (fun i => BM25Index.chat_id i = chat_id) (bm25_indexes db))
      as Hin by (apply list_elem_of_filter; split; [done|by eapply list_elem_of_lookup_2]).
    rewrite Hone in Hin. apply list_elem_of_singleton in Hin. subst row.
    unfold index, index_for. by rewrite Hchat, Htenant.
Qed.

Lemma indexes_after_lookup tokenizer chat_id tenant_id db :
  (filter (fun i => BM25Index.chat_id i = chat_id) (bm25_indexes db) = []
   \/ exists old, filter (fun i => BM25Index.chat_id i = chat_id) (bm25_indexes db)
                  = [old]
                  /\ BM25Index.tenant_id old = tenant_id) ->
  filter (fun i => BM25Index.chat_id i = chat_id /\ BM25Index.tenant_id i = tenant_id)
         (indexes_after tokenizer chat_id tenant_id db)
  = [index_for tokenizer chat_id tenant_id (units_of db chat_id tenant_id)].
Proof.
  intros Hrows. unfold indexes_after.
  set (index := index_for tokenizer chat_id tenant_id (units_of db chat_id tenant_id)).
  destruct Hrows as [Hnone|(old & Hone & Htenant)].
  - rewrite Hnone, filter_app, filter_and, Hnone. simpl.
    rewrite filter_cons_True by done. done.
  - rewrite Hone. rewrite filter_and.
    rewrite filter_fmap_stable; last first.
    { intros row. destruct (decide (BM25Index.chat_id row = chat_id)); [|done].
      by split. }
    rewrite Hone. cbn [fmap list_fmap]. rewrite decide_True; last first.
    { assert (old ∈ filter (fun i => BM25Index.chat_id i = chat_id) (bm25_indexes db))
        as Hin by (rewrite Hone; by apply list_elem_of_singleton).
      by apply list_elem_of_filter in Hin as [? _]. }
    by rewrite filter_cons_True by done.
Qed.

Lemma indexes_after_others tokenizer chat_id tenant_id db :
  filter (fun i => BM25Index.chat_id i <> chat_id)
         (indexes_after tokenizer chat_id tenant_id db)
  = filter (fun i => BM25Index.chat_id i <> chat_id) (bm25_indexes db).
Proof.
  unfold indexes_after.
  destruct (filter (fun i => BM25Index.chat_id i = chat_id) (bm25_indexes db)).
  - rewrite filter_app. rewrite (filter_cons_False _ (index_for _ _ _ _)) by (simpl; tauto).
    by rewrite filter_nil, app_nil_r.
  - induction (bm25_indexes db) as [|row rows IH]; [done|].
    rewrite fmap_cons, !filter_cons.
    destruct (decide (BM25Index.chat_id row = chat_id)) as [Hchat|Hchat].
    + rewrite decide_False by (simpl; tauto).
      rewrite (decide_False (P := _ <> _)) by tauto. exact IH.
    + rewrite !decide_True by done. by rewrite IH.
Qed.
Lemma indexes_after_chat tokenizer chat_id tenant_id db :
  (filter (fun i => BM25Index.chat_id i = chat_id) (bm25_indexes db) = []
   \/ exists old, filter (fun i => BM25Index.chat_id i = chat_id) (bm25_indexes db)
                  = [old]
                  /\ BM25Index.tenant_id old = tenant_id) ->
  filter (fun i => BM25Index.chat_id i = chat_id)
         (indexes_after tokenizer chat_id tenant_id db)
  = [index_for tokenizer chat_id tenant_id (units_of db chat_id tenant_id)].
Proof.
  intros Hrows. unfold indexes_after.
  set (index := index_for tokenizer chat_id tenant_id (units_of db chat_id tenant_id)).
  destruct Hrows as [Hnone|(old & Hone & Htenant)].
  - rewrite Hnone, filter_app, Hnone. simpl.
    rewrite filter_cons_True by done. done.
  - rewrite Hone.
    rewrite filter_fmap_stable; last first.
    { intros row. destruct (decide (BM25Index.chat_id row = chat_id)); [|done].
      by split. }
    rewrite Hone. cbn [fmap list_fmap]. rewrite decide_True; [done|].
    assert (old ∈ filter (fun i => BM25Index.chat_id i = chat_id) (bm25_indexes db))
      as Hin by (rewrite Hone; by apply list_elem_of_singleton).
    by apply list_elem_of_filter in Hin as [? _].
Qed.

Lemma load_index_one chat_id tenant_id db index :
  available db = true ->
  filter (fun i => BM25Index.chat_id i = chat_id /\ BM25Index.tenant_id i = tenant_id)
         (bm25_indexes db) = [index] ->
  BM25._load_index chat_id tenant_id db = (Ok (Some index), db).
Proof.
  intros Havail Hrow. unfold BM25._load_index, bind, select, lift.
  by rewrite Havail, Hrow.
Qed.
End Lifecycle.

(** ** What a user of the index can rely on *)

(** A collection without units has no index built: [build_index] raises
    [BM25BuildError] and writes nothing. *)
Theorem build_index_without_units {U : Unicode} {E : Externals} {O : OrderBy}
    {L : OrderByLaws O} (tokenizer : Tokenizer.MultilingualTokenizer)
    (chat_id tenant_id : string) (db : DB) :
  available db = true ->
  filter (fun unit => AtomicUnit.chat_id unit = chat_id
                      /\ AtomicUnit.tenant_id unit = tenant_id)
         (atomic_units db) = [] ->
  BM25.build_index tokenizer chat_id tenant_id db
  = (Raise (BM25BuildError NoAtomicUnits), db).
Proof.
  intros Havail Hnone. unfold BM25.build_index, try_, bind.
  rewrite load_atomic_units_available by done.
  assert (units_of db chat_id tenant_id = []) as ->; [|done].
  unfold units_of. rewrite Hnone. apply Permutation_nil_r.
  apply order_by_Permutation.
Qed.

(** Building, then loading.  For a collection with units whose chat has
    no index row yet, or one row that belongs to the tenant,
    [build_index] succeeds and counts the units; afterwards [_load_index]
    returns the row that was built from the units of the collection in
    the order of their sequence numbers: the identifiers, the tokens and
    the metadata of the same unit stand at the same position.  The units
    and the index rows of other chats are left as they were. *)
Theorem build_index_then_load {U : Unicode} {E : Externals} {O : OrderBy}
    {L : OrderByLaws O} (tokenizer : Tokenizer.MultilingualTokenizer)
    (chat_id tenant_id : string) (db : DB) :
  available db = true ->
  units_of db chat_id tenant_id <> [] ->
  (filter (fun i => BM25Index.chat_id i = chat_id) (bm25_indexes db) = []
   \/ exists old, filter (fun i => BM25Index.chat_id i = chat_id) (bm25_indexes db)
                  = [old]
                  /\ BM25Index.tenant_id old = tenant_id) ->
  let units := units_of db chat_id tenant_id in
  exists stats db',
    BM25.build_index tokenizer chat_id tenant_id db = (Ok stats, db')
    /\ BM25.stats_document_count stats = Z.of_nat (length units)
    /\ BM25.stats_status stats = "success"%string
    /\ BM25._load_index chat_id tenant_id db'
       = (Ok (Some (index_for tokenizer chat_id tenant_id units)), db')
    /\ atomic_units db' = atomic_units db
    /\ filter (fun i => BM25Index.chat_id i <> chat_id) (bm25_indexes db')
       = filter (fun i => BM25Index.chat_id i <> chat_id) (bm25_indexes db)
    /\ units ≡ₚ filter (fun unit => AtomicUnit.chat_id unit = chat_id
                                    /\ AtomicUnit.tenant_id unit = tenant_id)
                       (atomic_units db)
    /\ StronglySorted (fun a b => AtomicUnit.sequence a <= AtomicUnit.sequence b) units.
Proof.
  intros Havail Hunits Hrows units.
  eexists _, _. split; [by apply build_index_runs|].
  split; [done|]. split; [done|]. split.
  { apply load_index_one; [done|]. cbn [bm25_indexes with_bm25_indexes].
    by apply indexes_after_lookup. }
  split; [done|]. split; [apply indexes_after_others|].
  split; [apply order_by_Permutation|apply order_by_sorted].
Qed.

(** Building the index again, with the units unchanged, changes nothing:
    the second [build_index] returns the statistics of the first and
    leaves the tables as the first left them.  (The time stamp of the row
    is not modelled.) *)
Theorem build_index_twice {U : Unicode} {E : Externals} {O : OrderBy}
    {L : OrderByLaws O} (tokenizer : Tokenizer.MultilingualTokenizer)
    (chat_id tenant_id : string) (db : DB) :
  available db = true ->
  units_of db chat_id tenant_id <> [] ->
  (filter (fun i => BM25Index.chat_id i = chat_id) (bm25_indexes db) = []
   \/ exists old, filter (fun i => BM25Index.chat_id i = chat_id) (bm25_indexes db)
                  = [old]
                  /\ BM25Index.tenant_id old = tenant_id) ->
  (_ <- BM25.build_index tokenizer chat_id tenant_id ;;
   BM25.build_index tokenizer chat_id tenant_id)%session db
  = BM25.build_index tokenizer chat_id tenant_id db.
Proof.
  intros Havail Hunits Hrows. unfold bind at 1.
  rewrite (build_index_runs tokenizer chat_id tenant_id db) by done. cbv zeta.
  set (db' := with_bm25_indexes (indexes_after tokenizer chat_id tenant_id db) db).
  assert (Hunits' : units_of db' chat_id tenant_id = units_of db chat_id tenant_id)
    by done.
  assert (Hchat : filter (fun i => BM25Index.chat_id i = chat_id) (bm25_indexes db')
                  = [index_for tokenizer chat_id tenant_id
                               (units_of db chat_id tenant_id)])
    by (by apply indexes_after_chat).
  rewrite (build_index_runs tokenizer chat_id tenant_id db'); [|done|by rewrite Hunits'|].
  2:{ right. eexists. split; [exact Hchat|done]. }
  assert (Hsame : indexes_after tokenizer chat_id tenant_id db'
                  = indexes_after tokenizer chat_id tenant_id db).
  { unfold indexes_after at 1. rewrite Hchat, Hunits'.
    change (bm25_indexes db') with (indexes_after tokenizer chat_id tenant_id db) in *.
    set (index := index_for tokenizer chat_id tenant_id (units_of db chat_id tenant_id))
      in *.
    rewrite <- (list_fmap_id (indexes_after tokenizer chat_id tenant_id db)) at 2.
    apply list_fmap_ext. intros i row Hrow. simpl.
    destruct (decide (BM25Index.chat_id row = chat_id)) as [Hc|]; [|done].
    assert (row ∈ filter (fun i => BM25Index.chat_id i = chat_id)
                         (indexes_after tokenizer chat_id tenant_id db))
      as Hin by (apply list_elem_of_filter; split; [done|by eapply list_elem_of_lookup_2]).
    rewrite Hchat in Hin. by apply list_elem_of_singleton in Hin. }
  cbv zeta. rewrite Hunits', Hsame. reflexivity.
Qed.
End IndexLifecycle.

Module IndexUse.
Import SessionFacts SortFacts BM25Facts HybridProperties RetrieveProperties IndexLifecycle.

(** What [search] does with the one row of the collection. *)
Lemma search_one {U : Unicode} {E : Externals} tokenizer chat_id tenant_id query
    top_k db index :
  available db = true ->
  filter (fun i => BM25Index.chat_id i = chat_id /\ BM25Index.tenant_id i = tenant_id)
         (bm25_indexes db) = [index] ->
  exists r,
    BM25.search tokenizer chat_id tenant_id query top_k db = (r, db)
    /\ forall hits, r = Ok hits ->
         exists scores,
           okapi_scores (BM25Index.corpus_tokens index)
                        (Tokenizer.tokenize tokenizer query) = Ok scores
           /\ Forall2 (hit_at index scores) hits
                      (filter (fun i => BM25.positive (BM25.score_at scores i) = true)
                              (BM25.top_indices scores top_k)).
Proof.
  intros Havail Hrow.
  unfold BM25.search, try_, bind, BM25._load_index, bind, select, lift.
  rewrite Havail, Hrow. cbn [scalar_one_or_none].
  destruct (okapi_scores _ _) as [scores|e] eqn:Hscores.
  - destruct (BM25.format_results index scores _) as [hits|e] eqn:Hfmt.
    + eexists. split; [done|]. intros ? [= <-]. exists scores.
      split; [done|]. by eapply format_results_hits.
    + destruct e; by eexists.
  - destruct e; by eexists.
Qed.

(** Building, then searching.  After [build_index] for a collection,
    every hit of a search in it names a unit of that collection, with the
    metadata of that unit; when the identifiers of the units are distinct
    no unit is returned twice. *)
Theorem build_index_then_search {U : Unicode} {E : Externals} {O : OrderBy}
    {L : OrderByLaws O} (tokenizer : Tokenizer.MultilingualTokenizer)
    (chat_id tenant_id : string) (db : DB) (query : str) (top_k : Z) :
  available db = true ->
  units_of db chat_id tenant_id <> [] ->
  (filter (fun i => BM25Index.chat_id i = chat_id) (bm25_indexes db) = []
   \/ exists old, filter (fun i => BM25Index.chat_id i = chat_id) (bm25_indexes db)
                  = [old]
                  /\ BM25Index.tenant_id old = tenant_id) ->
  exists stats db' r,
    BM25.build_index tokenizer chat_id tenant_id db = (Ok stats, db')
    /\ BM25.search tokenizer chat_id tenant_id query top_k db' = (r, db')
    /\ forall hits, r = Ok hits ->
         Forall (fun h => exists unit,
                     unit ∈ atomic_units db
                     /\ AtomicUnit.chat_id unit = chat_id
                     /\ AtomicUnit.tenant_id unit = tenant_id
                     /\ BM25.atomic_unit_id h = AtomicUnit.id unit
                     /\ BM25.metadata h = BM25.metadata_of unit) hits
         /\ (NoDup (AtomicUnit.id <$> atomic_units db) ->
             NoDup (BM25.atomic_unit_id <$> hits)).
Proof.
  intros Havail Hunits Hrows.
  set (units := units_of db chat_id tenant_id).
  set (index := index_for tokenizer chat_id tenant_id units).
  set (db' := with_bm25_indexes (indexes_after tokenizer chat_id tenant_id db) db).
  destruct (search_one tokenizer chat_id tenant_id query top_k db' index)
    as (r & Hsearch & Hr); [done|by apply indexes_after_lookup|].
  eexists _, db', r. split; [by apply build_index_runs|]. split; [done|].
  intros hits ->. destruct (Hr hits eq_refl) as (scores & _ & Hhits).
  split.
  - apply Forall_forall. intros h Hh.
    apply list_elem_of_lookup in Hh as [p Hp].
    destruct (Forall2_lookup_l _ _ _ _ _ Hhits Hp) as (i & _ & Hid & Hmd & _).
    unfold index, index_for in Hid, Hmd. simpl in Hid, Hmd.
    rewrite list_lookup_fmap in Hid. rewrite list_lookup_fmap in Hmd.
    destruct (units !! i) as [unit|] eqn:Hunit; [|done].
    injection Hid as Hid. injection Hmd as Hmd.
    apply list_elem_of_lookup_2, elem_of_units_of in Hunit as (Hin & Hchat & Htenant).
    by exists unit.
  - intros Hnd. eapply hits_distinct; [| |exact Hhits].
    + unfold index, index_for. simpl. unfold units, units_of.
      rewrite order_by_Permutation. by apply NoDup_fmap_filter.
    + apply NoDup_filter, NoDup_slice_to.
      rewrite sorted_desc_Permutation. apply NoDup_seq.
Qed.
(** [delete_index] removes the one index row of the collection and
    answers [True]; a search in the collection then raises
    [BM25IndexNotFoundError], and the rows of other collections are left
    as they were.  Without a row for the collection it answers [False]
    and writes nothing. *)
Theorem delete_index_then_search {U : Unicode} {E : Externals}
    (tokenizer : Tokenizer.MultilingualTokenizer) (chat_id tenant_id : string)
    (db : DB) (query : str) (top_k : Z) :
  available db = true ->
  let own := fun i => BM25Index.chat_id i = chat_id
                      /\ BM25Index.tenant_id i = tenant_id in
  match filter own (bm25_indexes db) with
  | [] => BM25.delete_index chat_id tenant_id db = (Ok false, db)
  | [_] =>
    exists db',
      BM25.delete_index chat_id tenant_id db = (Ok true, db')
      /\ bm25_indexes db' = filter (fun i => ~ own i) (bm25_indexes db)
      /\ atomic_units db' = atomic_units db
      /\ BM25.search tokenizer chat_id tenant_id query top_k db'
         = (Raise BM25IndexNotFoundError, db')
  | _ => BM25.delete_index chat_id tenant_id db = (Raise MultipleResultsFound, db)
  end.
Proof.
  intros Havail own.
  destruct (filter own (bm25_indexes db)) as [|index [|index' rows]] eqn:Hrows.
  - unfold BM25.delete_index, bind, select, lift. fold own. by rewrite Havail, Hrows.
  - eexists. split.
    { unfold BM25.delete_index, bind, select, lift. fold own. rewrite Havail, Hrows.
      cbn [scalar_one_or_none]. unfold delete_bm25_index, commit.
      cbn [available with_bm25_indexes]. rewrite Havail. reflexivity. }
    split; [done|]. split; [done|].
    unfold BM25.search, try_, bind, BM25._load_index, bind, select, lift.
    cbn [available with_bm25_indexes bm25_indexes]. rewrite Havail. fold own.
    assert (filter own (filter (fun i => ~ own i) (bm25_indexes db)) = []) as ->;
      [|done].
    apply filter_none. apply Forall_forall.
    intros i [Hnot _]%list_elem_of_filter. done.
  - unfold BM25.delete_index, bind, select, lift. fold own. by rewrite Havail, Hrows.
Qed.

Lemma format_results_raises {U : Unicode} {E : Externals} index scores top e :
  BM25.format_results index scores top = Raise e -> e = IndexError.
Proof.
  induction top as [|idx top IH]; simpl; [done|].
  destruct (BM25.positive _); [|done]. unfold item.
  destruct (BM25Index.doc_ids index !! idx); [|by intros [= <-]].
  destruct (BM25Index.doc_metadata index !! idx); [|by intros [= <-]].
  destruct (BM25.format_results index scores top); [done|].
  intros [= <-]. by apply IH.
Qed.

(** The errors of [search]: it never writes, and it raises nothing but
    [BM25IndexNotFoundError] and [BM25Error].  [BM25IndexNotFoundError]
    is raised exactly when the database can be reached and the collection
    has no index row; a database that cannot be reached gives [BM25Error]
    around the error of the query.  (The ranking library does not raise
    the service's own [BM25IndexNotFoundError].) *)
Theorem search_errors {U : Unicode} {E : Externals}
    (tokenizer : Tokenizer.MultilingualTokenizer) (chat_id tenant_id : string)
    (query : str) (top_k : Z) (db : DB) :
  (forall corpus tokens, okapi_scores corpus tokens <> Raise BM25IndexNotFoundError) ->
  exists r,
    BM25.search tokenizer chat_id tenant_id query top_k db = (r, db)
    /\ (r = Raise BM25IndexNotFoundError
        <-> available db = true
            /\ filter (fun i => BM25Index.chat_id i = chat_id
                                /\ BM25Index.tenant_id i = tenant_id)
                      (bm25_indexes db) = [])
    /\ (available db = false -> r = Raise (BM25Error OperationalError))
    /\ (forall e, r = Raise e ->
          e = BM25IndexNotFoundError \/ exists cause, e = BM25Error cause).
Proof.
  intros Hokapi.
  unfold BM25.search, try_, bind, BM25._load_index, bind, select, lift.
  destruct (available db) eqn:Havail.
  2:{ eexists. split; [done|]. split; [split; [done|by intros [? _]]|].
      split; [done|]. intros e [= <-]. right. by eexists. }
  destruct (filter _ (bm25_indexes db)) as [|index [|index' rows]] eqn:Hrows;
    cbn [scalar_one_or_none].
  - eexists. split; [done|]. split; [done|]. split; [done|].
    intros e [= <-]. by left.
  - destruct (okapi_scores _ _) as [scores|e] eqn:Hscores.
    + destruct (BM25.format_results index scores _) as [hits|e] eqn:Hfmt.
      * eexists. split; [done|]. split; [split; [done|by intros [_ ?]]|].
        split; [done|]. done.
      * apply format_results_raises in Hfmt as ->.
        eexists. split; [done|]. split; [split; [done|by intros [_ ?]]|].
        split; [done|]. intros e [= <-]. right. by eexists.
    + assert (e <> BM25IndexNotFoundError) as He.
      { intros ->. by eapply Hokapi. }
      destruct e; try done;
        (eexists; split; [done|]; split; [split; [done|by intros [_ ?]]|];
         split; [done|]; intros e' [= <-]; right; by eexists).
  - eexists. split; [done|]. split; [split; [done|by intros [_ ?]]|].
    split; [done|]. intros e [= <-]. right. by eexists.
Qed.
End IndexUse.

Module GraphShape.
Import GraphBuilder GraphBuilderFacts DictFacts.

(** ** The nodes *)

Definition node_of (unit : AtomicUnit.t) : GraphNode.t :=
  {| GraphNode.node_id := AtomicUnit.id unit;
     GraphNode.node_type := AtomicUnit.unit_type unit;
     GraphNode.text := AtomicUnit.text unit;
     GraphNode.level := AtomicUnit.level unit;
     GraphNode.sequence := AtomicUnit.sequence unit;
     GraphNode.document_id := AtomicUnit.document_id unit;
     GraphNode.page_number := AtomicUnit.page_number unit;
     GraphNode.section_title := AtomicUnit.section_title unit |}.

Lemma create_nodes_fold units :
  _create_nodes units
  = foldl (fun nodes unit => <[ AtomicUnit.id unit := node_of unit ]> nodes) ∅ units.
Proof. done. Qed.

Lemma create_nodes_from (acc : gmap string GraphNode.t) units key :
  foldl (fun nodes unit => <[ AtomicUnit.id unit := node_of unit ]> nodes) acc units
    !! key
  = match last (filter (fun unit => AtomicUnit.id unit = key) units) with
    | Some unit => Some (node_of unit)
    | None => acc !! key
    end.
Proof.
  revert acc. induction units as [|unit units IH]; intros acc; [done|].
  simpl. rewrite IH. rewrite filter_cons.
  destruct (decide (AtomicUnit.id unit = key)) as [Hid|Hid].
  - destruct (filter _ units) as [|u us] eqn:Hrest.
    + simpl. by rewrite <- Hid, lookup_insert_eq.
    + rewrite last_cons_cons. destruct (last (u :: us)) eqn:Hl; [done|].
      by apply last_None in Hl.
  - destruct (last (filter _ units)); [done|]. by rewrite lookup_insert_ne.
Qed.

(** The node stored under an identifier is made of the last unit that
    has the identifier. *)
Lemma create_nodes_last units key :
  _create_nodes units !! key
  = node_of <$> last (filter (fun unit => AtomicUnit.id unit = key) units).
Proof.
  rewrite create_nodes_fold, create_nodes_from.
  destruct (last _); [done|]. apply lookup_empty.
Qed.

Lemma create_nodes_stored units key :
  is_Some (_create_nodes units !! key) <-> key ∈ AtomicUnit.id <$> units.
Proof.
  rewrite create_nodes_last, fmap_is_Some. split.
  - intros [unit Hlast]. apply last_Some_elem_of, list_elem_of_filter in Hlast
      as [Hid Hin]. apply list_elem_of_fmap. by exists unit.
  - intros (unit & -> & Hin)%list_elem_of_fmap.
    destruct (filter (fun u => AtomicUnit.id u = AtomicUnit.id unit) units)
      as [|u us] eqn:Hf.
    + assert (unit ∈ filter (fun u => AtomicUnit.id u = AtomicUnit.id unit) units)
        as Hu by (by apply list_elem_of_filter).
      rewrite Hf in Hu. by apply elem_of_nil in Hu.
    + apply last_is_Some. done.
Qed.

Lemma create_nodes_key units key n :
  _create_nodes units !! key = Some n ->
  GraphNode.node_id n = key
  /\ exists unit, unit ∈ units /\ n = node_of unit.
Proof.
  rewrite create_nodes_last. intros (unit & Hlast & ->)%fmap_Some.
  apply last_Some_elem_of, list_elem_of_filter in Hlast as [Hid Hin].
  split; [done|]. by exists unit.
Qed.

(** ** The edges *)

Lemma sequence_edges_units units :
  Forall (fun e => GraphEdge.edge_type e = EdgeType.NEXT
                   /\ GraphEdge.source_id e ∈ AtomicUnit.id <$> units
                   /\ GraphEdge.target_id e ∈ AtomicUnit.id <$> units)
         (_create_sequence_edges units).
Proof.
  induction units as [|u [|v units] IH]; simpl; [constructor..|].
  constructor.
  - simpl. split; [done|]. set_solver.
  - eapply Forall_impl; [exact IH|]. intros e (? & ? & ?).
    split; [done|]. set_solver.
Qed.

Section References.
Context {U : Unicode}.

(** Every target of the lookup is the node of a heading or a section. *)
Lemma heading_lookup_targets nodes number target :
  dict_get (heading_lookup nodes) number = Some target ->
  exists n, n ∈ nodes /\ GraphNode.node_id n = target
            /\ GraphNode.node_type n ∈ ["heading"; "section"]%string.
Proof.
  unfold heading_lookup.
  assert (Hgen : forall acc : dict str string,
             dict_get
               (foldl
                  (fun lookup node =>
                     if bool_decide (GraphNode.node_type node
                                     ∈ ["heading"; "section"]%string)
                     then match findall [Plus is_decimal] (GraphNode.text node) with
                          | number :: _ =>
                            dict_set lookup number (GraphNode.node_id node)
                          | [] => lookup
                          end
                     else lookup) acc nodes) number = Some target ->
             (exists n, n ∈ nodes /\ GraphNode.node_id n = target
                        /\ GraphNode.node_type n ∈ ["heading"; "section"]%string)
             \/ dict_get acc number = Some target).
  { induction nodes as [|node nodes IH]; intros acc; simpl; [by right|].
    intros [(n & Hn & Hid & Hty)|Hacc]%IH.
    - left. exists n. split; [by apply elem_of_cons; right|done].
    - case_bool_decide as Hty; [|by right].
      destruct (findall _ _) as [|num nums]; [by right|].
      rewrite dict_get_set in Hacc.
      destruct (decide (num = number)); [|by right].
      injection Hacc as <-. left. exists node.
      split; [by apply elem_of_cons; left|done]. }
  intros [H|H]%Hgen; [done|done].
Qed.

Definition reference_ok (units : list AtomicUnit.t) (nodes : list GraphNode.t)
    (e : GraphEdge.t) : Prop :=
  GraphEdge.edge_type e = EdgeType.REFERS_TO
  /\ GraphEdge.source_id e ∈ AtomicUnit.id <$> units
  /\ GraphEdge.source_id e <> GraphEdge.target_id e
  /\ exists n, n ∈ nodes /\ GraphNode.node_id n = GraphEdge.target_id e
               /\ GraphNode.node_type n ∈ ["heading"; "section"]%string.

Lemma reference_edge_ok units nodes unit edges text :
  unit ∈ units ->
  Forall (reference_ok units nodes) edges ->
  Forall (reference_ok units nodes)
         (reference_edge unit (heading_lookup nodes) edges text).
Proof.
  intros Hunit Hedges. unfold reference_edge.
  destruct (findall _ text) as [|number numbers]; [done|].
  destruct (dict_get _ number) as [target|] eqn:Hget; [|done].
  case_bool_decide as Hself; [done|].
  apply Forall_app. split; [done|]. constructor; [|constructor].
  split; [done|]. simpl. split; [apply list_elem_of_fmap; by exists unit|].
  split; [done|]. by eapply heading_lookup_targets.
Qed.

Lemma reference_edges_ok units nodes :
  Forall (reference_ok units (values units nodes))
         (_create_reference_edges units nodes).
Proof.
  unfold _create_reference_edges.
  set (lookup := heading_lookup (values units nodes)).
  assert (Hgen : forall (us : list AtomicUnit.t) edges,
             us ⊆ units ->
             Forall (reference_ok units (values units nodes)) edges ->
             Forall (reference_ok units (values units nodes))
                    (foldl (fun edges unit =>
                              foldl (reference_edge unit lookup) edges
                                    (finditer patterns (AtomicUnit.text unit)))
                           edges us)).
  { induction us as [|u us IH]; intros edges Hsub Hedges; simpl; [done|].
    apply IH; [set_solver|].
    assert (Hu : u ∈ units) by set_solver.
    generalize (finditer patterns (AtomicUnit.text u)) as texts.
    intros texts. revert edges Hedges.
    induction texts as [|text texts IHt]; intros edges Hedges; simpl; [done|].
    apply IHt. by apply reference_edge_ok. }
  apply Hgen; [done|constructor].
Qed.
End References.

(** The graph the builder makes is closed: there is a node for every
    unit identifier and for no other, and every edge joins two nodes of
    the graph and is of type CONTAINS, NEXT or REFERS_TO.  A REFERS_TO edge
    never joins a node to itself, and it ends at the node of a heading or
    a section.  Of no units the builder makes the empty graph. *)
Theorem build_graph_closed {U : Unicode} (units : list AtomicUnit.t) :
  let nodes := (build_graph units).1 in
  let edges := (build_graph units).2 in
  (units = [] -> nodes = ∅ /\ edges = [])
  /\ (forall key, is_Some (nodes !! key) <-> key ∈ AtomicUnit.id <$> units)
  /\ Forall (fun e =>
               is_Some (nodes !! GraphEdge.source_id e)
               /\ is_Some (nodes !! GraphEdge.target_id e)
               /\ GraphEdge.edge_type e
                  ∈ [EdgeType.CONTAINS; EdgeType.NEXT; EdgeType.REFERS_TO]
               /\ (GraphEdge.edge_type e = EdgeType.REFERS_TO ->
                   GraphEdge.source_id e <> GraphEdge.target_id e
                   /\ exists n, nodes !! GraphEdge.target_id e = Some n
                                /\ GraphNode.node_type n
                                   ∈ ["heading"; "section"]%string))
            edges.
Proof.
  destruct units as [|u us].
  { simpl. split; [done|]. split; [|constructor].
    intros key. rewrite lookup_empty. split; [by intros [? ?]|by intros ?%elem_of_nil]. }
  set (units := u :: us).
  change (build_graph units)
    with (_create_nodes units,
          _create_hierarchy_edges units ++ _create_sequence_edges units
            ++ _create_reference_edges units (_create_nodes units)).
  cbn [fst snd]. split; [done|]. split; [apply create_nodes_stored|].
  rewrite !Forall_app. split; [|split].
  - destruct (hierarchy_fold_inv units [] ([], [])) as (_ & Hedges & _).
    { split; [constructor|]. split; [constructor|]. simpl. constructor. }
    simpl in Hedges. eapply Forall_impl; [exact Hedges|].
    intros e (Hty & p & c & Hp & Hc & Hsrc & Htgt & _).
    rewrite Hsrc, Htgt, Hty, !create_nodes_stored.
    split; [apply list_elem_of_fmap; by exists p|].
    split; [apply list_elem_of_fmap; by exists c|].
    split; [set_solver|]. done.
  - eapply Forall_impl; [apply sequence_edges_units|].
    intros e (Hty & Hsrc & Htgt). rewrite Hty, !create_nodes_stored.
    split; [done|]. split; [done|]. split; [set_solver|]. done.
  - eapply Forall_impl; [apply reference_edges_ok|].
    intros e (Hty & Hsrc & Hne & n & Hn & Hid & Hnty).
    assert (Hstored : _create_nodes units !! GraphEdge.target_id e = Some n).
    { unfold values in Hn. apply list_elem_of_omap in Hn as (key & _ & Hkey).
      pose proof (create_nodes_key _ _ _ Hkey) as [Hk _]. congruence. }
    rewrite Hty, create_nodes_stored, Hstored.
    split; [done|]. split; [done|]. split; [set_solver|].
    intros _. split; [done|]. by exists n.
Qed.
End GraphShape.

Module GraphLifecycle.
Import SessionFacts RetrievalFacts IndexLifecycle GraphShape.

Section Lifecycle.
Context {U : Unicode} {O : OrderBy} {L : OrderByLaws O}.

Lemma load_units_available db chat_id tenant_id :
  available db = true ->
  GraphService._load_atomic_units chat_id tenant_id db
  = (Ok (units_of db chat_id tenant_id), db).
Proof.
  intros Havail. unfold GraphService._load_atomic_units, select_ordered.
  by rewrite Havail.
Qed.

(** The row [build_graph] writes for the units [units]. *)
Definition graph_for (chat_id tenant_id : string) (units : list AtomicUnit.t)
  : DocumentGraph.t :=
  {| DocumentGraph.tenant_id := tenant_id;
     DocumentGraph.chat_id := chat_id;
     DocumentGraph.nodes := (GraphBuilder.build_graph units).1;
     DocumentGraph.edges := (GraphBuilder.build_graph units).2 |}.

(** The table of graphs after [build_graph] for the collection. *)
Definition graphs_after (chat_id tenant_id : string) (db : DB)
  : list DocumentGraph.t :=
  let graph := graph_for chat_id tenant_id (units_of db chat_id tenant_id) in
  match filter (fun g => DocumentGraph.chat_id g = chat_id) (document_graphs db) with
  | [] => document_graphs db ++ [graph]
  | _ => (fun row => if decide (DocumentGraph.chat_id row = chat_id) then graph else row)
           <$> document_graphs db
  end.

Definition statistics_for (chat_id : string) (units : list AtomicUnit.t)
  : GraphService.build_statistics :=
  let nodes := (GraphBuilder.build_graph units).1 in
  let edges := (GraphBuilder.build_graph units).2 in
  {| GraphService.stats_chat_id := chat_id;
     GraphService.stats_node_count := Z.of_nat (size nodes);
     GraphService.stats_edge_count := Z.of_nat (length edges);
     GraphService.stats_metadata := GraphService._calculate_metadata nodes edges;
     GraphService.stats_status := "success" |}.

Lemma build_graph_runs chat_id tenant_id db :
  available db = true ->
  units_of db chat_id tenant_id <> [] ->
  (filter (fun g => DocumentGraph.chat_id g = chat_id) (document_graphs db) = []
   \/ exists old, filter (fun g => DocumentGraph.chat_id g = chat_id)
                         (document_graphs db) = [old]
                  /\ DocumentGraph.tenant_id old = tenant_id) ->
  GraphService.build_graph chat_id tenant_id db
  = (inl (statistics_for chat_id (units_of db chat_id tenant_id)),
     with_document_graphs (graphs_after chat_id tenant_id db) db).
Proof.
  intros Havail Hunits Hrows.
  unfold GraphService.build_graph.
  rewrite load_units_available by done.
  unfold graphs_after, statistics_for, graph_for.
  remember (units_of db chat_id tenant_id) as units eqn:Hu.
  destruct units as [|u us] eqn:Hus; [done|]. rewrite <- Hus. clear Hunits Hus Hu u us.
  destruct (GraphBuilder.build_graph units) as [nodes edges]. cbn [fst snd].
  unfold GraphService._save_graph, bind, select, lift. rewrite Havail.
  destruct Hrows as [Hnone|(old & Hone & Htenant)].
  - rewrite Hnone. cbn [scalar_one_or_none]. unfold add_document_graph, commit.
    cbn [available with_document_graphs]. rewrite Havail. reflexivity.
  - rewrite Hone. cbn [scalar_one_or_none]. unfold update_document_graph, commit.
    cbn [available with_document_graphs]. rewrite Havail.
    do 2 f_equal. apply list_fmap_ext. intros i row Hrow.
    destruct (decide (DocumentGraph.chat_id row = chat_id)) as [Hchat|]; [|done].
    assert (row ∈ filter (fun g => DocumentGraph.chat_id g = chat_id)
                         (document_graphs db))
      as Hin by (apply list_elem_of_filter; split; [done|by eapply list_elem_of_lookup_2]).
    rewrite Hone in Hin. apply list_elem_of_singleton in Hin. subst row.
    by rewrite Hchat, Htenant.
Qed.

Lemma graphs_after_lookup chat_id tenant_id db :
  (filter (fun g => DocumentGraph.chat_id g = chat_id) (document_graphs db) = []
   \/ exists old, filter (fun g => DocumentGraph.chat_id g = chat_id)
                         (document_graphs db) = [old]
                  /\ DocumentGraph.tenant_id old = tenant_id) ->
  filter (fun g => DocumentGraph.chat_id g = chat_id
                   /\ DocumentGraph.tenant_id g = tenant_id)
         (graphs_after chat_id tenant_id db)
  = [graph_for chat_id tenant_id (units_of db chat_id tenant_id)].
Proof.
  intros Hrows. unfold graphs_after.
  set (graph := graph_for chat_id tenant_id (units_of db chat_id tenant_id)).
  destruct Hrows as [Hnone|(old & Hone & Htenant)].
  - rewrite Hnone, filter_app, filter_and, Hnone. simpl.
    rewrite filter_cons_True by done. done.
  - rewrite Hone. rewrite filter_and.
    rewrite filter_fmap_stable; last first.
    { intros row. destruct (decide (DocumentGraph.chat_id row = chat_id)); [|done].
      by split. }
    rewrite Hone. cbn [fmap list_fmap]. rewrite decide_True; last first.
    { assert (old ∈ filter (fun g => DocumentGraph.chat_id g = chat_id)
                           (document_graphs db))
        as Hin by (rewrite Hone; by apply list_elem_of_singleton).
      by apply list_elem_of_filter in Hin as [? _]. }
    by rewrite filter_cons_True by done.
Qed.
End Lifecycle.

(** A collection without units has no graph built: [build_graph] raises
    [GraphBuildError] and writes nothing. *)
Theorem build_graph_without_units {U : Unicode} {O : OrderBy} {L : OrderByLaws O}
    (chat_id tenant_id : string) (db : DB) :
  available db = true ->
  filter (fun unit => AtomicUnit.chat_id unit = chat_id
                      /\ AtomicUnit.tenant_id unit = tenant_id)
         (atomic_units db) = [] ->
  GraphService.build_graph chat_id tenant_id db
  = (inr (GraphService.FailedToBuildGraph NoAtomicUnits), db).
Proof.
  intros Havail Hnone. unfold GraphService.build_graph.
  rewrite load_units_available by done.
  assert (units_of db chat_id tenant_id = []) as ->; [|done].
  unfold units_of. rewrite Hnone. apply Permutation_nil_r.
  apply order_by_Permutation.
Qed.

(** Building, then asking for neighbours.  For a collection with units
    whose chat has no graph row yet, or one row that belongs to the
    tenant, [build_graph] succeeds with the number of nodes and edges of
    the builder's graph; afterwards [get_neighbors] finds that graph, and
    every node it returns is the node of a unit of the collection. *)
Theorem build_graph_then_neighbors {U : Unicode} {O : OrderBy} {L : OrderByLaws O}
    (chat_id tenant_id : string) (db : DB) (start : string)
    (edge_type : option string) (hops : Z) :
  available db = true ->
  units_of db chat_id tenant_id <> [] ->
  (filter (fun g => DocumentGraph.chat_id g = chat_id) (document_graphs db) = []
   \/ exists old, filter (fun g => DocumentGraph.chat_id g = chat_id)
                         (document_graphs db) = [old]
                  /\ DocumentGraph.tenant_id old = tenant_id) ->
  let units := units_of db chat_id tenant_id in
  exists stats db' found,
    GraphService.build_graph chat_id tenant_id db = (inl stats, db')
    /\ GraphService.stats_node_count stats
       = Z.of_nat (size (GraphBuilder.build_graph units).1)
    /\ GraphService.stats_edge_count stats
       = Z.of_nat (length (GraphBuilder.build_graph units).2)
    /\ atomic_units db' = atomic_units db
    /\ GraphService._load_graph chat_id tenant_id db'
       = (Ok (Some (graph_for chat_id tenant_id units)), db')
    /\ GraphService.get_neighbors chat_id tenant_id start edge_type hops db'
       = (Ok found, db')
    /\ Forall (fun nb => exists unit,
                 unit ∈ atomic_units db
                 /\ AtomicUnit.chat_id unit = chat_id
                 /\ AtomicUnit.tenant_id unit = tenant_id
                 /\ GraphService.node nb = node_of unit) found.
Proof.
  intros Havail Hunits Hrows units.
  set (db' := with_document_graphs (graphs_after chat_id tenant_id db) db).
  set (graph := graph_for chat_id tenant_id units).
  assert (Hload : GraphService._load_graph chat_id tenant_id db'
                  = (Ok (Some graph), db')).
  { unfold GraphService._load_graph, bind, select, lift.
    cbn [available with_document_graphs document_graphs db']. rewrite Havail.
    by rewrite graphs_after_lookup. }
  eexists _, db', _. split; [by apply build_graph_runs|].
  split; [done|]. split; [done|]. split; [done|]. split; [done|].
  split.
  { unfold GraphService.get_neighbors, bind. rewrite Hload. reflexivity. }
  eapply Forall_impl; [apply hop_loop_nodes; constructor|].
  intros nb [key Hkey]. unfold graph, graph_for in Hkey. cbn [DocumentGraph.nodes] in Hkey.
  assert (Hnodes : (GraphBuilder.build_graph units).1 = GraphBuilder._create_nodes units).
  { destruct units; [done|done]. }
  rewrite Hnodes in Hkey.
  apply create_nodes_key in Hkey as (_ & unit & Hunit & ->).
  apply elem_of_units_of in Hunit as (Hin & Hchat & Htenant). by exists unit.
Qed.
End GraphLifecycle.

Module AnswerProperties.
Import Router Retrieval Answer SessionFacts RetrievalFacts AdaptiveRouterFacts.
Import RetrieveProperties.

(** ** The router *)


(** ** From the decision to the request *)

(** The parameters of a decision of the strategy. *)
Definition parameters (d : RoutingDecision) : string * Z * Q * bool * Z :=
  (selected_mode d, Router.top_k d, Router.score_threshold d,
   Router.expand_with_neighbors d, Router.neighbor_hops d).

Lemma decide_parameters chars config :
  parameters (decide chars config)
  = match query_type chars with
    | EXACT_REFERENCE => (RetrievalMode.GRAPH_ENHANCED, 10, 0.2%Q, true, 2)
    | KEYWORD_SEARCH => (RetrievalMode.SPARSE_ONLY, 15, 0.0%Q, false, 0)
    | SEMANTIC_QUESTION =>
      if bool_decide (default "strict_docs_only"%string (config !! "strictness"%string)
                      = "strict_docs_only"%string)
      then (RetrievalMode.HYBRID, 8, 0.4%Q, true, 1)
      else (RetrievalMode.HYBRID, 12, 0.3%Q, true, 1)
    | HYBRID_QUERY => (RetrievalMode.HYBRID, 10, 0.35%Q, false, 0)
    | UNCLEAR => (RetrievalMode.HYBRID, 10, 0.3%Q, false, 0)
    end.
Proof.
  unfold decide, parameters. destruct (query_type chars); try done.
  unfold _handle_semantic_question. by case_bool_decide.
Qed.

(** The request [generate_answer] makes of a decision of the strategy. *)
Definition request_of (query : str) (d : RoutingDecision) : RetrievalRequest :=
  {| Retrieval.query := query;
     Retrieval.mode := selected_mode d;
     Retrieval.top_k := Router.top_k d;
     Retrieval.score_threshold := Router.score_threshold d;
     Retrieval.expand_with_neighbors := Router.expand_with_neighbors d;
     Retrieval.neighbor_hops := Router.neighbor_hops d |}.

Lemma decision_validates (query : str) chars config :
  query <> [] ->
  let d := decide chars config in
  retrieval_mode (selected_mode d) = Ok (selected_mode d)
  /\ retrieval_request query (selected_mode d) (Router.top_k d)
                       (Router.score_threshold d) (Router.expand_with_neighbors d)
                       (Router.neighbor_hops d)
     = Ok (request_of query d)
  /\ valid_mode (selected_mode d)
  /\ 1 <= Router.top_k d <= 15.
Proof.
  intros Hquery d.
  assert (Hlen : bool_decide (1 <= length query)%nat = true).
  { apply bool_decide_eq_true. destruct query; [done|simpl; lia]. }
  pose proof (decide_parameters chars config) as Hp. fold d in Hp.
  unfold parameters in Hp. unfold retrieval_request, request_of. rewrite Hlen.
  destruct (query_type chars); [| |case_bool_decide| |];
    injection Hp as -> -> -> -> ->;
    (split; [done|]); (split; [done|]); (split; [|lia]);
    unfold valid_mode; set_solver.
Qed.

Lemma generate_answer_contexts_runs {U : Unicode} {E : Externals} chat_id tenant_id
    query db chat :
  available db = true ->
  filter (fun c => Chat.id c = chat_id /\ Chat.tenant_id c = tenant_id) (chats db)
  = [chat] ->
  query <> [] ->
  generate_answer_contexts chat_id tenant_id query db
  = retrieve (Tokenizer.init true) chat_id tenant_id
             (request_of query (decide (analyze query) (config_of chat))) db.
Proof.
  intros Havail Hrow Hquery.
  assert (Hreq : router_request query chat_id
                 = Ok {| Router.query := query; Router.chat_id := chat_id;
                         force_mode := None; force_top_k := None |}).
  { unfold router_request. rewrite bool_decide_eq_true_2; [done|].
    destruct query; [done|simpl; lia]. }
  assert (Hroute : route {| Router.query := query; Router.chat_id := chat_id;
                            force_mode := None; force_top_k := None |} tenant_id db
                   = (Ok (decide (analyze query) (config_of chat)), db)).
  { unfold route, try_, bind, _load_chat_config, bind, select, lift.
    cbn [Router.chat_id Router.query force_mode force_top_k].
    rewrite Havail, Hrow. reflexivity. }
  destruct (decision_validates query (analyze query) (config_of chat) Hquery)
    as (Hmode & Hrequest & _).
  unfold generate_answer_contexts, bind, lift. rewrite Hreq, Hroute, Hmode, Hrequest.
  reflexivity.
Qed.

(** The first two steps of [generate_answer] for a chat of the tenant and
    a query that is not empty: the decision of the router always makes a
    request that passes the checks of [RetrievalRequest], and the
    retrieval returns at most fifteen contexts, each with a score that
    reaches the threshold of the decision; nothing is written. *)
Theorem answer_contexts_returned {U : Unicode} {E : Externals}
    (chat_id tenant_id : string) (query : str) (db : DB) (chat : Chat.t) :
  available db = true ->
  filter (fun c => Chat.id c = chat_id /\ Chat.tenant_id c = tenant_id) (chats db)
  = [chat] ->
  query <> [] ->
  let decision := decide (analyze query) (config_of chat) in
  exists contexts,
    generate_answer_contexts chat_id tenant_id query db = (Ok contexts, db)
    /\ (length contexts <= 15)%nat
    /\ Z.of_nat (length contexts) <= Router.top_k decision
    /\ Forall (fun c => (Router.score_threshold decision <= ctx_score c)%Q) contexts.
Proof.
  intros Havail Hrow Hquery decision.
  rewrite (generate_answer_contexts_runs chat_id tenant_id query db chat) by done.
  fold decision.
  destruct (decision_validates query (analyze query) (config_of chat) Hquery)
    as (_ & _ & Hvalid & Htop). fold decision in Hvalid, Htop.
  destruct (retrieve_returns db chat_id tenant_id (fun _ => True)) with
    (tokenizer := Tokenizer.init true) (request := request_of query decision)
    as (contexts & Hrun & _);
    [by intros; apply Forall_forall|done|by intros; apply Forall_forall|done|].
  exists contexts. split; [done|].
  unfold retrieve, try_ in Hrun.
  match type of Hrun with
  | context [match ?body db with _ => _ end] =>
    destruct (body db) as [[a|e] db1] eqn:Hbody
  end; [|done].
  injection Hrun as -> ->.
  apply bind_Ok_inv in Hbody as (results & db1 & _ & Hbody).
  apply bind_Ok_inv in Hbody as (results' & db2 & _ & Hbody).
  apply bind_Ok_inv in Hbody as (enriched & db3 & _ & Hbody).
  injection Hbody as <- _. cbn [Retrieval.top_k Retrieval.score_threshold request_of].
  assert (Hlen : Z.of_nat (length (slice_to (Router.top_k decision)
                   (filter (fun c => Qle_bool (Router.score_threshold decision)
                                              (ctx_score c) = true) enriched)))
                 <= Router.top_k decision).
  { apply HybridProperties.length_slice_to. lia. }
  split; [lia|]. split; [done|].
  eapply Forall_subseteq; [apply slice_to_subseteq|].
  apply Forall_forall. intros c [Hc _]%list_elem_of_filter.
  by apply Qle_bool_iff.
Qed.

(** Only keyword searches find anything.  Every decision of the strategy
    other than the one for a keyword search selects the hybrid or the
    graph-enhanced mode with a threshold of 0.2 or more, and no fused
    score exceeds 1/61: unless the analyzer takes the query for a keyword
    search, the retrieval of [generate_answer] returns no context.  (The
    stored index names every document once and the vector store answers
    with distinct points.) *)
Theorem answer_contexts_empty {U : Unicode} {E : Externals}
    (chat_id tenant_id : string) (query : str) (db : DB) (chat : Chat.t) :
  available db = true ->
  filter (fun c => Chat.id c = chat_id /\ Chat.tenant_id c = tenant_id) (chats db)
  = [chat] ->
  query <> [] ->
  (forall index,
     index ∈ bm25_indexes db -> BM25Index.chat_id index = chat_id ->
     BM25Index.tenant_id index = tenant_id -> NoDup (BM25Index.doc_ids index)) ->
  (forall query limit threshold points,
     vector_search chat_id tenant_id query limit threshold = Ok points ->
     NoDup ((fun p : string * Q * gmap string string => p.1.1) <$> points)) ->
  query_type (analyze query) <> KEYWORD_SEARCH ->
  generate_answer_contexts chat_id tenant_id query db = (Ok [], db).
Proof.
  intros Havail Hrow Hquery Hindex Hdense Htype.
  rewrite (generate_answer_contexts_runs chat_id tenant_id query db chat) by done.
  set (decision := decide (analyze query) (config_of chat)).
  pose proof (decide_parameters (analyze query) (config_of chat)) as Hp.
  fold decision in Hp. unfold parameters in Hp.
  destruct (retrieve_low_scores db (Tokenizer.init true) chat_id tenant_id
              (request_of query decision)) as (contexts & Hrun & ->);
    [done|done| | |done];
    cbn [Retrieval.mode Retrieval.score_threshold request_of];
    (destruct (query_type (analyze query)); [|done|case_bool_decide| |]);
    injection Hp as H1 H2 H3 H4 H5; rewrite ?H1, ?H3;
    try (by left); try (by right); done.
Qed.
End AnswerProperties.

Module TokenizerProperties.
Import Tokenizer TokenizerFacts.

Section Tokens.
Context {U : Unicode} {E : Externals}.

(** What passes the two filters of [tokenize]. *)
Definition kept (self : MultilingualTokenizer) (t : str) : Prop :=
  (remove_stopwords self = true -> t ∉ stopwords self)
  /\ ((2 <= length t)%nat \/ isdigit t = true).

Lemma tokenize_found (self : MultilingualTokenizer) (text : str) (t : str) :
  t ∈ tokenize self text ->
  t ∈ findall token_re (lower text) /\ kept self t.
Proof.
  unfold tokenize, kept.
  destruct (bool_decide (text = []) || strip_is_empty text); [by intros ?%elem_of_nil|].
  intros [Hlong Ht]%list_elem_of_filter.
  destruct (remove_stopwords self).
  - apply list_elem_of_filter in Ht as [Hstop Ht]. done.
  - done.
Qed.


Context {L : UnicodeLaws U}.

(** The lists of tokens [tokenize] can return: a list is the output of
    [tokenize] for some text exactly when each of its tokens is well
    shaped, is made of characters that are their own lower case, is not
    a stop word of a tokenizer that removes them, and has two characters
    or more or is numeric; the text is then the tokens joined by single
    spaces. *)
Theorem tokenize_image (self : MultilingualTokenizer) (tokens : list str) :
  (exists text, tokenize self text = tokens)
  <-> Forall (fun t => well_shaped t
                       /\ Forall (fun c => to_lower c = [c]) t
                       /\ kept self t) tokens.
Proof.
  split.
  - intros [text <-]. apply Forall_forall. intros t Ht.
    destruct (tokenize_found self text t Ht) as [Hfound Hkept].
    pose proof (findall_shape (length (lower text)) None (lower text)
                  (or_introl eq_refl)) as Hscan.
    rewrite Forall_forall in Hscan.
    destruct (Hscan t Hfound) as [Hshape Hsub].
    split; [done|]. split; [|done].
    apply Forall_forall. intros c Hc. apply Hsub in Hc.
    unfold lower in Hc. apply list_elem_of_bind in Hc as (c0 & Hc & _).
    by eapply to_lower_stable.
  - intros Hall. exists (join [32%N] tokens).
    rewrite Forall_forall in Hall.
    apply retokenize; try intros ?; apply Forall_forall; intros t Ht;
      destruct (Hall t Ht) as (Hshape & Hlower & Hstop & Hlong); auto.
Qed.
End Tokens.
End TokenizerProperties.

Module MetadataProperties.
Import GraphService.






End MetadataProperties.

Module PropertyWitnesses.
#[local] Existing Instance Scenario.externals.
Import Retrieval.

(** The merge sort of the scenario is an [ORDER BY]. *)
Lemma merge_order_laws : OrderByLaws Scenario.merge_order.
Proof.
  split; intros A key rows; unfold order_by, Scenario.merge_order.
  - apply merge_sort_Permutation.
  - apply StronglySorted_merge_sort.
    + intros a b c. lia.
    + intros a b. lia.
Qed.

(** Two ranked lists: [a] then [b], and [b] then [c]. *)
Definition ranked : list (list result) :=
  let payload := (1%Q, "sparse"%string, Payload ∅) in
  [[FusionFacts.item_of "a" payload; FusionFacts.item_of "b" payload];
   [FusionFacts.item_of "b" payload; FusionFacts.item_of "c" payload]].

Lemma fuse_union_witness :
  exists fused,
    fuse default_fusion ranked None = Ok fused
    /\ NoDup (atomic_unit_id <$> fused).
Proof.
  destruct (FusionProperties.fuse_union default_fusion ranked None)
    as (fused & Hrun & Hids & _).
  - discriminate.
  - simpl. lia.
  - simpl. lia.
  - intros H. vm_compute in H. discriminate H.
  - exists fused. split; [exact Hrun|exact Hids].
Defined.


Lemma fuse_raises_witness :
  fuse default_fusion ranked (Some [1%Q; (-1)%Q]) = Raise ZeroDivisionError
  /\ fuse default_fusion ranked (Some [1%Q]) = Raise IndexError.
Proof.
  split.
  - apply (FusionEdgeCases.fuse_raises default_fusion ranked [1%Q; (-1)%Q]).
    + simpl. lia.
    + discriminate.
    + reflexivity.
  - apply (FusionEdgeCases.fuse_raises default_fusion ranked [1%Q]).
    + simpl. lia.
    + right. intros H. vm_compute in H. discriminate H.
    + simpl. lia.
Defined.


(** The stored indexes of the scenario name every document once, and its
    vector store has no points. *)
Lemma scenario_index_distinct chat_id tenant_id index :
  index ∈ bm25_indexes Scenario.db -> BM25Index.chat_id index = chat_id ->
  BM25Index.tenant_id index = tenant_id -> NoDup (BM25Index.doc_ids index).
Proof.
  intros Hin _ _. unfold Scenario.db in Hin. cbn [bm25_indexes] in Hin.
  apply elem_of_cons in Hin as [->|Hin];
    [apply (bool_decide_eq_true_1 _); vm_compute; reflexivity|].
  apply elem_of_cons in Hin as [->|Hin];
    [apply (bool_decide_eq_true_1 _); vm_compute; reflexivity|].
  by apply elem_of_nil in Hin.
Qed.

Lemma scenario_dense_distinct (chat_id tenant_id : string) query limit threshold points :
  vector_search chat_id tenant_id query limit threshold = Ok points ->
  NoDup ((fun p : string * Q * gmap string string => p.1.1) <$> points).
Proof. intros [= <-]. constructor. Qed.

Definition hybrid_request (query : string) : RetrievalRequest :=
  {| Retrieval.query := py query;
     Retrieval.mode := RetrievalMode.HYBRID;
     Retrieval.top_k := 10;
     Retrieval.score_threshold := 0.3%Q;
     Retrieval.expand_with_neighbors := true;
     Retrieval.neighbor_hops := 1 |}.

Lemma hybrid_scores_witness :
  exists results,
    _hybrid Scenario.tokenizer "chat-a" "acme" (py "Article 27") 10 0.3%Q Scenario.db
    = (Ok results, Scenario.db)
    /\ Forall (fun r => (0 < score r <= 1 # 61)%Q /\ source r = "fusion"%string) results.
Proof.
  destruct (HybridProperties.hybrid_scores Scenario.db Scenario.tokenizer "chat-a" "acme"
              (py "Article 27") 10 0.3%Q
              (scenario_index_distinct "chat-a" "acme")
              (scenario_dense_distinct "chat-a" "acme"))
    as (results & Hrun & _ & Hscores & _).
  exists results. split; [exact Hrun|exact Hscores].
Defined.

Lemma retrieve_hybrid_below_threshold_witness :
  retrieve Scenario.tokenizer "chat-a" "acme" (hybrid_request "Article 27") Scenario.db
  = (Ok [], Scenario.db).
Proof.
  apply RetrieveProperties.retrieve_hybrid_below_threshold.
  - apply scenario_index_distinct.
  - apply scenario_dense_distinct.
  - left. reflexivity.
  - reflexivity.
Defined.

Lemma retrieve_within_limits_witness :
  exists contexts,
    retrieve Scenario.tokenizer "chat-a" "acme" (Scenario.sparse_request "Article 27")
             Scenario.db
    = (Ok contexts, Scenario.db)
    /\ Forall (fun c => (0.3 <= ctx_score c)%Q) contexts.
Proof.
  destruct (RetrieveProperties.retrieve_within_limits Scenario.db Scenario.tokenizer
              "chat-a" "acme" (Scenario.sparse_request "Article 27"))
    as (contexts & Hrun & Hscores & _).
  - apply (bool_decide_eq_true_1 _). vm_compute. reflexivity.
  - exists contexts. split; [exact Hrun|exact Hscores].
Defined.

Lemma enrich_results_spec_witness :
  let results := [FusionFacts.item_of "a1" (1%Q, "sparse"%string, Payload ∅);
                  FusionFacts.item_of "zz" (1%Q, "sparse"%string, Payload ∅)] in
  _enrich_results results Scenario.db
  = (Ok (omap (fun r => context_of r
                          <$> RetrieveProperties.unit_with_id Scenario.db (atomic_unit_id r))
              results), Scenario.db).
Proof.
  intros results.
  apply (RetrieveProperties.enrich_results_spec Scenario.db results).
  apply (bool_decide_eq_true_1 _). vm_compute. reflexivity.
Defined.

Lemma get_neighbors_more_hops_witness :
  exists found found',
    GraphService.get_neighbors "chat-a" "acme" "a0" None 1 Scenario.db
    = (Ok found, Scenario.db)
    /\ GraphService.get_neighbors "chat-a" "acme" "a0" None 2 Scenario.db
       = (Ok found', Scenario.db)
    /\ found `prefix_of` found'.
Proof.
  destruct (NeighborProperties.get_neighbors_more_hops "chat-a" "acme" "a0" None 1 2
              Scenario.db
              (Scenario.graph_of "acme" "chat-a" [Scenario.a0; Scenario.a1; Scenario.a2]))
    as (found & found' & Hrun & Hrun' & Hprefix & _).
  - reflexivity.
  - vm_compute. reflexivity.
  - lia.
  - exists found, found'. split; [exact Hrun|]. split; [exact Hrun'|exact Hprefix].
Defined.

Lemma get_neighbors_complete_witness :
  exists found,
    GraphService.get_neighbors "chat-a" "acme" "a0" None 2 Scenario.db
    = (Ok found, Scenario.db)
    /\ forall x n,
         x <> "a0"%string ->
         DocumentGraph.nodes
           (Scenario.graph_of "acme" "chat-a" [Scenario.a0; Scenario.a1; Scenario.a2])
           !! x = Some n ->
         GraphServiceFacts.within_hops
           (Scenario.graph_of "acme" "chat-a" [Scenario.a0; Scenario.a1; Scenario.a2])
           None "a0" 2 x ->
         exists nb, nb ∈ found /\ GraphEdge.target_id (GraphService.edge nb) = x
                    /\ GraphService.node nb = n.
Proof.
  apply (NeighborProperties.get_neighbors_complete "chat-a" "acme" "a0" None 2
           Scenario.db
           (Scenario.graph_of "acme" "chat-a" [Scenario.a0; Scenario.a1; Scenario.a2])).
  - reflexivity.
  - vm_compute. reflexivity.
Defined.

Lemma build_index_without_units_witness :
  BM25.build_index (O := Scenario.merge_order) Scenario.tokenizer "chat-x" "acme"
                   Scenario.db
  = (Raise (BM25BuildError NoAtomicUnits), Scenario.db).
Proof.
  apply (IndexLifecycle.build_index_without_units (L := merge_order_laws)).
  - reflexivity.
  - vm_compute. reflexivity.
Defined.

Lemma build_index_then_load_witness :
  exists stats db',
    BM25.build_index (O := Scenario.merge_order) Scenario.tokenizer "chat-a" "acme"
                     Scenario.db_without_indexes
    = (Ok stats, db')
    /\ BM25.stats_document_count stats = 3
    /\ exists index, BM25._load_index "chat-a" "acme" db' = (Ok (Some index), db').
Proof.
  destruct (IndexLifecycle.build_index_then_load (L := merge_order_laws) Scenario.tokenizer
              "chat-a" "acme" Scenario.db_without_indexes)
    as (stats & db' & Hrun & Hcount & _ & Hload & _).
  - reflexivity.
  - intros H. vm_compute in H. discriminate H.
  - left. vm_compute. reflexivity.
  - exists stats, db'. split; [exact Hrun|]. split; [exact Hcount|].
    eexists. exact Hload.
Defined.

Lemma build_index_twice_witness :
  (_ <- BM25.build_index (O := Scenario.merge_order) Scenario.tokenizer "chat-a" "acme" ;;
   BM25.build_index (O := Scenario.merge_order) Scenario.tokenizer "chat-a" "acme")%session
    Scenario.db
  = BM25.build_index (O := Scenario.merge_order) Scenario.tokenizer "chat-a" "acme"
                     Scenario.db.
Proof.
  apply (IndexLifecycle.build_index_twice (L := merge_order_laws)).
  - reflexivity.
  - intros H. vm_compute in H. discriminate H.
  - right. exists (Scenario.index_of "acme" "chat-a" [Scenario.a0; Scenario.a1; Scenario.a2]).
    split; vm_compute; reflexivity.
Defined.

Lemma build_index_then_search_witness :
  exists stats db' r,
    BM25.build_index (O := Scenario.merge_order) Scenario.tokenizer "chat-a" "acme"
                     Scenario.db_without_indexes
    = (Ok stats, db')
    /\ BM25.search Scenario.tokenizer "chat-a" "acme" (py "Article 27") 10 db' = (r, db')
    /\ forall hits, r = Ok hits ->
         Forall (fun h => exists unit,
                     unit ∈ atomic_units Scenario.db_without_indexes
                     /\ AtomicUnit.chat_id unit = "chat-a"%string
                     /\ AtomicUnit.tenant_id unit = "acme"%string
                     /\ BM25.atomic_unit_id h = AtomicUnit.id unit
                     /\ BM25.metadata h = BM25.metadata_of unit) hits.
Proof.
  destruct (IndexUse.build_index_then_search (L := merge_order_laws) Scenario.tokenizer
              "chat-a" "acme" Scenario.db_without_indexes (py "Article 27") 10)
    as (stats & db' & r & Hrun & Hsearch & Hhits).
  - reflexivity.
  - intros H. vm_compute in H. discriminate H.
  - left. vm_compute. reflexivity.
  - exists stats, db', r. split; [exact Hrun|]. split; [exact Hsearch|].
    intros hits Hr. exact (proj1 (Hhits hits Hr)).
Defined.

Lemma delete_index_then_search_witness :
  exists db',
    BM25.delete_index "chat-a" "acme" Scenario.db = (Ok true, db')
    /\ BM25.search Scenario.tokenizer "chat-a" "acme" (py "Article 27") 10 db'
       = (Raise BM25IndexNotFoundError, db').
Proof.
  pose proof (IndexUse.delete_index_then_search Scenario.tokenizer "chat-a" "acme"
                Scenario.db (py "Article 27") 10 eq_refl) as H.
  cbv zeta in H.
  assert (Hrows : filter (fun i => BM25Index.chat_id i = "chat-a"%string
                                   /\ BM25Index.tenant_id i = "acme"%string)
                         (bm25_indexes Scenario.db)
                  = [Scenario.index_of "acme" "chat-a"
                                       [Scenario.a0; Scenario.a1; Scenario.a2]]).
  { vm_compute. reflexivity. }
  rewrite Hrows in H. destruct H as (db' & Hrun & _ & _ & Hsearch).
  exists db'. split; [exact Hrun|exact Hsearch].
Defined.

Lemma search_errors_witness :
  exists r,
    BM25.search Scenario.tokenizer "chat-x" "acme" (py "Article 27") 10 Scenario.db
    = (r, Scenario.db)
    /\ (r = Raise BM25IndexNotFoundError
        <-> available Scenario.db = true
            /\ filter (fun i => BM25Index.chat_id i = "chat-x"%string
                                /\ BM25Index.tenant_id i = "acme"%string)
                      (bm25_indexes Scenario.db) = []).
Proof.
  destruct (IndexUse.search_errors Scenario.tokenizer "chat-x" "acme" (py "Article 27") 10
              Scenario.db) as (r & Hrun & Hmissing & _).
  - intros corpus tokens. discriminate.
  - exists r. split; [exact Hrun|exact Hmissing].
Defined.

Lemma build_graph_without_units_witness :
  GraphService.build_graph (O := Scenario.merge_order) "chat-x" "acme" Scenario.db
  = (inr (GraphService.FailedToBuildGraph NoAtomicUnits), Scenario.db).
Proof.
  apply (GraphLifecycle.build_graph_without_units (L := merge_order_laws)).
  - reflexivity.
  - vm_compute. reflexivity.
Defined.

Lemma build_graph_then_neighbors_witness :
  exists stats db' found,
    GraphService.build_graph (O := Scenario.merge_order) "chat-a" "acme"
                             Scenario.db_without_indexes
    = (inl stats, db')
    /\ GraphService.get_neighbors "chat-a" "acme" "a0" None 2 db' = (Ok found, db').
Proof.
  destruct (GraphLifecycle.build_graph_then_neighbors (L := merge_order_laws)
              "chat-a" "acme" Scenario.db_without_indexes "a0" None 2)
    as (stats & db' & found & Hrun & _ & _ & _ & _ & Hfound & _).
  - reflexivity.
  - intros H. vm_compute in H. discriminate H.
  - left. vm_compute. reflexivity.
  - exists stats, db', found. split; [exact Hrun|exact Hfound].
Defined.

Lemma answer_contexts_returned_witness :
  exists contexts,
    Answer.generate_answer_contexts "chat-a" "acme" (py "payment 27") Scenario.db
    = (Ok contexts, Scenario.db)
    /\ (length contexts <= 15)%nat.
Proof.
  destruct (AnswerProperties.answer_contexts_returned "chat-a" "acme" (py "payment 27")
              Scenario.db Scenario.chat_a)
    as (contexts & Hrun & Hlen & _).
  - reflexivity.
  - vm_compute. reflexivity.
  - discriminate.
  - exists contexts. split; [exact Hrun|exact Hlen].
Defined.

Lemma answer_contexts_empty_witness :
  Answer.generate_answer_contexts "chat-a" "acme" (py "What does Article 27 state")
                                  Scenario.db
  = (Ok [], Scenario.db).
Proof.
  apply (AnswerProperties.answer_contexts_empty "chat-a" "acme"
           (py "What does Article 27 state") Scenario.db Scenario.chat_a).
  - reflexivity.
  - vm_compute. reflexivity.
  - discriminate.
  - apply scenario_index_distinct.
  - apply scenario_dense_distinct.
  - intros H. vm_compute in H. discriminate H.
Defined.

Lemma tokenize_image_witness :
  (exists text, Tokenizer.tokenize Scenario.tokenizer text
                = Tokenizer.tokenize Scenario.tokenizer (py "The Payment-terms, §27"))
  <-> Forall (fun t => TokenizerFacts.well_shaped t
                       /\ Forall (fun c => to_lower c = [c]) t
                       /\ TokenizerProperties.kept Scenario.tokenizer t)
             (Tokenizer.tokenize Scenario.tokenizer (py "The Payment-terms, §27")).
Proof.
  exact (TokenizerProperties.tokenize_image (L := BasicUnicodeFacts.basic_unicode_laws)
           Scenario.tokenizer
           (Tokenizer.tokenize Scenario.tokenizer (py "The Payment-terms, §27"))).
Defined.
End PropertyWitnesses.
